(** * StreamToHandshake: the lowering of stream operators to handshake circuits

    This development embeds the conversion pass of
    [lib/Conversion/StreamToHandshake/StreamToHandshake.cpp] and checks the
    properties of its specification against it.

    Definitions:
    - [Uniquer]: the [SymbolUniquer] class.
    - [Lifetime]: the uniquer object the patterns of a pass run refer to.
    - [Types]: types, attributes, the [StreamTypeConverter] and the outcome of
      a pattern (success, failure, failed assertion).
    - [IR]: values, operations and blocks as far as [getCtrlSignal],
      [resolveNewOperands] and [materializeForksAndSinks] look at them, and
      the insertions of forks and sinks of the handshake library.
    - [Patterns]: the type checks of the [reduce] and [create] patterns and of
      [replaceWithInstance].
    - [Handshake]: the handshake operations the patterns instantiate, as
      functions on token histories.
    - [Circuits]: the regions built by the [create], [filter], [reduce] and
      [combine] patterns, one [let] per [rewriter.create] call.
    - [Units]: those regions on the inputs the properties are about.

    Properties: one module of facts for each of the above. *)

From Stdlib Require Import ZArith NArith Ascii String List Bool Lia.
From stdpp Require Import base decidable option numbers list sets gmap strings pretty.

Local Open Scope string_scope.
Set Warnings "-register-all,-clear-no-such-hyp".

(** ** The symbol uniquer *)

Module Uniquer.

(** [std::replace(name.begin(), name.end(), '.', '_')] *)
Fixpoint replace (old new : ascii) (s : string) : string :=
  match s with
  | EmptyString => EmptyString
  | String c s' =>
      String (if Ascii.eqb c old then new else c) (replace old new s')
  end.

(** [getBareOpName]: the operation is looked at through its name only. *)
Definition getBareOpName (opName : string) : string :=
  replace "."%char "_"%char opName.

(** The class [SymbolUniquer]: its only data member that is ever read is the
    set [usedNames]. *)
Record SymbolUniquer := mkSymbolUniquer { usedNames : gset string }.

Definition addSymbol (name : string) (u : SymbolUniquer) : SymbolUniquer :=
  {| usedNames := {[ name ]} ∪ usedNames u |}.

(** The constructor: [addDefinitions] calls [addSymbol] on every symbol of
    the top operation, given here as the list of their names. *)
Definition addDefinitions (symbols : list string) (u : SymbolUniquer)
  : SymbolUniquer :=
  fold_left (fun u' s => addSymbol s u') symbols u.

Definition mk (symbols : list string) : SymbolUniquer :=
  addDefinitions symbols {| usedNames := ∅ |}.

(** [llvm::formatv("{0}_{1}", opName, cnt)] *)
Definition formatv (opName : string) (cnt : N) : string :=
  opName +:+ "_" +:+ pretty cnt.

(** [unsigned cnt]: [cnt++] wraps at [2^32]. *)
Definition unsigned_modulus : N := 2 ^ 32.
Definition incr (cnt : N) : N := ((cnt + 1) mod unsigned_modulus)%N.

(** The [while] loop of [getUniqueSymName]; [fuel] bounds the number of
    times its condition is evaluated. *)
Fixpoint getUniqueSymName_loop (fuel : nat) (used : gset string)
    (opName name : string) (cnt : N) : option string :=
  match fuel with
  | O => None
  | S fuel' =>
      if decide (name ∈ used)
      then getUniqueSymName_loop fuel' used opName (formatv opName cnt) (incr cnt)
      else Some name
  end.

Definition getUniqueSymName (fuel : nat) (u : SymbolUniquer) (op : string)
  : option (string * SymbolUniquer) :=
  let opName := getBareOpName op in
  match getUniqueSymName_loop fuel (usedNames u) opName opName 1%N with
  | Some name => Some (name, addSymbol name u)
  | None => None
  end.

(** Successive calls of [getUniqueSymName] on one uniquer that stays alive
    between the calls, one call per operation, in order. This is the class
    on its own; how the pass reaches its uniquer is in [Lifetime]. *)
Fixpoint getUniqueSymNames (fuel : nat) (u : SymbolUniquer) (ops : list string)
  : option (list string * SymbolUniquer) :=
  match ops with
  | [] => Some ([], u)
  | op :: ops' =>
      match getUniqueSymName fuel u op with
      | None => None
      | Some (name, u') =>
          match getUniqueSymNames fuel u' ops' with
          | None => None
          | Some (names, u'') => Some (name :: names, u'')
          end
      end
  end.

(** The [j]-th name the loop tries: the bare name, then [_1], [_2], ... *)
Definition candidate (opName : string) (j : N) : string :=
  if decide (j = 0%N) then opName else formatv opName j.

(** [name] is the first candidate for [opName] that is not in [used]. *)
Definition first_free (used : gset string) (opName name : string) : Prop :=
  ∃ j : N, name = candidate opName j ∧ (name ∉ used) ∧
           (∀ i : N, (i < j)%N → candidate opName i ∈ used).

(** Every name of [names] was the first free candidate when it was chosen,
    against the initial set extended with the names chosen before it. *)
Fixpoint chosen_in_turn (used : gset string) (ops names : list string) : Prop :=
  match ops, names with
  | [], [] => True
  | op :: ops', name :: names' =>
      first_free used (getBareOpName op) name ∧
      chosen_in_turn ({[ name ]} ∪ used) ops' names'
  | _, _ => False
  end.

End Uniquer.

(** ** The uniquer of a pass run *)

Module Lifetime.
Import Uniquer.

(** An object with automatic storage duration: alive, with its state, or
    destroyed, once its scope has ended. *)
Inductive Object :=
  | Alive (u : SymbolUniquer)
  | Destroyed.

(** What a member call through a reference leads to: it returns, or the
    object referred to is not alive any more and the behaviour is undefined. *)
Inductive Access (A : Type) :=
  | Returned (a : A)
  | UseAfterScope.
Arguments Returned {A} a.
Arguments UseAfterScope {A}.

(** [symbolUniquer.getUniqueSymName(op)] in a pattern, where [symbolUniquer]
    is the member [SymbolUniquer &symbolUniquer] of [StreamOpLowering]: the
    address the pattern was constructed with. The automatic objects are
    listed by address. *)
Definition getUniqueSymName_ref (fuel : nat) (symbolUniquer : nat)
    (stack : list Object) (op : string)
  : option (Access (string * list Object)) :=
  match stack !! symbolUniquer with
  | Some (Alive u) =>
      match getUniqueSymName fuel u op with
      | Some (name, u') => Some (Returned (name, <[symbolUniquer := Alive u']> stack))
      | None => None
      end
  | _ => Some UseAfterScope
  end.

(** [populateStreamToHandshakePatterns(typeConverter, symbolUniquer,
    patterns)]: the parameter [SymbolUniquer symbolUniquer] is taken by
    value, so it is a new object, a copy of the argument;
    [patterns.add<...>(typeConverter, patterns.getContext(), symbolUniquer)]
    constructs every pattern with a reference to that parameter; the
    parameter is destroyed when the function returns. The result is the
    reference the patterns keep. *)
Definition populateStreamToHandshakePatterns (argument : SymbolUniquer)
    (stack : list Object) : nat * list Object :=
  let symbolUniquer := length stack in
  let stack := (stack ++ [Alive argument])%list in
  let patterns := symbolUniquer in
  (patterns, <[symbolUniquer := Destroyed]> stack).

(** [applyPartialConversion], as far as the names go: the stream operations
    in the order they are rewritten; the pattern of each calls
    [getUniqueSymName] once, through its reference. *)
Fixpoint applyPartialConversion (fuel : nat) (patterns : nat)
    (stack : list Object) (ops : list string)
  : option (Access (list string * list Object)) :=
  match ops with
  | [] => Some (Returned ([], stack))
  | op :: ops' =>
      match getUniqueSymName_ref fuel patterns stack op with
      | None => None
      | Some UseAfterScope => Some UseAfterScope
      | Some (Returned (name, stack')) =>
          match applyPartialConversion fuel patterns stack' ops' with
          | None => None
          | Some UseAfterScope => Some UseAfterScope
          | Some (Returned (names, stack'')) => Some (Returned (name :: names, stack''))
          end
      end
  end.

(** [StreamToHandshakePass::runOnOperation], as far as the uniquer goes:
    [symbols] are the symbols of the module and [ops] the stream operations
    the conversion rewrites. *)
Definition runOnOperation (fuel : nat) (symbols ops : list string)
  : option (Access (list string)) :=
  (* SymbolUniquer symbolUniquer(getOperation()); *)
  let symbolUniquer := mk symbols in
  let stack := [Alive symbolUniquer] in
  let '(patterns, stack) := populateStreamToHandshakePatterns symbolUniquer stack in
  match applyPartialConversion fuel patterns stack ops with
  | None => None
  | Some UseAfterScope => Some UseAfterScope
  | Some (Returned (names, _)) => Some (Returned names)
  end.

End Lifetime.

(** ** Types, attributes and the outcome of a pattern *)

Module Types.

Inductive Signedness := Signless | Signed | Unsigned.

(** The types the pass looks at. [OtherType] stands for any type that is
    none of the others (floats, index, memrefs, ...). *)
Inductive Ty :=
  | IntegerType (width : N) (sign : Signedness)
  | NoneType
  | TupleType (types : list Ty)
  | StreamType (elementType : Ty)
  | OtherType (name : string).

Inductive Attribute :=
  | IntegerAttr (value : Z)
  | OtherAttr (name : string).

(** What running a piece of a pattern leads to: it goes on with a value,
    it returns [failure()], or an [assert] fires and the process aborts. *)
Inductive outcome (A : Type) :=
  | Success (a : A)
  | Failure
  | AssertionFailure (msg : string).
Arguments Success {A} a.
Arguments Failure {A}.
Arguments AssertionFailure {A} msg.

#[global] Instance outcome_ret : MRet outcome := fun A a => Success a.
#[global] Instance outcome_bind : MBind outcome := fun A B k x =>
  match x with
  | Success a => k a
  | Failure => Failure
  | AssertionFailure msg => AssertionFailure msg
  end.

Definition assert (b : bool) (msg : string) : outcome unit :=
  if b then Success tt else AssertionFailure msg.

Definition Signedness_eqb (a b : Signedness) : bool :=
  match a, b with
  | Signless, Signless | Signed, Signed | Unsigned, Unsigned => true
  | _, _ => false
  end.

(** Types are uniqued in the context, so [==] on them is structural. *)
Fixpoint Ty_eqb (a b : Ty) : bool :=
  match a, b with
  | IntegerType w s, IntegerType w' s' => N.eqb w w' && Signedness_eqb s s'
  | NoneType, NoneType => true
  | TupleType l, TupleType l' =>
      (fix go (l l' : list Ty) : bool :=
         match l, l' with
         | [], [] => true
         | x :: l, y :: l' => Ty_eqb x y && go l l'
         | _, _ => false
         end) l l'
  | StreamType e, StreamType e' => Ty_eqb e e'
  | OtherType n, OtherType n' => String.eqb n n'
  | _, _ => false
  end.

Definition isa_IntegerType (t : Ty) : bool :=
  match t with IntegerType _ _ => true | _ => false end.
Definition isa_NoneType (t : Ty) : bool :=
  match t with NoneType => true | _ => false end.
Definition isa_TupleType (t : Ty) : bool :=
  match t with TupleType _ => true | _ => false end.
Definition isa_StreamType (t : Ty) : bool :=
  match t with StreamType _ => true | _ => false end.

(** [rewriter.getI64Type()], [getI1Type()], [getI32Type()]: signless. *)
Definition I64 : Ty := IntegerType 64 Signless.
Definition I32 : Ty := IntegerType 32 Signless.
Definition I1 : Ty := IntegerType 1 Signless.

(** [StreamTypeConverter]: the conversion registered last is tried first; it
    applies to stream types only, every other type is returned as it is.
    No conversion fails. *)
Definition convertType (t : Ty) : outcome (list Ty) :=
  match t with
  | StreamType elementType => Success [TupleType [elementType; I1]; NoneType]
  | _ => Success [t]
  end.

Fixpoint convertTypes (ts : list Ty) : outcome (list Ty) :=
  match ts with
  | [] => Success []
  | t :: ts' =>
      r ← convertType t; rs ← convertTypes ts'; Success (r ++ rs)%list
  end.

End Types.

(** ** Values, operations and blocks *)

Module IR.
Import Types.

(** A value is a block argument or a result of an operation; blocks and
    operations are named by numbers, the way the C++ names them by address. *)
Inductive Value :=
  | BlockArgument (owner : nat) (argNumber : nat)
  | OpResult (owner : nat) (resultNumber : nat).

#[global] Instance Value_eq_dec : EqDecision Value.
Proof. solve_decision. Defined.

Inductive OpKind :=
  | InstanceOp
  | UnrealizedConversionCastOp
  | ForkOp
  | SinkOp
  | OtherOp (name : string).

Record Operation := mkOperation {
  opKind : OpKind;
  opOperands : list Value;
  opResultTypes : list Ty;
  opBlock : nat
}.

Record Block := mkBlock { blockArguments : list Ty }.

(** The IR a pattern runs in: what each operation and block address holds. *)
Record Context := mkContext {
  operations : nat -> Operation;
  blocks : nat -> Block
}.

Definition isa_InstanceOp (op : Operation) : bool :=
  match opKind op with InstanceOp => true | _ => false end.
Definition isa_UnrealizedConversionCastOp (op : Operation) : bool :=
  match opKind op with UnrealizedConversionCastOp => true | _ => false end.

Definition getType (ir : Context) (v : Value) : option Ty :=
  match v with
  | BlockArgument b i => blockArguments (blocks ir b) !! i
  | OpResult o i => opResultTypes (operations ir o) !! i
  end.

Definition has_type (p : Ty -> bool) (ir : Context) (v : Value) : bool :=
  match getType ir v with Some t => p t | None => false end.

(** [block->getArguments().back()]: [back()] asserts that the range is not
    empty. *)
Definition getArguments_back (ir : Context) (block : nat) : outcome Value :=
  match length (blockArguments (blocks ir block)) with
  | O => AssertionFailure "!empty()"
  | S n => Success (BlockArgument block n)
  end.

(** [op->getResults().back()] *)
Definition getResults_back (ir : Context) (op : nat) : outcome Value :=
  match length (opResultTypes (operations ir op)) with
  | O => AssertionFailure "!empty()"
  | S n => Success (OpResult op n)
  end.

Definition getBlockCtrlSignal (ir : Context) (block : nat) : outcome Value :=
  ctrl ← getArguments_back ir block;
  assert (has_type isa_NoneType ir ctrl) "last argument should be a ctrl signal";;
  Success ctrl.

(** [getCtrlSignal] calls itself on the operands of the producer of its first
    operand; [fuel] bounds the number of calls. [None] is a walk that has not
    returned within [fuel] calls. *)
Fixpoint getCtrlSignal (fuel : nat) (ir : Context) (operands : list Value)
  : option (outcome Value) :=
  match fuel with
  | O => None
  | S fuel' =>
      match operands with
      | [] => Some (AssertionFailure "operands.size() > 0")
      | BlockArgument owner _ :: _ => Some (getBlockCtrlSignal ir owner)
      | OpResult op _ :: _ =>
          if isa_InstanceOp (operations ir op)
          then Some (getResults_back ir op)
          else getCtrlSignal fuel' ir (opOperands (operations ir op))
      end
  end.

(** [resolveStreamOperand]: the operand has to be the result of an
    [UnrealizedConversionCastOp]; [dyn_cast] of the null defining operation
    of a block argument asserts, and [getInputs] on the null result of a
    failed [dyn_cast] does not return. *)
Definition resolveStreamOperand (ir : Context) (oldOperand : Value)
    (newOperands : list Value) : outcome (list Value) :=
  assert (has_type isa_StreamType ir oldOperand)
    "oldOperand.getType().isa<StreamType>()";;
  match oldOperand with
  | BlockArgument _ _ => AssertionFailure "dyn_cast on a non-existent value"
  | OpResult op _ =>
      if isa_UnrealizedConversionCastOp (operations ir op)
      then Success (newOperands ++ opOperands (operations ir op))%list
      else AssertionFailure "null castOp"
  end.

Fixpoint resolveStreamOperands (ir : Context) (zipped : list (Value * Value))
    (newOperands : list Value) : outcome (list Value) :=
  match zipped with
  | [] => Success newOperands
  | (oldOp, remappedOp) :: rest =>
      newOperands' ← resolveStreamOperand ir remappedOp newOperands;
      resolveStreamOperands ir rest newOperands'
  end.

(** [resolveNewOperands]; [oldOperation] is the address of the operation
    that is rewritten. *)
Definition resolveNewOperands (fuel : nat) (ir : Context) (oldOperation : nat)
    (remappedOperands : list Value) (newOperands : list Value)
  : option (outcome (list Value)) :=
  match resolveStreamOperands ir
          (zip (opOperands (operations ir oldOperation)) remappedOperands)
          newOperands with
  | Success newOperands' =>
      if decide (length remappedOperands = 0)
      then Some (ctrl ← getArguments_back ir (opBlock (operations ir oldOperation));
                 Success (newOperands' ++ [ctrl])%list)
      else match getCtrlSignal fuel ir remappedOperands with
           | Some r => Some (ctrl ← r; Success (newOperands' ++ [ctrl])%list)
           | None => None
           end
  | Failure => Some Failure
  | AssertionFailure msg => Some (AssertionFailure msg)
  end.

(** The backward walk of [getCtrlSignal], as a relation: from [operands] it
    takes the first operand at every step and stops at [v], a block argument
    or a result of an [InstanceOp]. *)
Inductive walk_stops_at (ir : Context) : list Value -> Value -> Prop :=
  | stops_at_argument owner i rest :
      walk_stops_at ir (BlockArgument owner i :: rest) (BlockArgument owner i)
  | stops_at_instance op i rest :
      isa_InstanceOp (operations ir op) = true ->
      walk_stops_at ir (OpResult op i :: rest) (OpResult op i)
  | stops_at_step op i rest v :
      isa_InstanceOp (operations ir op) = false ->
      walk_stops_at ir (opOperands (operations ir op)) v ->
      walk_stops_at ir (OpResult op i :: rest) v.

(** The walk runs into a producer without operands. *)
Inductive walk_runs_dry (ir : Context) : list Value -> Prop :=
  | dry_here : walk_runs_dry ir []
  | dry_step op i rest :
      isa_InstanceOp (operations ir op) = false ->
      walk_runs_dry ir (opOperands (operations ir op)) ->
      walk_runs_dry ir (OpResult op i :: rest).

(** The control token [getCtrlSignal] returns for a walk that stops at [v]. *)
Definition ctrl_of_stop (ir : Context) (v : Value) : outcome Value :=
  match v with
  | BlockArgument owner _ => getBlockCtrlSignal ir owner
  | OpResult op _ => getResults_back ir op
  end.

(** *** Fork and sink materialization *)

(** A [handshake::FuncOp]: the arguments of its entry block and the
    operations of its body. Inside it, [BlockArgument 0 i] is its [i]-th
    argument and [OpResult k i] the [i]-th result of its [k]-th operation. *)
Record FuncOp := mkFuncOp {
  funcName : string;
  funcArguments : list Ty;
  funcBody : list Operation
}.

Definition resultsOf (k : nat) (op : Operation) : list Value :=
  map (OpResult k) (seq 0 (length (opResultTypes op))).

Definition valuesOf (f : FuncOp) : list Value :=
  (List.concat (imap resultsOf (funcBody f))
   ++ map (BlockArgument 0) (seq 0 (length (funcArguments f))))%list.

(** The number of uses of [v]: its occurrences as an operand. *)
Definition numUses (f : FuncOp) (v : Value) : nat :=
  count_occ Value_eq_dec (List.concat (map opOperands (funcBody f))) v.

(** Modelled from the spec: [verifyAllValuesHasOneUse] is a function of the
    handshake library, not of this repository: after rewriting, any value
    left with other than exactly one consumer is a verification failure. *)
Definition verifyAllValuesHasOneUse (f : FuncOp) : option unit :=
  if forallb (fun v => Nat.eqb (numUses f v) 1) (valuesOf f)
  then Some tt else None.

(** Every value of the function has exactly one consumer. *)
Definition AllValuesHaveOneUse (f : FuncOp) : Prop :=
  ∀ v : Value, v ∈ valuesOf f -> (numUses f v = 1)%nat.

Section Materialize.
(** [addForkOps] and [addSinkOps] are functions of the handshake library;
    they rewrite the region of the function in place and return a
    [LogicalResult]. *)
Variable addForkOps : FuncOp -> option FuncOp.
Variable addSinkOps : FuncOp -> option FuncOp.

Definition materializeFuncOp (funcOp : FuncOp) : option FuncOp :=
  f1 ← addForkOps funcOp;
  f2 ← addSinkOps f1;
  verifyAllValuesHasOneUse f2;;
  Some f2.

(** The module is the list of its [handshake::FuncOp]s. *)
Fixpoint materializeForksAndSinks (m : list FuncOp) : option (list FuncOp) :=
  match m with
  | [] => Some []
  | funcOp :: rest =>
      f ← materializeFuncOp funcOp;
      rest' ← materializeForksAndSinks rest;
      Some (f :: rest')
  end.

(** What the two insertions make of a function, when both succeed. *)
Definition inserted (funcOp f2 : FuncOp) : Prop :=
  ∃ f1, addForkOps funcOp = Some f1 ∧ addSinkOps f1 = Some f2.
End Materialize.

(** *** The insertions of forks and sinks *)

(** An operation with other operands. *)
Definition setOperands (operands : list Value) (op : Operation) : Operation :=
  {| opKind := opKind op;
     opOperands := operands;
     opResultTypes := opResultTypes op;
     opBlock := opBlock op |}.

(** The type of a value of a function. *)
Definition typeOf (f : FuncOp) (v : Value) : Ty :=
  match v with
  | BlockArgument _ i => default NoneType (funcArguments f !! i)
  | OpResult k i =>
      default NoneType (op ← funcBody f !! k; opResultTypes op !! i)
  end.

(** Modelled from the spec: the rewiring that goes with a duplication node,
    which is part of [addForkOps] of the handshake library, not of this
    repository. Every use of [v] among [operands] becomes a result of its
    own of the operation [fork]: the first use result [j], the next one
    result [j + 1], and so on. *)
Fixpoint replaceUses (v : Value) (fork j : nat) (operands : list Value)
  : list Value :=
  match operands with
  | [] => []
  | x :: rest =>
      if Value_eq_dec x v
      then OpResult fork j :: replaceUses v fork (S j) rest
      else x :: replaceUses v fork j rest
  end.

(** Modelled from the spec: the same rewiring over the operations of a body,
    from the first operation on. *)
Fixpoint replaceUsesIn (v : Value) (fork j : nat) (body : list Operation)
  : list Operation :=
  match body with
  | [] => []
  | op :: rest =>
      setOperands (replaceUses v fork j (opOperands op)) op
      :: replaceUsesIn v fork (j + count_occ Value_eq_dec (opOperands op) v) rest
  end.

(** Modelled from the spec: the duplication node of [addForkOps] (handshake
    library). The value [v] gets a [ForkOp] that takes [v] and has one result
    per consumer of [v]; every consumer is rewired to a result of its own.
    The new operation goes to the end of the body, so that the operations
    that are there keep their positions, which the values name. *)
Definition insertFork (v : Value) (f : FuncOp) : FuncOp :=
  let fork := length (funcBody f) in
  {| funcName := funcName f;
     funcArguments := funcArguments f;
     funcBody := (replaceUsesIn v fork 0 (funcBody f)
                  ++ [mkOperation ForkOp [v]
                        (replicate (numUses f v) (typeOf f v)) 0])%list |}.

(** Modelled from the spec: a value with more than one consumer is
    duplicated, any other value is left as it is. *)
Definition forkIfNeeded (f : FuncOp) (v : Value) : FuncOp :=
  if Nat.leb 2 (numUses f v) then insertFork v f else f.

(** Modelled from the spec: [addForkOps] is a function of the handshake
    library, not of this repository: for every value with more than one
    consumer an explicit duplication node is inserted ahead of consumption.
    The values are those of the function before the insertion; the results
    of the forks have one consumer each. *)
Definition addForkOps (f : FuncOp) : option FuncOp :=
  Some (fold_left forkIfNeeded (valuesOf f) f).

(** Modelled from the spec: the discard node of [addSinkOps] (handshake
    library), a [SinkOp] that takes [v] and has no result. *)
Definition insertSink (v : Value) : Operation := mkOperation SinkOp [v] [] 0.

(** Modelled from the spec: [addSinkOps] is a function of the handshake
    library, not of this repository: for every value with zero consumers an
    explicit discard node is inserted. *)
Definition addSinkOps (f : FuncOp) : option FuncOp :=
  let unused := List.filter (fun v => Nat.eqb (numUses f v) 0) (valuesOf f) in
  Some {| funcName := funcName f;
          funcArguments := funcArguments f;
          funcBody := (funcBody f ++ map insertSink unused)%list |}.

(** Every operand of the function is one of its values: an argument of its
    entry block or a result of one of its operations. *)
Definition well_formed (f : FuncOp) : Prop :=
  ∀ (op : Operation) (v : Value),
    op ∈ funcBody f -> v ∈ opOperands op -> v ∈ valuesOf f.

(** [op] is a fork of [v] with [n] results; [op] is a sink of [v]. *)
Definition fork_of (v : Value) (n : nat) (op : Operation) : Prop :=
  opKind op = ForkOp ∧ opOperands op = [v] ∧ length (opResultTypes op) = n.

Definition sink_of (v : Value) (op : Operation) : Prop :=
  opKind op = SinkOp ∧ opOperands op = [v] ∧ opResultTypes op = [].

(** What the materialization makes of a function [f]: the name and the
    arguments are kept; every operation is kept at its position with its
    kind and its result types; every value of [f] with several consumers has
    a fork with one result per consumer, every value without a consumer has
    a sink; nothing but forks and sinks is added; and a function in which
    every value has one consumer already is left as it is. *)
Definition materialized (f f' : FuncOp) : Prop :=
  funcName f' = funcName f
  ∧ funcArguments f' = funcArguments f
  ∧ (∀ (p : nat) (op : Operation), funcBody f !! p = Some op ->
       ∃ op', funcBody f' !! p = Some op'
              ∧ opKind op' = opKind op ∧ opResultTypes op' = opResultTypes op)
  ∧ (∀ v : Value, v ∈ valuesOf f -> (2 ≤ numUses f v)%nat ->
       ∃ op, op ∈ funcBody f' ∧ fork_of v (numUses f v) op)
  ∧ (∀ v : Value, v ∈ valuesOf f -> numUses f v = 0%nat ->
       ∃ op, op ∈ funcBody f' ∧ sink_of v op)
  ∧ (∀ (p : nat) (op' : Operation), funcBody f' !! p = Some op' ->
       (length (funcBody f) ≤ p)%nat ->
       opKind op' = ForkOp ∨ opKind op' = SinkOp)
  ∧ (AllValuesHaveOneUse f -> f' = f).

(** What one step of the fork insertion, on the value [v], makes of [f]. *)
Definition fork_step (v : Value) (f f' : FuncOp) : Prop :=
  well_formed f'
  ∧ (∀ w : Value, w ∈ valuesOf f -> w ∈ valuesOf f')
  ∧ (numUses f' v ≤ 1)%nat
  ∧ (∀ w : Value, w ∈ valuesOf f -> w ≠ v -> numUses f' w = numUses f w)
  ∧ ((numUses f v ≤ 1)%nat -> numUses f' v = numUses f v)
  ∧ (∀ w : Value, w ∈ valuesOf f' -> w ∉ valuesOf f -> numUses f' w = 1%nat)
  ∧ ((2 ≤ numUses f v)%nat -> ∃ op, op ∈ funcBody f' ∧ fork_of v (numUses f v) op)
  ∧ (∀ op : Operation, op ∈ funcBody f -> v ∉ opOperands op -> op ∈ funcBody f')
  ∧ (∀ (p : nat) (op : Operation), funcBody f !! p = Some op ->
       ∃ op', funcBody f' !! p = Some op'
              ∧ opKind op' = opKind op ∧ opResultTypes op' = opResultTypes op)
  ∧ (∀ (p : nat) (op' : Operation), funcBody f' !! p = Some op' ->
       (length (funcBody f) ≤ p)%nat -> opKind op' = ForkOp)
  ∧ funcName f' = funcName f
  ∧ funcArguments f' = funcArguments f.

(** *** Examples *)

(** An example: block 0 is the entry block of a converted function with one
    stream argument; operation 1 is an instance of a lowered [map],
    operation 2 the cast of its results back to a stream, operation 3 a
    constant and operation 4 an addition of constants. *)
Definition example_ir : Context :=
  {| operations := fun op =>
       match op with
       | 1 => mkOperation InstanceOp [BlockArgument 0 0; BlockArgument 0 1; BlockArgument 0 2]
                [TupleType [I64; I1]; NoneType; NoneType] 0
       | 2 => mkOperation UnrealizedConversionCastOp [OpResult 1 0; OpResult 1 1]
                [StreamType I64] 0
       | 3 => mkOperation (OtherOp "arith.constant") [] [I64] 0
       | 4 => mkOperation (OtherOp "arith.addi") [OpResult 3 0; OpResult 3 0] [I64] 0
       | _ => mkOperation (OtherOp "func.return") [] [] 0
       end;
     blocks := fun _ => mkBlock [TupleType [I64; I1]; NoneType; NoneType] |}.

(** An example of a cycle, as the counter of [create] forms one: operation 6
    is a buffer fed by operation 7, an addition of the result of the buffer
    and of a constant. *)
Definition cyclic_ir : Context :=
  {| operations := fun op =>
       match op with
       | 6 => mkOperation (OtherOp "handshake.buffer") [OpResult 7 0] [I64] 0
       | 7 => mkOperation (OtherOp "arith.addi") [OpResult 6 0; OpResult 8 0] [I64] 0
       | _ => mkOperation (OtherOp "handshake.constant") [BlockArgument 0 0] [I64] 0
       end;
     blocks := fun _ => mkBlock [NoneType] |}.

(** An example: the unit of a [sink], which returns its init control and
    leaves its tuple and stream control unused, and the unit of a doubling
    [map] whose lambda uses its data twice. [no_forks] and [sinks_on_unused]
    are insertions that do not do what the library's do: a sink on every
    value without a use and no fork at all. *)
Definition sink_unit : FuncOp :=
  {| funcName := "stream_sink";
     funcArguments := [TupleType [I64; I1]; NoneType; NoneType];
     funcBody := [mkOperation (OtherOp "handshake.return") [BlockArgument 0 2] [] 0] |}.

Definition double_unit : FuncOp :=
  {| funcName := "stream_map";
     funcArguments := [TupleType [I64; I1]; NoneType; NoneType];
     funcBody :=
       [mkOperation (OtherOp "handshake.unpack") [BlockArgument 0 0] [I64; I1] 0;
        mkOperation (OtherOp "arith.addi") [OpResult 0 0; OpResult 0 0] [I64] 0;
        mkOperation (OtherOp "handshake.pack") [OpResult 1 0; OpResult 0 1]
          [TupleType [I64; I1]] 0;
        mkOperation (OtherOp "handshake.return")
          [OpResult 2 0; BlockArgument 0 1; BlockArgument 0 2] [] 0] |}.

Definition no_forks (f : FuncOp) : option FuncOp := Some f.

Definition sinks_on_unused (f : FuncOp) : option FuncOp :=
  let unused := List.filter (fun v => Nat.eqb (numUses f v) 0) (valuesOf f) in
  Some {| funcName := funcName f;
          funcArguments := funcArguments f;
          funcBody := (funcBody f
                       ++ map (fun v => mkOperation SinkOp [v] [] 0) unused)%list |}.

End IR.

(** ** The type checks of the patterns *)

Module Patterns.
Import Types.

(** What a pattern leaves behind when it succeeds: the signature of the
    function it created and, for every result of the replaced operation, its
    type and the two results of the instance (tuple, ctrl) that are cast
    back to it. *)
Record Lowered := mkLowered {
  unitArgTypes : list Ty;
  unitResTypes : list Ty;
  replacedResults : list (Ty * (nat * nat))
}.

(** [replaceWithInstance]: [resultIt] walks over the results of the new
    instance, two per result of the replaced operation. *)
Fixpoint replaceWithInstance_from (resultIt : nat) (resultTypes : list Ty)
  : outcome (list (Ty * (nat * nat))) :=
  match resultTypes with
  | [] => Success []
  | oldResType :: rest =>
      assert (isa_StreamType oldResType)
        "can currently only replace stream types";;
      let tuple := resultIt in
      let ctrl := S resultIt in
      newValues ← replaceWithInstance_from (S (S resultIt)) rest;
      Success ((oldResType, (tuple, ctrl)) :: newValues)
  end.

Definition replaceWithInstance (resultTypes : list Ty)
  : outcome (list (Ty * (nat * nat))) :=
  replaceWithInstance_from 0 resultTypes.

(** [v[i]] on a vector or an array reference asserts that [i] is in range. *)
Definition at_index {A} (l : list A) (i : nat) : outcome A :=
  match l !! i with
  | Some a => Success a
  | None => AssertionFailure "idx < size()"
  end.

(** The [stream.reduce] operation as the pattern reads it. *)
Record ReduceOp := mkReduceOp {
  reduce_operandTypes : list Ty;
  reduce_resultType : Ty;
  reduce_initValue : Z
}.

Definition ReduceOpLowering_matchAndRewrite (op : ReduceOp) : outcome Lowered :=
  resultTypes ← convertType (reduce_resultType op);
  resultTypes0 ← at_index resultTypes 0;
  assert (isa_TupleType resultTypes0) "resultTypes[0].isa<TupleType>()";;
  resultType ← match resultTypes0 with
               | TupleType types => at_index types 0
               | _ => AssertionFailure "dyn_cast"
               end;
  assert (Ty_eqb resultType I64) "currently, only i64 buffers are supported";;
  inputTypes ← convertTypes (reduce_operandTypes op);
  let inputTypes := (inputTypes ++ [NoneType])%list in
  (* tupleIn, streamCtrl and initCtrl are arguments 0, 1 and 2 *)
  at_index inputTypes 2;;
  (* the new terminator returns tupleOut, ctrlOut and initCtrl *)
  let resTypes := [TupleType [resultType; I1]; NoneType; NoneType] in
  newValues ← replaceWithInstance [reduce_resultType op];
  Success {| unitArgTypes := inputTypes;
             unitResTypes := resTypes;
             replacedResults := newValues |}.

(** The [stream.create] operation as the pattern reads it; its result is a
    stream of its element type. *)
Record CreateOp := mkCreateOp {
  create_values : list Attribute;
  create_elementType : Ty
}.

Definition getInt (attr : Attribute) : outcome Z :=
  match attr with
  | IntegerAttr v => Success v
  | _ => AssertionFailure "attr.isa<IntegerAttr>()"
  end.

Definition CreateOpLowering_matchAndRewrite (op : CreateOp) : outcome Lowered :=
  let elementType := create_elementType op in
  assert (isa_IntegerType elementType) "elementType.isa<IntegerType>()";;
  values ← mapM getInt (rev (create_values op));
  let resTypes := [TupleType [elementType; I1]; NoneType] in
  let argTypes := [NoneType] in
  newValues ← replaceWithInstance [StreamType elementType];
  Success {| unitArgTypes := argTypes;
             unitResTypes := resTypes;
             replacedResults := newValues |}.

(** Every literal is an integer attribute. *)
Definition all_IntegerAttr (values : list Attribute) : Prop :=
  Forall (fun attr => ∃ v, attr = IntegerAttr v) values.

End Patterns.

(** ** Handshake operations on token histories

    A handshake circuit is a network of operations that exchange tokens over
    channels; an operation fires when the tokens it needs are there. A
    channel is described by its history, the list of the tokens that pass
    over it, oldest first, and an operation by the histories of its results
    as a function of the histories of its operands. The [i]-th activation of
    a unit is the [i]-th token of its results. A value with several users is
    forked: each user sees the whole history. *)

Module Handshake.

Abbreviation chan := list (only parsing).

(** [i64] wraps. *)
Definition trunc64 (z : Z) : Z := (z mod 2 ^ 64)%Z.

Section Operations.
Context {A B : Type}.

(** Modelled from the spec: [handshake::UnpackOp] of the handshake library,
    results 0 and 1 of the unpacked pair. *)
Definition UnpackOp_0 (input : chan (A * B)) : chan A := fst <$> input.
Definition UnpackOp_1 (input : chan (A * B)) : chan B := snd <$> input.

(** Modelled from the spec: [handshake::PackOp] of the handshake library; it
    waits for both components. *)
Definition PackOp (a : chan A) (b : chan B) : chan (A * B) := zip a b.

(** Modelled from the spec: [handshake::ConstantOp] of the handshake
    library, the constant-token source; it emits its value once per control
    token. *)
Definition ConstantOp (value : A) (ctrl : chan unit) : chan A :=
  (fun _ => value) <$> ctrl.

(** Modelled from the spec: [handshake::BufferOp] of the handshake library,
    the sequential buffer with initial values. The slots form a queue from
    the operand to the result; [initValues] lists the initial contents from
    the operand side, so the last initial value leaves first ("the buffer
    works in reverse"; the select register initialised to [{1, 0}] "first
    selects the tupleOut"). *)
Definition BufferOp_seq (initValues : list A) (operand : chan A) : chan A :=
  (rev initValues ++ operand)%list.

(** Modelled from the spec: [handshake::ConditionalBranchOp] of the
    handshake library, the two-way branch that selects by a boolean; it
    pairs a condition with a data token and sends the data token to one of
    its two results. *)
Record ConditionalBranchOp_results := mkCondBr {
  trueResult : chan A;
  falseResult : chan A
}.

Fixpoint ConditionalBranchOp (cond : chan bool) (data : chan A)
  : ConditionalBranchOp_results :=
  match cond, data with
  | c :: cond', d :: data' =>
      let r := ConditionalBranchOp cond' data' in
      if c
      then {| trueResult := d :: trueResult r; falseResult := falseResult r |}
      else {| trueResult := trueResult r; falseResult := d :: falseResult r |}
  | _, _ => {| trueResult := []; falseResult := [] |}
  end.

(** Modelled from the spec: [handshake::MergeOp] of the handshake library;
    it forwards whichever operand has a token. It is used on the control
    loop of [create] only, where every token of the second operand is a
    token the merge itself emitted before and sent through a buffer: the
    tokens of the first operand come first. *)
Definition MergeOp (a b : chan A) : chan A := (a ++ b)%list.

(** Modelled from the spec: [handshake::MuxOp] of the handshake library, the
    multiplexer that selects by an index; it takes a select token and then
    one token of the operand it selects; the other operands keep their
    tokens. *)
Fixpoint MuxOp (select : chan Z) (operands : list (chan A)) : chan A :=
  match select with
  | [] => []
  | s :: select' =>
      if (s <? 0)%Z then [] else
      match operands !! Z.to_nat s with
      | Some (x :: rest) => x :: MuxOp select' (<[Z.to_nat s := rest]> operands)
      | _ => []
      end
  end.

(** Modelled from the spec: [handshake::NeverOp] of the handshake library,
    the source that never emits a token. *)
Definition NeverOp : chan A := [].

(** An operand that is rebound to a value computed from the operation's
    own result ([setOperand], [replaceOp] of a placeholder) closes a cycle.
    The history on the cycle is the least solution of [h = body h]; [fuel]
    unrollings of the cycle, from the empty history, give a prefix of it. *)
Definition feedback (fuel : nat) (body : chan A -> chan A) : chan A :=
  Nat.iter fuel body [].
End Operations.

Arguments ConditionalBranchOp_results A : clear implicits.

(** Modelled from the spec: [handshake::JoinOp] of the handshake library, the
    barrier; it emits a control token once every operand has one. *)
Definition JoinOp (operands : list (chan unit)) : chan unit :=
  match operands with
  | [] => []
  | c :: rest => fold_left (zip_with (fun _ _ => tt)) rest c
  end.

(** Modelled from the spec: [arith::OrIOp] on [i1], [arith::CmpIOp eq] and
    [arith::AddIOp] on [i64], of the arithmetic dialect, token by token. *)
Definition OrIOp (a b : chan bool) : chan bool := zip_with orb a b.
Definition CmpIOp_eq (a b : chan Z) : chan bool := zip_with Z.eqb a b.
Definition AddIOp (a b : chan Z) : chan Z :=
  zip_with (fun x y => trunc64 (x + y)) a b.

End Handshake.

(** ** The regions the patterns build

    Each definition follows the [matchAndRewrite] of its pattern, one [let]
    per operation the rewriter creates. The arguments of the entry block are
    the arguments of the definition, the operands of the new terminator are
    its result. *)

Module Circuits.
Import Types Handshake.

(** The lambda of an operator, after the standard-to-handshake lowering of
    its region: the histories of the operands of its terminator (the results,
    then the control) as a function of the histories of its block arguments
    (the data, then the control). *)
Definition Lambda (T R : Type) : Type :=
  chan T -> chan unit -> chan R * chan unit.
Definition Lambda2 (T : Type) : Type :=
  chan Z -> chan T -> chan unit -> chan Z * chan unit.
Definition LambdaN (T R : Type) : Type :=
  list (chan T) -> chan unit -> list (chan R) * chan unit.

(** Modelled from the spec: the lowering of the body of a lambda is
    delegated to the standard-to-handshake conversion of the handshake
    library. The lowered lambda of a body that computes a function of its
    data arguments fires on its data, and its control argument is the
    control operand of its terminator. *)
Definition pure_lambda {T R} (f : T -> R) : Lambda T R :=
  fun data ctrl => (f <$> data, ctrl).
Definition pure_lambda2 {T} (f : Z -> T -> Z) : Lambda2 T :=
  fun acc data ctrl => (zip_with f acc data, ctrl).

(** One token of all the operands makes one token of the list of them. *)
Fixpoint zip_all {T} (operands : list (chan T)) : chan (list T) :=
  match operands with
  | [] => []
  | c :: rest =>
      match rest with
      | [] => (fun x => [x]) <$> c
      | _ :: _ => zip_with cons c (zip_all rest)
      end
  end.
Definition pure_lambdaN {T R} (g : list T -> R) : LambdaN T R :=
  fun data ctrl => ([g <$> zip_all data], ctrl).

Section Filter.
Context {T : Type}.
Variable lambda : Lambda T bool.

Definition FilterOpLowering_region
    (tupleIn : chan (T * bool)) (streamCtrl initCtrl : chan unit)
  : chan (T * bool) * chan unit * chan unit :=
  let data := UnpackOp_0 tupleIn in
  let eos := UnpackOp_1 tupleIn in
  (* mergeBlocks(lambda, entryBlock, {data, streamCtrl}) *)
  let oldTerm := lambda data streamCtrl in
  let cond := fst oldTerm in
  let ctrl := snd oldTerm in
  let tupleOut := PackOp data eos in
  let condOrEos := OrIOp cond eos in
  let dataBr := ConditionalBranchOp condOrEos tupleOut in
  (* Makes sure we only emit Ctrl when data is produced *)
  let ctrlBr := ConditionalBranchOp condOrEos ctrl in
  (trueResult dataBr, trueResult ctrlBr, initCtrl).
End Filter.

Section Reduce.
Context {T : Type}.
Variable lambda : Lambda2 T.
Variable initValue : Z.

Definition ReduceOpLowering_region (fuel : nat)
    (tupleIn : chan (T * bool)) (streamCtrl initCtrl : chan unit)
  : chan (Z * bool) * chan unit * chan unit :=
  let data := UnpackOp_0 tupleIn in
  let eos := UnpackOp_1 tupleIn in
  (* The operand of [buffer] is operand 0 of the terminator of the lambda,
     and the accumulator argument of the lambda is the false result of
     [dataBr], whose data operand is [buffer]. *)
  let buffer := feedback fuel (fun buffer =>
                  let dataBr := ConditionalBranchOp eos buffer in
                  let oldTerm := lambda (falseResult dataBr) data streamCtrl in
                  BufferOp_seq [initValue] (fst oldTerm)) in
  let dataBr := ConditionalBranchOp eos buffer in
  let eosBr := ConditionalBranchOp eos eos in
  (* mergeBlocks(lambda, entryBlock, {dataBr.falseResult(), data, streamCtrl}) *)
  let oldTerm := lambda (falseResult dataBr) data streamCtrl in
  let ctrlBr := ConditionalBranchOp eos (snd oldTerm) in
  let eosFalse := ConstantOp false (trueResult ctrlBr) in
  let tupleOutVal := PackOp (trueResult dataBr) eosFalse in
  let tupleOutEOS := PackOp (trueResult dataBr) (trueResult eosBr) in
  let bubble := ConstantOp 0%Z (trueResult ctrlBr) in
  (* First select the tupleOut, afterwards the one with the EOS signal *)
  let select := BufferOp_seq [1%Z; 0%Z] bubble in
  let tupleOut := MuxOp select [tupleOutVal; tupleOutEOS] in
  let ctrlOut := MuxOp select [trueResult ctrlBr; trueResult ctrlBr] in
  (tupleOut, ctrlOut, initCtrl).
End Reduce.

Section Create.
(** [op.values()], after [getInt]. *)
Variable op_values : list Z.

Definition CreateOpLowering_region (fuel : nat) (ctrlIn : chan unit)
  : chan (Z * bool) * chan unit :=
  let bufSize := length op_values in
  (* Only use in ctrl once *)
  let falseVal := ConstantOp false ctrlIn in
  let fst := BufferOp_seq [true] falseVal in
  let useCtrl := ConditionalBranchOp fst ctrlIn in
  (* Ctrl "looping" and selection: tmpCtrl is replaced by ctrl *)
  let ctrl := feedback fuel (fun tmpCtrl =>
                let ctrlBuf := BufferOp_seq [] tmpCtrl in
                MergeOp (trueResult useCtrl) ctrlBuf) in
  (* Data part *)
  let bubble := ConstantOp 0%Z ctrl in
  (* The buffer works in reverse *)
  let values := rev op_values in
  let dataBuf := BufferOp_seq values bubble in
  let one := ConstantOp 1%Z ctrl in
  let sizeConst := ConstantOp (trunc64 (Z.of_nat bufSize)) ctrl in
  (* cnt is initialized to 0; its operand is set to newCnt *)
  let cnt := feedback fuel (fun cnt =>
               let newCnt := AddIOp cnt one in
               BufferOp_seq [0%Z] newCnt) in
  let finished := CmpIOp_eq cnt sizeConst in
  let tupleOut := PackOp dataBuf finished in
  (tupleOut, ctrl).
End Create.

(** [buildReduceTree<Op>] *)
Definition buildReduceTree {V} (Op : V -> V -> V) (values : list V) : outcome V :=
  match values with
  | [] => AssertionFailure "values.size() > 0"
  | front :: drop_front => Success (fold_left Op drop_front front)
  end.

Section Combine.
Context {T R : Type}.
Variable lambda : LambdaN T R.

(** The entry block has a tuple and a control argument per stream operand,
    and the init control last. *)
Definition CombineOpLowering_region
    (args : list (chan (T * bool) * chan unit)) (initCtrl : chan unit)
  : outcome (list (chan (R * bool) * chan unit) * chan unit) :=
  let blockInputs := (fun a => UnpackOp_0 (fst a)) <$> args in
  let ctrlInputs := snd <$> args in
  let eosInputs := (fun a => UnpackOp_1 (fst a)) <$> args in
  (* only execute region when ALL inputs are ready *)
  let ctrlJoin := JoinOp ctrlInputs in
  let oldTerm := lambda blockInputs ctrlJoin in
  eos ← buildReduceTree OrIOp eosInputs;
  let newTermOperands :=
    (fun oldOp => (PackOp oldOp eos, snd oldTerm)) <$> fst oldTerm in
  Success (newTermOperands, initCtrl).
End Combine.

(** The activations of a unit: the [i]-th token of a result. *)
Definition activation {A} (output : chan A) (i : nat) : option A := output !! i.

End Circuits.

(** ** The units on the inputs the properties are about *)

Module Units.
Import Handshake Circuits.
Local Open Scope list_scope.

(** The history of the counter buffer after [i] activations. *)
Definition counter (i : nat) : chan Z :=
  (fun j => trunc64 (Z.of_nat j)) <$> seq 0 i.

Section Filter.
Context {T : Type}.
Variable p : T -> bool.

(** An activation passes when the predicate holds or it is the EOS. *)
Definition passes (x : T * bool) : bool := p (fst x) || snd x.

(** The unit of a [filter] with predicate [p], fed one control token per
    payload. *)
Definition filter_unit (tupleIn : chan (T * bool)) (initCtrl : chan unit)
  : chan (T * bool) * chan unit * chan unit :=
  FilterOpLowering_region (pure_lambda p) tupleIn
    (replicate (length tupleIn) tt) initCtrl.
End Filter.

Section Reduce.
Context {T : Type}.
Variable f : Z -> T -> Z.
Variable initValue : Z.

(** The values the accumulator register holds, one after the other: the
    initial value, then the results of the body. *)
Fixpoint accumulators (a : Z) (xs : list T) : list Z :=
  a :: match xs with
       | [] => []
       | x :: xs' => accumulators (f a x) xs'
       end.

(** The input: the elements [xs], none of them the EOS, then [rest]: nothing,
    or the EOS activation and whatever follows it; and one control token per
    activation. *)
Variable xs : list T.
Variable rest : chan (T * bool).

Definition tupleIn : chan (T * bool) := ((fun x => (x, false)) <$> xs) ++ rest.
Definition streamCtrl : chan unit := replicate (length tupleIn) tt.

(** One unrolling of the accumulator cycle. *)
Definition cycle (buffer : chan Z) : chan Z :=
  let dataBr := ConditionalBranchOp (UnpackOp_1 tupleIn) buffer in
  let oldTerm := pure_lambda2 f (falseResult dataBr) (UnpackOp_0 tupleIn) streamCtrl in
  BufferOp_seq [initValue] (fst oldTerm).

(** The unit of a [reduce] with the lowered body of [f] on that input. *)
Definition reduce_unit (fuel : nat) (initCtrl : chan unit)
  : chan (Z * bool) * chan unit * chan unit :=
  ReduceOpLowering_region (pure_lambda2 f) initValue fuel tupleIn streamCtrl initCtrl.
End Reduce.

(** Token [j] of every channel of a list, when all of them have one. *)
Definition joint {A} (channels : list (chan A)) (j : nat) : option (list A) :=
  mapM (fun c => c !! j) channels.

End Units.

(** ** The function and return patterns; the other stateless regions *)

Module Functions.
Import Types IR.

(** [FunctionType]: the inputs and the results of a function. *)
Record FunctionType := mkFunctionType {
  getInputs : list Ty;
  getResults : list Ty
}.

(** [FuncOpLowering::matchAndRewrite], as far as the signature goes:
    [convertSignatureArgs] converts every input and lists what it is
    converted to, in order; the entry block of the new function takes the
    converted signature as its arguments. *)
Definition FuncOpLowering_matchAndRewrite (oldFuncType : FunctionType)
  : outcome FunctionType :=
  sig ← convertTypes (getInputs oldFuncType);
  (* Add ctrl signal for initialization control flow *)
  let sig := (sig ++ [NoneType])%list in
  newResults ← convertTypes (getResults oldFuncType);
  (* Add ctrl *)
  let newResults := (newResults ++ [NoneType])%list in
  Success {| getInputs := sig; getResults := newResults |}.

(** The number of stream types of a list of types. *)
Definition count_streams (ts : list Ty) : nat :=
  length (List.filter isa_StreamType ts).

(** [ReturnOpLowering::matchAndRewrite]: the operands of the new
    [handshake::ReturnOp]. *)
Definition ReturnOpLowering_matchAndRewrite (fuel : nat) (ir : Context)
    (op : nat) (adaptorOperands : list Value) : option (outcome (list Value)) :=
  resolveNewOperands fuel ir op adaptorOperands [].

(** [SinkOpLowering::matchAndRewrite], as far as the created function goes:
    its entry block takes the converted operand types and the init control,
    and its only operation returns the init control. *)
Definition SinkOpLowering_func (name : string) (operandTypes : list Ty)
  : outcome FuncOp :=
  inputTypes ← convertTypes operandTypes;
  let inputTypes := (inputTypes ++ [NoneType])%list in
  (* Don't use the values to ensure that handshake::SinkOps will be inserted *)
  initCtrl ← match length inputTypes with
             | O => AssertionFailure "!empty()"
             | S n => Success (BlockArgument 0 n)
             end;
  Success {| funcName := name;
             funcArguments := inputTypes;
             funcBody := [mkOperation (OtherOp "handshake.return") [initCtrl] [] 0] |}.

End Functions.

Module MoreCircuits.
Import Types Handshake Circuits.
Local Open Scope list_scope.

Section Map.
Context {T R : Type}.
Variable lambda : Lambda T R.

Definition MapOpLowering_region
    (tupleIn : chan (T * bool)) (streamCtrl initCtrl : chan unit)
  : chan (R * bool) * chan unit * chan unit :=
  let data := UnpackOp_0 tupleIn in
  let eos := UnpackOp_1 tupleIn in
  (* mergeBlocks(lambda, entryBlock, {data, streamCtrl}) *)
  let oldTerm := lambda data streamCtrl in
  let tupleOut := PackOp (fst oldTerm) eos in
  (tupleOut, snd oldTerm, initCtrl).
End Map.

(** The lambda of a [split]: one data argument, several results. *)
Definition LambdaSplit (T R : Type) : Type :=
  chan T -> chan unit -> list (chan R) * chan unit.

(** Modelled from the spec: the lowered lambda of a body that computes the
    functions [fs] of its data argument, one per result; see [pure_lambda]. *)
Definition pure_lambda_split {T R} (fs : list (T -> R)) : LambdaSplit T R :=
  fun data ctrl => ((fun f => f <$> data) <$> fs, ctrl).

Section Split.
Context {T R : Type}.
Variable lambda : LambdaSplit T R.

(** The operands of the new terminator: a tuple and the control per result
    of the lambda, and the init control last. *)
Definition SplitOpLowering_region
    (tupleIn : chan (T * bool)) (streamCtrl initCtrl : chan unit)
  : list (chan (R * bool) * chan unit) * chan unit :=
  let data := UnpackOp_0 tupleIn in
  let eos := UnpackOp_1 tupleIn in
  let oldTerm := lambda data streamCtrl in
  let newTermOperands :=
    (fun oldOp => (PackOp oldOp eos, snd oldTerm)) <$> fst oldTerm in
  (newTermOperands, initCtrl).
End Split.

(** [SinkOpLowering]: the region returns its init control only. *)
Definition SinkOpLowering_region {T}
    (tupleIn : chan (T * bool)) (streamCtrl initCtrl : chan unit) : chan unit :=
  initCtrl.

(** The units of [map] and [split] with lowered pure bodies, and a stream on
    its own as it travels between units: the payloads and one control token
    per payload. *)
Definition map_unit {T R} (f : T -> R)
    (tupleIn : chan (T * bool)) (initCtrl : chan unit) :=
  MapOpLowering_region (pure_lambda f) tupleIn
    (replicate (length tupleIn) tt) initCtrl.

Definition split_unit {T R} (fs : list (T -> R))
    (tupleIn : chan (T * bool)) (initCtrl : chan unit) :=
  SplitOpLowering_region (pure_lambda_split fs) tupleIn
    (replicate (length tupleIn) tt) initCtrl.

(** A stream keeps one control token per payload. *)
Definition well_paced {A} (stream : chan A * chan unit) : Prop :=
  length (snd stream) = length (fst stream).

End MoreCircuits.

(** ** The removal of forks and sinks *)

Module Cleanup.
Import Types IR.
Local Open Scope list_scope.

(** A region: its operations in their order, each with its address. *)
Abbreviation Region := (list (nat * Operation)) (only parsing).

Definition isa_ForkOp (op : Operation) : bool :=
  match opKind op with ForkOp => true | _ => false end.
Definition isa_SinkOp (op : Operation) : bool :=
  match opKind op with SinkOp => true | _ => false end.

(** [v] is one of the [numResults] results of the operation at [addr]. *)
Definition is_result_of (addr numResults : nat) (v : Value) : bool :=
  match v with
  | OpResult owner i => Nat.eqb owner addr && Nat.ltb i numResults
  | BlockArgument _ _ => false
  end.

(** [res.replaceAllUsesWith(newValue)] for every result [res] of the
    operation at [addr], as one operation sees it. *)
Definition replaceAllUsesWith (addr numResults : nat) (newValue : Value)
    (op : Operation) : Operation :=
  {| opKind := opKind op;
     opOperands := (fun v => if is_result_of addr numResults v
                             then newValue else v) <$> opOperands op;
     opResultTypes := opResultTypes op;
     opBlock := opBlock op |}.

(** [op.erase()] *)
Definition erase (addr : nat) (r : list (nat * Operation)) : list (nat * Operation) :=
  List.filter (fun p => negb (Nat.eqb (fst p) addr)) r.

(** The operation at an address. *)
Fixpoint getOp (addr : nat) (r : list (nat * Operation)) : option Operation :=
  match r with
  | [] => None
  | (a, op) :: r' => if Nat.eqb a addr then Some op else getOp addr r'
  end.

(** The addresses of the operations of a kind, [r.getOps<Op>()]. *)
Definition getOps (isa : Operation -> bool) (r : list (nat * Operation)) : list nat :=
  fst <$> List.filter (fun p => isa (snd p)) r.

(** The second loop of [dematerializeForksAndSinks], over the fork
    operations: [forkOp.getOperand()] is read when the fork is reached. *)
Fixpoint eraseForkOps (forkOps : list nat) (r : list (nat * Operation))
  : outcome (list (nat * Operation)) :=
  match forkOps with
  | [] => Success r
  | forkOp :: rest =>
      match getOp forkOp r with
      | None => AssertionFailure "erased operation"
      | Some op =>
          operand ← Patterns.at_index (opOperands op) 0;
          let numResults := length (opResultTypes op) in
          (* a fork that feeds itself still has a use when it is erased *)
          assert (negb (is_result_of forkOp numResults operand))
            "operation destroyed but still has uses";;
          let r' := (fun p => (fst p, replaceAllUsesWith forkOp numResults operand (snd p)))
                      <$> r in
          eraseForkOps rest (erase forkOp r')
      end
  end.

Definition dematerializeForksAndSinks (r : list (nat * Operation))
  : outcome (list (nat * Operation)) :=
  let r := List.filter (fun p => negb (isa_SinkOp (snd p))) r in
  eraseForkOps (getOps isa_ForkOp r) r.

(** What of an operation no replacement of uses changes. *)
Definition shape (p : nat * Operation) : nat * OpKind * list Ty * nat :=
  (fst p, opKind (snd p), opResultTypes (snd p), opBlock (snd p)).

(** [v] is a result of one of the fork operations of [r]. *)
Definition is_fork_result (r : list (nat * Operation)) (v : Value) : bool :=
  existsb (fun p => isa_ForkOp (snd p)
                    && is_result_of (fst p) (length (opResultTypes (snd p))) v) r.

(** The addresses and the numbers of results of the forks of a region. *)
Definition fork_results_of (r : list (nat * Operation)) : list (nat * nat) :=
  (fun p => (fst p, length (opResultTypes (snd p))))
    <$> List.filter (fun p => isa_ForkOp (snd p)) r.

(** [v] is a result of one of the listed operations. *)
Definition among (forks : list (nat * nat)) (v : Value) : bool :=
  existsb (fun s => is_result_of (fst s) (snd s) v) forks.

(** An operation with [g] applied to each of its operands. *)
Definition map_operands (g : Value -> Value) (op : Operation) : Operation :=
  {| opKind := opKind op;
     opOperands := g <$> opOperands op;
     opResultTypes := opResultTypes op;
     opBlock := opBlock op |}.

(** The value a fork passes on: the operand of the fork that [v] is a result
    of, and [v] itself when it is the result of no fork. *)
Definition bypass (r : list (nat * Operation)) (v : Value) : Value :=
  match List.find (fun p => isa_ForkOp (snd p)
                            && is_result_of (fst p) (length (opResultTypes (snd p))) v) r with
  | Some p => match opOperands (snd p) with x :: _ => x | [] => v end
  | None => v
  end.

(** The forks of a region that have an operand: address, number of results
    and operand. *)
Definition fork_table (r : list (nat * Operation)) : list (nat * nat * Value) :=
  omap (fun p => if isa_ForkOp (snd p)
                 then match opOperands (snd p) with
                      | x :: _ => Some (fst p, length (opResultTypes (snd p)), x)
                      | [] => None
                      end
                 else None) r.

(** The replacements of the uses of the results of the listed forks, one
    fork after the other. *)
Definition replace_uses (s : nat * nat * Value) (v : Value) : Value :=
  if is_result_of (fst (fst s)) (snd (fst s)) v then snd s else v.

Definition replace_all (pending : list (nat * nat * Value)) (v : Value) : Value :=
  fold_left (fun v s => replace_uses s v) pending v.

(** The operations that are neither a fork nor a sink. *)
Definition is_kept (p : nat * Operation) : bool :=
  negb (isa_ForkOp (snd p)) && negb (isa_SinkOp (snd p)).

(** Every fork has an operand, and it is not the result of a fork. *)
Definition forks_fed_from_outside (r : list (nat * Operation)) : Prop :=
  ∀ p, p ∈ r -> isa_ForkOp (snd p) = true ->
       ∃ x rest, opOperands (snd p) = x :: rest ∧ is_fork_result r x = false.

(** A source, a fork of its result, a consumer of both results of the fork
    and a sink of the consumer's result. *)
Definition forked_region : list (nat * Operation) :=
  [ (1, mkOperation (OtherOp "handshake.source") [] [I32] 0);
    (2, mkOperation ForkOp [OpResult 1 0] [I32; I32] 0);
    (3, mkOperation (OtherOp "arith.addi") [OpResult 2 0; OpResult 2 1] [I32] 0);
    (4, mkOperation SinkOp [OpResult 3 0] [] 0) ].

(** The same region without the fork and the sink. *)
Definition bypassed_region : list (nat * Operation) :=
  [ (1, mkOperation (OtherOp "handshake.source") [] [I32] 0);
    (3, mkOperation (OtherOp "arith.addi") [OpResult 1 0; OpResult 1 0] [I32] 0) ].

End Cleanup.

(** ** Vocabulary of the further properties *)

Module Vocabulary.
Import Types IR.

(** The character [c] occurs in [s]. *)
Fixpoint contains_char (c : ascii) (s : string) : bool :=
  match s with
  | EmptyString => false
  | String c' s' => Ascii.eqb c' c || contains_char c s'
  end.

(** [v] is a result, of stream type, of an [UnrealizedConversionCastOp]. *)
Definition is_stream_cast_result (ir : Context) (v : Value) : bool :=
  has_type isa_StreamType ir v
  && match v with
     | OpResult op _ => isa_UnrealizedConversionCastOp (operations ir op)
     | BlockArgument _ _ => false
     end.

(** The inputs of the cast that produces [v]. *)
Definition cast_inputs (ir : Context) (v : Value) : list Value :=
  match v with
  | OpResult op _ => opOperands (operations ir op)
  | BlockArgument _ _ => []
  end.

(** The number of EOS activations of a stream. *)
Definition count_eos {T} (stream : list (T * bool)) : nat :=
  length (List.filter snd stream).

End Vocabulary.

(** * Properties *)

(** ** The names of the uniquer *)

Module UniquerFacts.
Import Uniquer.
Local Open Scope nat_scope.

Lemma formatv_inj opName i j : formatv opName i = formatv opName j -> i = j.
Proof.
  unfold formatv. intros H.
  apply String.app_inj in H. apply String.app_inj in H.
  by apply pretty_N_inj in H.
Qed.

Lemma length_append (s1 s2 : string) :
  String.length (s1 +:+ s2) = String.length s1 + String.length s2.
Proof. induction s1 as [|c s1 IH]; simpl; [done|]. by rewrite IH. Qed.

Lemma length_formatv opName i :
  String.length opName < String.length (formatv opName i).
Proof.
  unfold formatv. rewrite !length_append. simpl. lia.
Qed.

Lemma candidate_inj opName i j :
  candidate opName i = candidate opName j -> i = j.
Proof.
  unfold candidate. intros H.
  repeat case_decide; subst; try done.
  - pose proof (length_formatv opName j) as Hl. rewrite <- H in Hl. lia.
  - pose proof (length_formatv opName i) as Hl. rewrite H in Hl. lia.
  - by apply formatv_inj in H.
Qed.

(** The candidates below [j] are [j] different names: if all of them are
    used, the set of used names has at least [j] elements. *)
Lemma candidates_used_size (used : gset string) opName (j : nat) :
  (∀ i : nat, i < j -> candidate opName (N.of_nat i) ∈ used) ->
  j ≤ size used.
Proof.
  intros Hall.
  set (l := (fun i => candidate opName (N.of_nat i)) <$> seq 0 j).
  assert (NoDup l) as Hnd.
  { apply NoDup_fmap_2_strong; [|apply NoDup_seq].
    intros x y _ _ Heq. apply candidate_inj in Heq. lia. }
  assert (list_to_set l ⊆ used) as Hsub.
  { intros s Hs. apply elem_of_list_to_set in Hs.
    apply list_elem_of_fmap in Hs as (i & -> & Hi).
    apply elem_of_seq in Hi. apply Hall. lia. }
  apply subseteq_size in Hsub.
  rewrite size_list_to_set in Hsub by done.
  unfold l in Hsub. rewrite length_fmap, length_seq in Hsub. done.
Qed.

Lemma incr_small (c : N) : (c + 1 < unsigned_modulus)%N -> incr c = (c + 1)%N.
Proof. intros H. unfold incr. by apply N.mod_small. Qed.

(** The loop, started on candidate [j] with the candidates below [j] used,
    returns the first free candidate. *)
Lemma getUniqueSymName_loop_spec (used : gset string) opName :
  (N.of_nat (size used) + 1 < unsigned_modulus)%N ->
  ∀ (fuel j : nat),
    (∀ i : nat, i < j -> candidate opName (N.of_nat i) ∈ used) ->
    size used < fuel + j ->
    ∃ name, getUniqueSymName_loop fuel used opName
              (candidate opName (N.of_nat j)) (N.of_nat j + 1) = Some name
            ∧ first_free used opName name.
Proof.
  intros Hsize fuel. induction fuel as [|fuel IH]; intros j Hbelow Hfuel.
  - apply candidates_used_size in Hbelow. lia.
  - simpl. destruct (decide (candidate opName (N.of_nat j) ∈ used)) as [Hin|Hout].
    + assert (∀ i : nat, i < S j -> candidate opName (N.of_nat i) ∈ used) as Hbelow'.
      { intros i Hi. destruct (decide (i = j)) as [->|]; [done|].
        apply Hbelow. lia. }
      pose proof (candidates_used_size _ _ _ Hbelow') as Hj.
      destruct (IH (S j) Hbelow' ltac:(lia)) as (name & Hloop & Hfree).
      exists name. split; [|done].
      rewrite incr_small by lia.
      replace (N.of_nat j + 1 + 1)%N with (N.of_nat (S j) + 1)%N by lia.
      replace (formatv opName (N.of_nat j + 1))
        with (candidate opName (N.of_nat (S j))); [done|].
      unfold candidate. case_decide; [lia|]. f_equal. lia.
    + eexists. split; [done|].
      exists (N.of_nat j). repeat split; [done|].
      intros i Hi. replace i with (N.of_nat (N.to_nat i)) by lia.
      apply Hbelow. lia.
Qed.

Lemma getUniqueSymName_spec fuel (u : SymbolUniquer) op :
  (N.of_nat (size (usedNames u)) + 1 < unsigned_modulus)%N ->
  size (usedNames u) < fuel ->
  ∃ name, getUniqueSymName fuel u op = Some (name, addSymbol name u)
          ∧ first_free (usedNames u) (getBareOpName op) name.
Proof.
  intros Hsize Hfuel. unfold getUniqueSymName.
  destruct (getUniqueSymName_loop_spec (usedNames u) (getBareOpName op) Hsize
              fuel 0) as (name & Hloop & Hfree); [lia|lia|].
  change (candidate (getBareOpName op) (N.of_nat 0)) with (getBareOpName op) in Hloop.
  change (N.of_nat 0 + 1)%N with 1%N in Hloop.
  rewrite Hloop. eauto.
Qed.

Lemma size_addSymbol name (u : SymbolUniquer) :
  name ∉ usedNames u -> size (usedNames (addSymbol name u)) = S (size (usedNames u)).
Proof.
  intros Hout. simpl. rewrite size_union by set_solver.
  by rewrite size_singleton.
Qed.

Lemma getUniqueSymNames_spec fuel ops : ∀ (u : SymbolUniquer),
  (N.of_nat (size (usedNames u) + length ops) < unsigned_modulus)%N ->
  size (usedNames u) + length ops ≤ fuel ->
  ∃ names u',
    getUniqueSymNames fuel u ops = Some (names, u')
    ∧ length names = length ops
    ∧ NoDup names
    ∧ (∀ name, name ∈ names -> name ∉ usedNames u)
    ∧ usedNames u' = list_to_set names ∪ usedNames u
    ∧ chosen_in_turn (usedNames u) ops names.
Proof.
  induction ops as [|op ops IH]; intros u Hsize Hfuel.
  - exists [], u. simpl. repeat split; [constructor|set_solver|set_solver].
  - simpl in Hsize, Hfuel.
    destruct (getUniqueSymName_spec fuel u op) as (name & Hcall & Hfree);
      [lia|lia|].
    pose proof Hfree as (j & _ & Hout & _).
    destruct (IH (addSymbol name u)) as (names & u' & Hrun & Hlen & Hnd & Hnew & Hu' & Hturn).
    { rewrite size_addSymbol by done. lia. }
    { rewrite size_addSymbol by done. lia. }
    exists (name :: names), u'. simpl. rewrite Hcall, Hrun.
    repeat split.
    + simpl. by rewrite Hlen.
    + constructor; [|done]. intros Hin. apply Hnew in Hin. simpl in Hin. set_solver.
    + intros x Hx. apply elem_of_cons in Hx as [->|Hx]; [done|].
      apply Hnew in Hx. simpl in Hx. set_solver.
    + rewrite Hu'. simpl. set_solver.
    + done.
    + done.
Qed.

Lemma usedNames_addDefinitions symbols : ∀ u : SymbolUniquer,
  usedNames (addDefinitions symbols u) = list_to_set symbols ∪ usedNames u.
Proof.
  unfold addDefinitions.
  induction symbols as [|s symbols IH]; intros u; simpl.
  - set_solver.
  - rewrite IH. simpl. set_solver.
Qed.

Lemma usedNames_mk symbols : usedNames (mk symbols) = list_to_set symbols.
Proof. unfold mk. rewrite usedNames_addDefinitions. simpl. set_solver. Qed.

(** The class on its own: for successive calls on one uniquer that stays
    alive, constructed over the symbols [S] (fewer than [2^32] names in all,
    and enough fuel for the loop), the names returned are pairwise distinct
    and none is in [S]; each is the first free one among the bare name and
    its suffixes [_1], [_2], ..., and is added to the used names as soon as
    it is chosen. *)
Theorem uniquer_names_distinct_and_fresh
    (symbols ops : list string) (fuel : nat) :
  (N.of_nat (size (usedNames (mk symbols)) + length ops) < unsigned_modulus)%N ->
  size (usedNames (mk symbols)) + length ops ≤ fuel ->
  ∃ names u',
    getUniqueSymNames fuel (mk symbols) ops = Some (names, u')
    ∧ length names = length ops
    ∧ NoDup names
    ∧ (∀ name, name ∈ names -> name ∉ symbols)
    ∧ usedNames u' = list_to_set names ∪ list_to_set symbols
    ∧ chosen_in_turn (list_to_set symbols) ops names.
Proof.
  intros Hsize Hfuel.
  destruct (getUniqueSymNames_spec fuel ops (mk symbols) Hsize Hfuel)
    as (names & u' & Hrun & Hlen & Hnd & Hnew & Hu' & Hturn).
  rewrite usedNames_mk in Hnew, Hu', Hturn.
  exists names, u'. repeat split; try done.
  intros name Hin Hs. apply (Hnew name Hin). by apply elem_of_list_to_set.
Qed.

Lemma uniquer_names_distinct_and_fresh_witness :
  ∃ names u',
    getUniqueSymNames 5 (mk ["stream_map"; "main"]%string)
      ["stream.map"; "stream.filter"; "stream.map"]%string = Some (names, u')
    ∧ length names = 3
    ∧ NoDup names
    ∧ (∀ name, name ∈ names -> name ∉ ["stream_map"; "main"]%string)
    ∧ usedNames u' = list_to_set names ∪ list_to_set ["stream_map"; "main"]%string
    ∧ chosen_in_turn (list_to_set ["stream_map"; "main"]%string)
        ["stream.map"; "stream.filter"; "stream.map"]%string names.
Proof.
  apply (uniquer_names_distinct_and_fresh ["stream_map"; "main"]%string
           ["stream.map"; "stream.filter"; "stream.map"]%string 5).
  - vm_compute. reflexivity.
  - vm_compute. lia.
Defined.

Example getUniqueSymNames_example :
  fst <$> getUniqueSymNames 5 (mk ["stream_map"; "main"]%string)
            ["stream.map"; "stream.filter"; "stream.map"]%string
  = Some ["stream_map_1"; "stream_filter"; "stream_map_2"]%string.
Proof. vm_compute. reflexivity. Qed.

(** *** The uniquer as the pass reaches it *)

Section PassRun.
Import Lifetime.

(** Through a reference to an object that is alive, the calls of the
    patterns are the successive calls on that object. *)
Lemma applyPartialConversion_alive (fuel ref : nat) (ops : list string) :
  ∀ (stack : list Object) (u : SymbolUniquer),
    stack !! ref = Some (Alive u) ->
    applyPartialConversion fuel ref stack ops
    = (fun r => Returned (fst r, <[ref := Alive (snd r)]> stack))
        <$> getUniqueSymNames fuel u ops.
Proof.
  induction ops as [|op ops IH]; intros stack u Href; simpl.
  - by rewrite list_insert_id.
  - unfold getUniqueSymName_ref. rewrite Href.
    destruct (getUniqueSymName fuel u op) as [[name u']|]; [|done].
    assert (ref < length stack)%nat as Hlt by by eapply lookup_lt_Some.
    rewrite (IH _ u') by by apply list_lookup_insert_eq.
    destruct (getUniqueSymNames fuel u' ops) as [[names u'']|]; [|done].
    simpl. by rewrite list_insert_insert_eq.
Qed.

(** C9. The names are distinct and fresh for calls on one uniquer that is
    alive, but a pass run does not call such a uniquer: its patterns keep a
    reference to the by-value parameter of
    [populateStreamToHandshakePatterns], which is destroyed when that
    function returns. Whatever the symbols of the module, the first stream
    operation that is lowered calls [getUniqueSymName] on a destroyed
    object, and the program determines no name; through a reference to the
    uniquer of [runOnOperation] itself the same calls are the successive
    calls on that uniquer. So on a module with the symbol [main] and two
    [stream.map] to lower, the pass run determines no name, where the
    uniquer, alive, returns [stream_map] and [stream_map_1]. *)
Theorem pass_run_uses_destroyed_uniquer
    (fuel : nat) (symbols : list string) (op : string) (ops : list string) :
  runOnOperation fuel symbols (op :: ops) = Some UseAfterScope
  ∧ applyPartialConversion fuel 0 [Alive (mk symbols)] (op :: ops)
    = (fun r => Returned (fst r, [Alive (snd r)]))
        <$> getUniqueSymNames fuel (mk symbols) (op :: ops)
  ∧ runOnOperation 5 ["main"] ["stream.map"; "stream.map"] = Some UseAfterScope
  ∧ fst <$> getUniqueSymNames 5 (mk ["main"]) ["stream.map"; "stream.map"]
    = Some ["stream_map"; "stream_map_1"].
Proof.
  split; [reflexivity|]. split; [|split; reflexivity].
  by rewrite (applyPartialConversion_alive fuel 0 (op :: ops) _ (mk symbols)).
Qed.

End PassRun.

End UniquerFacts.

(** ** The type preconditions of [reduce] and [create] *)

Module PatternsFacts.
Import Types Patterns.

Lemma Ty_eqb_I64 (t : Ty) : Ty_eqb t I64 = true <-> t = I64.
Proof.
  unfold I64. destruct t as [w s| |l|e|n]; simpl; try (split; [discriminate|done]).
  rewrite andb_true_iff, N.eqb_eq. destruct s; simpl; split;
    intros H; try (destruct H; discriminate); try discriminate.
  - by destruct H as [-> _].
  - injection H as ->. done.
Qed.

Lemma Ty_eqb_not_I64 (t : Ty) : t ≠ I64 -> Ty_eqb t I64 = false.
Proof.
  intros Hne. destruct (Ty_eqb t I64) eqn:E; [|done].
  by apply Ty_eqb_I64 in E.
Qed.

Lemma isa_StreamType_inv (t : Ty) :
  isa_StreamType t = true -> ∃ e, t = StreamType e.
Proof. destruct t; simpl; try discriminate. eauto. Qed.

Lemma mapM_getInt_success (values : list Attribute) :
  all_IntegerAttr values -> ∃ ints, mapM getInt values = Success ints.
Proof.
  induction 1 as [|attr values [v ->] _ [ints IH]]; simpl.
  - by eexists.
  - rewrite IH. by eexists.
Qed.

(** C8. A [reduce] whose accumulator type is not [i64] and a [create] whose
    element type is not an integer type run into an assertion, which aborts
    the process; with [i64], or an integer element type, the patterns get
    past that assertion, and they succeed when [reduce] has one stream
    operand and the literals of [create] are integer attributes. *)
Theorem unsupported_types_abort :
  (∀ (op : ReduceOp) (T : Ty),
      reduce_resultType op = StreamType T -> T ≠ I64 ->
      ReduceOpLowering_matchAndRewrite op
      = AssertionFailure "currently, only i64 buffers are supported")
  ∧ (∀ op : CreateOp,
      isa_IntegerType (create_elementType op) = false ->
      CreateOpLowering_matchAndRewrite op
      = AssertionFailure "elementType.isa<IntegerType>()")
  ∧ (∀ (op : ReduceOp) (U : Ty),
      reduce_resultType op = StreamType I64 ->
      reduce_operandTypes op = [StreamType U] ->
      ∃ l, ReduceOpLowering_matchAndRewrite op = Success l)
  ∧ (∀ op : CreateOp,
      isa_IntegerType (create_elementType op) = true ->
      all_IntegerAttr (create_values op) ->
      ∃ l, CreateOpLowering_matchAndRewrite op = Success l).
Proof.
  repeat split.
  - intros [operandTypes resultType initValue] T. simpl. intros -> Hne.
    unfold ReduceOpLowering_matchAndRewrite. simpl.
    by rewrite (Ty_eqb_not_I64 T Hne).
  - intros [values elementType]. simpl. intros Hty.
    unfold CreateOpLowering_matchAndRewrite. simpl. by rewrite Hty.
  - intros [operandTypes resultType initValue] U. simpl. intros -> ->.
    by eexists.
  - intros [values elementType]. simpl. intros Hty Hvalues.
    unfold CreateOpLowering_matchAndRewrite. simpl. rewrite Hty. simpl.
    destruct (mapM_getInt_success (rev values)) as [ints Hints].
    { by apply Forall_rev. }
    rewrite Hints. by eexists.
Qed.

Lemma unsupported_types_abort_witness :
  ReduceOpLowering_matchAndRewrite
    {| reduce_operandTypes := [StreamType I64];
       reduce_resultType := StreamType I32;
       reduce_initValue := 0 |}
  = AssertionFailure "currently, only i64 buffers are supported"
  ∧ CreateOpLowering_matchAndRewrite
      {| create_values := [IntegerAttr 5];
         create_elementType := OtherType "f32" |}
    = AssertionFailure "elementType.isa<IntegerType>()"
  ∧ (∃ l, ReduceOpLowering_matchAndRewrite
            {| reduce_operandTypes := [StreamType I32];
               reduce_resultType := StreamType I64;
               reduce_initValue := 0 |} = Success l)
  ∧ (∃ l, CreateOpLowering_matchAndRewrite
            {| create_values := [IntegerAttr 5; IntegerAttr 6; IntegerAttr 7];
               create_elementType := I32 |} = Success l).
Proof.
  destruct unsupported_types_abort as (Hreduce & Hcreate & HreduceOk & HcreateOk).
  split; [|split; [|split]].
  - apply (Hreduce _ I32); [reflexivity|discriminate].
  - apply Hcreate. reflexivity.
  - apply (HreduceOk _ I32); reflexivity.
  - apply HcreateOk; [reflexivity|].
    repeat constructor; eexists; reflexivity.
Defined.

(** C6, as the specification has it, fails: a [reduce] whose result type is
    the scalar [i64] is not replaced; the pattern stops at its first
    assertion. *)
Lemma reduce_scalar_result_not_lowered :
  ReduceOpLowering_matchAndRewrite
    {| reduce_operandTypes := [StreamType I64];
       reduce_resultType := I64;
       reduce_initValue := 0 |}
  = AssertionFailure "resultTypes[0].isa<TupleType>()"
  ∧ ¬ ∃ l, ReduceOpLowering_matchAndRewrite
             {| reduce_operandTypes := [StreamType I64];
                reduce_resultType := I64;
                reduce_initValue := 0 |} = Success l.
Proof. split; [reflexivity|]. intros [l Hl]. discriminate Hl. Qed.

(** C6, amended. When the [reduce] pattern succeeds, the result type of the
    replaced operation is a stream, of [i64]; the unit returns a tuple of an
    [i64] and the EOS flag, and two controls, and the first two results of
    the instance are cast back to the stream type. *)
Theorem reduce_result_is_stream (op : ReduceOp) (l : Lowered) :
  ReduceOpLowering_matchAndRewrite op = Success l ->
  reduce_resultType op = StreamType I64
  ∧ unitResTypes l = [TupleType [I64; I1]; NoneType; NoneType]
  ∧ replacedResults l = [(StreamType I64, (0, 1))].
Proof.
  destruct op as [operandTypes resultType initValue].
  unfold ReduceOpLowering_matchAndRewrite. simpl.
  destruct resultType as [w s| |types|e|n]; simpl; try discriminate.
  - (* a tuple that is not a stream passes the first assertions and fails
       in replaceWithInstance *)
    destruct types as [|t types]; simpl; [discriminate|].
    destruct (Ty_eqb t I64); simpl; [|discriminate].
    destruct (convertTypes operandTypes) as [inputTypes| |]; simpl; try discriminate.
    destruct (at_index _ 2); simpl; discriminate.
  - destruct (Ty_eqb e I64) eqn:He; simpl; [|discriminate].
    apply Ty_eqb_I64 in He as ->.
    destruct (convertTypes operandTypes) as [inputTypes| |]; simpl; try discriminate.
    destruct (at_index _ 2); simpl; try discriminate.
    intros [= <-]. done.
Qed.

Lemma reduce_result_is_stream_witness :
  reduce_resultType {| reduce_operandTypes := [StreamType I32];
                       reduce_resultType := StreamType I64;
                       reduce_initValue := 0 |} = StreamType I64
  ∧ unitResTypes {| unitArgTypes := [TupleType [I32; I1]; NoneType; NoneType];
                    unitResTypes := [TupleType [I64; I1]; NoneType; NoneType];
                    replacedResults := [(StreamType I64, (0, 1))] |}
    = [TupleType [I64; I1]; NoneType; NoneType]
  ∧ replacedResults {| unitArgTypes := [TupleType [I32; I1]; NoneType; NoneType];
                       unitResTypes := [TupleType [I64; I1]; NoneType; NoneType];
                       replacedResults := [(StreamType I64, (0, 1))] |}
    = [(StreamType I64, (0, 1))].
Proof.
  apply (reduce_result_is_stream
           {| reduce_operandTypes := [StreamType I32];
              reduce_resultType := StreamType I64;
              reduce_initValue := 0 |}).
  reflexivity.
Defined.

End PatternsFacts.

(** ** Control-token resolution *)

Module CtrlSignalFacts.
Import Types IR.
Local Open Scope nat_scope.

Lemma getCtrlSignal_success_stops (ir : Context) (fuel : nat) :
  ∀ (operands : list Value) (r : outcome Value),
    getCtrlSignal fuel ir operands = Some r ->
    (∃ v, walk_stops_at ir operands v ∧ r = ctrl_of_stop ir v)
    ∨ (walk_runs_dry ir operands ∧ r = AssertionFailure "operands.size() > 0").
Proof.
  induction fuel as [|fuel IH]; intros operands r; simpl; [discriminate|].
  destruct operands as [|[owner i|op i] rest].
  - intros [= <-]. right. split; [constructor|done].
  - intros [= <-]. left. eexists. split; [constructor|done].
  - destruct (isa_InstanceOp (operations ir op)) eqn:Hinst.
    + intros [= <-]. left. eexists. split; [by constructor|done].
    + intros Hrec. apply IH in Hrec as [(v & Hwalk & ->)|[Hdry ->]].
      * left. exists v. split; [by constructor|done].
      * right. split; [by constructor|done].
Qed.

Lemma getCtrlSignal_fuel_mono (ir : Context) (fuel : nat) :
  ∀ (operands : list Value) (r : outcome Value) (fuel' : nat),
    getCtrlSignal fuel ir operands = Some r -> fuel ≤ fuel' ->
    getCtrlSignal fuel' ir operands = Some r.
Proof.
  induction fuel as [|fuel IH]; intros operands r fuel'; simpl; [discriminate|].
  intros Hrun Hle. destruct fuel' as [|fuel']; [lia|]. simpl.
  destruct operands as [|[owner i|op i] rest]; try done.
  destruct (isa_InstanceOp (operations ir op)); [done|].
  apply IH; [done|lia].
Qed.

Lemma walk_stops_at_returns (ir : Context) (operands : list Value) (v : Value) :
  walk_stops_at ir operands v ->
  ∃ fuel, getCtrlSignal fuel ir operands = Some (ctrl_of_stop ir v).
Proof.
  induction 1 as [owner i rest|op i rest Hinst|op i rest v Hinst _ [fuel IH]].
  - by exists 1.
  - exists 1. simpl. by rewrite Hinst.
  - exists (S fuel). simpl. by rewrite Hinst.
Qed.

Lemma walk_runs_dry_asserts (ir : Context) (operands : list Value) :
  walk_runs_dry ir operands ->
  ∃ fuel, getCtrlSignal fuel ir operands
          = Some (AssertionFailure "operands.size() > 0").
Proof.
  induction 1 as [|op i rest Hinst _ [fuel IH]].
  - by exists 1.
  - exists (S fuel). simpl. by rewrite Hinst.
Qed.

(** C10. Control-token resolution is partial. When [getCtrlSignal] returns a
    control token, the backward walk over first operands has stopped at a
    block argument or at a result of an [InstanceOp], and the token is the
    last argument of that block or the last result of that instance; every
    walk that stops there returns, with enough fuel. A walk that runs into a
    producer without operands fails the assertion [operands.size() > 0].
    With no operands at all, [resolveNewOperands] does not call
    [getCtrlSignal]: it takes the last argument of the enclosing block. *)
Theorem getCtrlSignal_partial (ir : Context) :
  (∀ (fuel : nat) (operands : list Value) (ctrl : Value),
      getCtrlSignal fuel ir operands = Some (Success ctrl) ->
      ∃ v, walk_stops_at ir operands v ∧ ctrl_of_stop ir v = Success ctrl)
  ∧ (∀ (operands : list Value) (v : Value),
      walk_stops_at ir operands v ->
      ∃ fuel, ∀ fuel', fuel ≤ fuel' ->
        getCtrlSignal fuel' ir operands = Some (ctrl_of_stop ir v))
  ∧ (∀ operands : list Value,
      walk_runs_dry ir operands ->
      ∃ fuel, ∀ fuel', fuel ≤ fuel' ->
        getCtrlSignal fuel' ir operands
        = Some (AssertionFailure "operands.size() > 0"))
  ∧ (∀ (fuel : nat) (oldOperation : nat) (newOperands : list Value),
      resolveNewOperands fuel ir oldOperation [] newOperands
      = Some (ctrl ← getArguments_back ir (opBlock (operations ir oldOperation));
              Success (newOperands ++ [ctrl])%list)).
Proof.
  repeat split.
  - intros fuel operands ctrl Hrun.
    apply getCtrlSignal_success_stops in Hrun as [(v & Hwalk & Heq)|[_ Heq]];
      [|discriminate]. eauto.
  - intros operands v Hwalk.
    destruct (walk_stops_at_returns ir operands v Hwalk) as [fuel Hrun].
    exists fuel. intros fuel' Hle. by eapply getCtrlSignal_fuel_mono.
  - intros operands Hdry.
    destruct (walk_runs_dry_asserts ir operands Hdry) as [fuel Hrun].
    exists fuel. intros fuel' Hle. by eapply getCtrlSignal_fuel_mono.
  - intros fuel oldOperation newOperands. unfold resolveNewOperands.
    by rewrite zip_with_nil_r.
Qed.

Example getCtrlSignal_through_cast :
  getCtrlSignal 2 example_ir [OpResult 2 0] = Some (Success (OpResult 1 2)).
Proof. reflexivity. Qed.

Example getCtrlSignal_constant :
  getCtrlSignal 3 example_ir [OpResult 4 0]
  = Some (AssertionFailure "operands.size() > 0").
Proof. reflexivity. Qed.

(** On a use-def cycle the walk does not return, whatever the fuel. *)
Lemma getCtrlSignal_cycle (fuel : nat) :
  (∀ rest, getCtrlSignal fuel cyclic_ir (OpResult 6 0 :: rest) = None)
  ∧ (∀ rest, getCtrlSignal fuel cyclic_ir (OpResult 7 0 :: rest) = None).
Proof.
  induction fuel as [|fuel [IH6 IH7]]; [done|].
  split; intros rest; [exact (IH7 [])|exact (IH6 [OpResult 8 0])].
Qed.

Lemma getCtrlSignal_partial_witness :
  (∃ v, walk_stops_at example_ir [OpResult 2 0] v
        ∧ ctrl_of_stop example_ir v = Success (OpResult 1 2))
  ∧ (∃ fuel, ∀ fuel', fuel ≤ fuel' ->
        getCtrlSignal fuel' example_ir [OpResult 2 0]
        = Some (ctrl_of_stop example_ir (OpResult 1 0)))
  ∧ (∃ fuel, ∀ fuel', fuel ≤ fuel' ->
        getCtrlSignal fuel' example_ir [OpResult 4 0]
        = Some (AssertionFailure "operands.size() > 0"))
  ∧ resolveNewOperands 0 example_ir 5 [] []
    = Some (Success [BlockArgument 0 2]).
Proof.
  destruct (getCtrlSignal_partial example_ir) as (Honly & Hstops & Hdry & Hempty).
  split; [|split; [|split]].
  - apply (Honly 2). reflexivity.
  - apply Hstops. apply stops_at_step; [reflexivity|].
    apply stops_at_instance. reflexivity.
  - apply Hdry. apply dry_step; [reflexivity|].
    apply dry_step; [reflexivity|]. apply dry_here.
  - apply Hempty.
Defined.

End CtrlSignalFacts.

(** ** Fork and sink materialization *)

Module MaterializeFacts.
Import Types IR.
Local Open Scope nat_scope.

Lemma verifyAllValuesHasOneUse_spec (f : FuncOp) :
  verifyAllValuesHasOneUse f = Some tt <-> AllValuesHaveOneUse f.
Proof.
  unfold verifyAllValuesHasOneUse, AllValuesHaveOneUse.
  destruct (forallb _ _) eqn:Hall.
  - split; [|done]. intros _ v Hv.
    rewrite forallb_forall in Hall.
    apply Nat.eqb_eq, Hall. by apply list_elem_of_In.
  - split; [discriminate|]. intros Hone. exfalso.
    assert (forallb (fun v => numUses f v =? 1) (valuesOf f) = true) as Htrue.
    { apply forallb_forall. intros v Hv. apply Nat.eqb_eq, Hone.
      by apply list_elem_of_In. }
    congruence.
Qed.

Section Materialize.
Variable addForkOps : FuncOp -> option FuncOp.
Variable addSinkOps : FuncOp -> option FuncOp.
Local Abbreviation inserted := (IR.inserted addForkOps addSinkOps).

Lemma materializeFuncOp_Some (funcOp f2 : FuncOp) :
  materializeFuncOp addForkOps addSinkOps funcOp = Some f2 <->
  inserted funcOp f2 ∧ AllValuesHaveOneUse f2.
Proof.
  unfold materializeFuncOp, inserted.
  destruct (addForkOps funcOp) as [f1|] eqn:Hfork; simpl.
  2: { split; [discriminate|]. by intros [(f1' & [=] & _) _]. }
  destruct (addSinkOps f1) as [f2'|] eqn:Hsink; simpl.
  2: { split; [discriminate|]. intros [(f1' & [= <-] & Hsink') _]. congruence. }
  destruct (verifyAllValuesHasOneUse f2') as [[]|] eqn:Hverify; simpl.
  - apply verifyAllValuesHasOneUse_spec in Hverify. split.
    + intros [= <-]. eauto.
    + intros [(f1' & [= <-] & Hsink') _]. congruence.
  - split; [discriminate|]. intros [(f1' & [= <-] & Hsink') Hone].
    apply verifyAllValuesHasOneUse_spec in Hone. congruence.
Qed.

Lemma materializeForksAndSinks_Some (m : list FuncOp) : ∀ m' : list FuncOp,
  materializeForksAndSinks addForkOps addSinkOps m = Some m' ->
  Forall2 inserted m m' ∧ Forall AllValuesHaveOneUse m'.
Proof.
  induction m as [|funcOp m IH]; intros m'; simpl.
  - intros [= <-]. split; constructor.
  - destruct (materializeFuncOp _ _ funcOp) as [f|] eqn:Hf; simpl; [|discriminate].
    destruct (materializeForksAndSinks _ _ m) as [rest|]; simpl; [|discriminate].
    intros [= <-]. apply materializeFuncOp_Some in Hf as [Hins Hone].
    destruct (IH rest eq_refl) as [Hall2 Hall].
    split; by constructor.
Qed.

Lemma materializeForksAndSinks_None (m : list FuncOp) (funcOp f2 : FuncOp) :
  funcOp ∈ m -> inserted funcOp f2 -> ¬ AllValuesHaveOneUse f2 ->
  materializeForksAndSinks addForkOps addSinkOps m = None.
Proof.
  intros Hin Hins Hnot.
  destruct (materializeForksAndSinks _ _ m) as [m'|] eqn:Hrun; [|done].
  exfalso. apply materializeForksAndSinks_Some in Hrun as [Hall2 Hall].
  apply list_elem_of_lookup in Hin as [i Hi].
  destruct (Forall2_lookup_l _ _ _ _ _ Hall2 Hi) as (f2' & Hi' & Hins').
  destruct Hins as (f1 & Hfork & Hsink), Hins' as (f1' & Hfork' & Hsink').
  assert (f2' = f2) as -> by congruence.
  apply Hnot. by eapply Forall_lookup_1 in Hall.
Qed.
End Materialize.

(** *** The insertions *)

Local Open Scope list_scope.
Implicit Types (v w x : Value) (f : FuncOp) (op : Operation) (body : list Operation).

(** *** The values of a function *)

Lemma elem_of_resultsOf v (k : nat) op :
  v ∈ resultsOf k op <-> ∃ i, v = OpResult k i ∧ i < length (opResultTypes op).
Proof.
  unfold resultsOf. rewrite list_elem_of_In, in_map_iff. split.
  - intros (i & <- & Hi%in_seq). exists i. split; [done|lia].
  - intros (i & -> & Hi). exists i. split; [done|]. apply in_seq. lia.
Qed.

Lemma elem_of_results v body (k : nat) :
  v ∈ List.concat (imap (fun i => resultsOf (k + i)) body)
  <-> ∃ p i op, v = OpResult (k + p) i ∧ body !! p = Some op
                ∧ i < length (opResultTypes op).
Proof.
  rewrite list_elem_of_In, in_concat. split.
  - intros (l & Hl & Hv). apply list_elem_of_In, elem_of_lookup_imap in Hl
      as (p & op & -> & Hp).
    apply list_elem_of_In, elem_of_resultsOf in Hv as (i & -> & Hi). eauto 6.
  - intros (p & i & op & -> & Hp & Hi). exists (resultsOf (k + p) op). split.
    + apply list_elem_of_In, elem_of_lookup_imap. eauto.
    + apply list_elem_of_In, elem_of_resultsOf. eauto.
Qed.

Lemma elem_of_valuesOf v f :
  v ∈ valuesOf f <->
  match v with
  | OpResult k i => ∃ op, funcBody f !! k = Some op ∧ i < length (opResultTypes op)
  | BlockArgument b i => b = 0 ∧ i < length (funcArguments f)
  end.
Proof.
  unfold valuesOf. rewrite elem_of_app.
  rewrite (elem_of_results v (funcBody f) 0). split.
  - intros [(p & i & op & -> & Hp & Hi)|Harg]; simpl.
    + eauto.
    + apply list_elem_of_In, in_map_iff in Harg as (i & <- & Hi%in_seq).
      split; [done|lia].
  - destruct v as [b i|k i].
    + intros [-> Hi]. right. apply list_elem_of_In, in_map_iff.
      exists i. split; [done|]. apply in_seq. lia.
    + intros (op & Hk & Hi). left. exists k, i, op. eauto.
Qed.

Lemma NoDup_resultsOf (k : nat) op : NoDup (resultsOf k op).
Proof.
  unfold resultsOf. apply (NoDup_fmap_2_strong (OpResult k)); [|apply NoDup_seq].
  by intros i j _ _ [=].
Qed.

Lemma NoDup_results body : ∀ k : nat,
  NoDup (List.concat (imap (fun i => resultsOf (k + i)) body)).
Proof.
  induction body as [|op body IH]; intros k; simpl; [constructor|].
  apply NoDup_app. split; [apply NoDup_resultsOf|]. split.
  - intros v Hv Hrest. apply elem_of_resultsOf in Hv as (i & -> & _).
    rewrite (imap_ext _ (fun i => resultsOf (S k + i))) in Hrest.
    2: { intros p x _. simpl. f_equal. lia. }
    apply elem_of_results in Hrest as (p & i' & op' & [= Hk _] & _). lia.
  - rewrite (imap_ext _ (fun i => resultsOf (S k + i))); [apply IH|].
    intros p x _. simpl. f_equal. lia.
Qed.

Lemma NoDup_valuesOf f : NoDup (valuesOf f).
Proof.
  unfold valuesOf. apply NoDup_app. split; [apply (NoDup_results _ 0)|]. split.
  - intros v Hv Harg. apply (elem_of_results v _ 0) in Hv as (p & i & op & -> & _).
    apply list_elem_of_In, in_map_iff in Harg as (j & [=] & _).
  - apply (NoDup_fmap_2_strong (BlockArgument 0)); [|apply NoDup_seq].
    by intros i j _ _ [=].
Qed.

(** *** The replacement of the uses of a value *)

Lemma replaceUses_app v (fork : nat) (l1 l2 : list Value) : ∀ j : nat,
  replaceUses v fork j (l1 ++ l2)
  = replaceUses v fork j l1
    ++ replaceUses v fork (j + count_occ Value_eq_dec l1 v) l2.
Proof.
  induction l1 as [|x l1 IH]; intros j; cbn [replaceUses count_occ app].
  - by rewrite Nat.add_0_r.
  - destruct (Value_eq_dec x v); cbn [app]; rewrite IH; [|done].
    do 3 f_equal. lia.
Qed.

Lemma operands_replaceUsesIn v (fork : nat) body : ∀ j : nat,
  List.concat (map opOperands (replaceUsesIn v fork j body))
  = replaceUses v fork j (List.concat (map opOperands body)).
Proof.
  induction body as [|op body IH]; intros j; [done|].
  cbn [replaceUsesIn map List.concat setOperands opOperands].
  by rewrite replaceUses_app, IH.
Qed.

Lemma count_occ_replaceUses_other v w (fork : nat) (l : list Value) : ∀ j : nat,
  w ≠ v -> (∀ i, w ≠ OpResult fork i) ->
  count_occ Value_eq_dec (replaceUses v fork j l) w = count_occ Value_eq_dec l w.
Proof.
  intros j Hv Hfork. revert j.
  induction l as [|x l IH]; intros j; [done|]. cbn [replaceUses].
  destruct (Value_eq_dec x v) as [->|Hx].
  - rewrite !count_occ_cons_neq; [apply IH|congruence|].
    intros Heq. by apply (Hfork j).
  - destruct (Value_eq_dec x w) as [->|Hw].
    + rewrite !count_occ_cons_eq by done. by rewrite IH.
    + rewrite !count_occ_cons_neq by done. apply IH.
Qed.

Lemma count_occ_replaceUses_self v (fork : nat) (l : list Value) : ∀ j : nat,
  (∀ i, v ≠ OpResult fork i) ->
  count_occ Value_eq_dec (replaceUses v fork j l) v = 0.
Proof.
  intros j Hfork. revert j.
  induction l as [|x l IH]; intros j; [done|]. cbn [replaceUses].
  destruct (Value_eq_dec x v) as [->|Hx].
  - rewrite count_occ_cons_neq; [apply IH|]. intros Heq. by apply (Hfork j).
  - rewrite count_occ_cons_neq by done. apply IH.
Qed.

Lemma count_occ_replaceUses_result v (fork i : nat) (l : list Value) : ∀ j : nat,
  (∀ i', v ≠ OpResult fork i') ->
  (∀ i', OpResult fork i' ∉ l) ->
  count_occ Value_eq_dec (replaceUses v fork j l) (OpResult fork i)
  = if (j <=? i) && (i <? j + count_occ Value_eq_dec l v) then 1 else 0.
Proof.
  intros j Hv Hfresh. revert j.
  induction l as [|x l IH]; intros j.
  - cbn [replaceUses count_occ]. rewrite Nat.add_0_r.
    destruct (Nat.leb_spec j i), (Nat.ltb_spec i j); simpl; lia.
  - assert (∀ i', OpResult fork i' ∉ l) as Hfresh'.
    { intros i' Hin. apply (Hfresh i'). by right. }
    specialize (IH Hfresh'). cbn [replaceUses].
    destruct (Value_eq_dec x v) as [->|Hx].
    + rewrite (count_occ_cons_eq _ l (eq_refl v)).
      destruct (decide (j = i)) as [->|Hne].
      * rewrite count_occ_cons_eq by done. rewrite IH.
        destruct (Nat.leb_spec (S i) i), (Nat.ltb_spec i (S i + count_occ Value_eq_dec l v)),
          (Nat.leb_spec i i), (Nat.ltb_spec i (i + S (count_occ Value_eq_dec l v)));
          simpl; lia.
      * rewrite count_occ_cons_neq by congruence. rewrite IH.
        destruct (Nat.leb_spec (S j) i), (Nat.ltb_spec i (S j + count_occ Value_eq_dec l v)),
          (Nat.leb_spec j i), (Nat.ltb_spec i (j + S (count_occ Value_eq_dec l v)));
          simpl; lia.
    + rewrite (count_occ_cons_neq _ l Hx).
      rewrite count_occ_cons_neq; [apply IH|].
      intros ->. apply (Hfresh i). by left.
Qed.

Lemma elem_of_replaceUses v x (fork : nat) (l : list Value) : ∀ j : nat,
  x ∈ replaceUses v fork j l ->
  (x ∈ l ∧ x ≠ v)
  ∨ ∃ i, x = OpResult fork i ∧ j ≤ i < j + count_occ Value_eq_dec l v.
Proof.
  induction l as [|y l IH]; intros j; cbn [replaceUses count_occ].
  - by intros ?%elem_of_nil.
  - destruct (Value_eq_dec y v) as [->|Hy]; intros [->|Hin]%elem_of_cons.
    + right. exists j. split; [done|lia].
    + destruct (IH _ Hin) as [[? ?]|(i & -> & ?)].
      * left. split; [by right|done].
      * right. exists i. split; [done|lia].
    + left. split; [by left|done].
    + destruct (IH _ Hin) as [[? ?]|(i & -> & ?)].
      * left. split; [by right|done].
      * right. exists i. split; [done|lia].
Qed.

Lemma replaceUses_unused v (fork : nat) (l : list Value) : ∀ j : nat,
  v ∉ l -> replaceUses v fork j l = l.
Proof.
  induction l as [|y l IH]; intros j Hv; cbn [replaceUses]; [done|].
  destruct (Value_eq_dec y v) as [->|_].
  - destruct Hv. by left.
  - rewrite IH; [done|]. intros Hin. apply Hv. by right.
Qed.

Lemma elem_of_operands x body :
  x ∈ List.concat (map opOperands body) <-> ∃ op, op ∈ body ∧ x ∈ opOperands op.
Proof.
  rewrite list_elem_of_In, in_concat. split.
  - intros (l & (op & <- & Hop)%in_map_iff & Hx).
    exists op. by rewrite !list_elem_of_In.
  - intros (op & Hop & Hx). exists (opOperands op). split.
    + apply in_map_iff. exists op. split; [done|]. by apply list_elem_of_In.
    + by apply list_elem_of_In.
Qed.

Lemma setOperands_same op : setOperands (opOperands op) op = op.
Proof. by destruct op. Qed.

Lemma length_replaceUsesIn v (fork : nat) body : ∀ j : nat,
  length (replaceUsesIn v fork j body) = length body.
Proof. induction body as [|op body IH]; intros j; simpl; [done|]. by rewrite IH. Qed.

Lemma lookup_replaceUsesIn v (fork : nat) body : ∀ j p : nat,
  ∃ j', replaceUsesIn v fork j body !! p
        = (fun op => setOperands (replaceUses v fork j' (opOperands op)) op)
            <$> body !! p.
Proof.
  induction body as [|op body IH]; intros j p.
  - by exists j.
  - destruct p as [|p]; [by exists j|]. apply IH.
Qed.

Section InsertFork.
Variables (f : FuncOp) (v : Value).
Hypothesis Hv : v ∈ valuesOf f.
Local Abbreviation fork := (length (funcBody f)).

Lemma value_is_not_new (w : Value) (i : nat) : w ∈ valuesOf f -> w ≠ OpResult fork i.
Proof.
  intros Hw ->. apply elem_of_valuesOf in Hw as (op & Hop & _).
  apply lookup_lt_Some in Hop. lia.
Qed.

Lemma numUses_insertFork w :
  numUses (insertFork v f) w
  = count_occ Value_eq_dec
      (replaceUses v fork 0 (List.concat (map opOperands (funcBody f)))) w
    + (if Value_eq_dec v w then 1 else 0).
Proof.
  unfold numUses, insertFork. cbn [funcBody].
  rewrite map_app, concat_app, count_occ_app, operands_replaceUsesIn.
  by f_equal.
Qed.

Lemma numUses_insertFork_self : numUses (insertFork v f) v = 1.
Proof.
  rewrite numUses_insertFork, count_occ_replaceUses_self.
  - by destruct (Value_eq_dec v v).
  - intros i. by apply value_is_not_new.
Qed.

Lemma numUses_insertFork_other w :
  w ∈ valuesOf f -> w ≠ v -> numUses (insertFork v f) w = numUses f w.
Proof.
  intros Hw Hne. rewrite numUses_insertFork, count_occ_replaceUses_other.
  - destruct (Value_eq_dec v w); [congruence|]. unfold numUses. lia.
  - done.
  - intros i. by apply value_is_not_new.
Qed.

Lemma numUses_insertFork_result (i : nat) :
  well_formed f -> i < numUses f v ->
  numUses (insertFork v f) (OpResult fork i) = 1.
Proof.
  intros Hwf Hi. rewrite numUses_insertFork, count_occ_replaceUses_result.
  - destruct (Value_eq_dec v (OpResult fork i)) as [Heq|_].
    + by destruct (value_is_not_new v i Hv).
    + unfold numUses in Hi.
      destruct (Nat.leb_spec 0 i), (Nat.ltb_spec i (0 + count_occ Value_eq_dec
        (List.concat (map opOperands (funcBody f))) v)); simpl; lia.
  - intros i'. by apply value_is_not_new.
  - intros i' (op & Hop & Hin)%elem_of_operands.
    by apply (value_is_not_new _ i' (Hwf op _ Hop Hin)).
Qed.

Lemma elem_of_valuesOf_insertFork w :
  w ∈ valuesOf (insertFork v f)
  <-> w ∈ valuesOf f ∨ ∃ i, w = OpResult fork i ∧ i < numUses f v.
Proof.
  rewrite !elem_of_valuesOf. destruct w as [b i|k i]; cbn [insertFork funcArguments funcBody].
  - split; [by left|]. by intros [?|(? & [=] & _)].
  - destruct (lookup_replaceUsesIn v fork (funcBody f) 0 k) as [j' Hk].
    split.
    + intros (op & Hop & Hi). apply lookup_app_Some in Hop as [Hop|[Hlen Hop]].
      * rewrite Hk in Hop. destruct (funcBody f !! k) as [op0|]; [|done].
        injection Hop as <-. left. by exists op0.
      * rewrite length_replaceUsesIn in Hlen, Hop.
        destruct (k - fork) as [|?] eqn:Hkf; [|done]. injection Hop as <-.
        simpl in Hi. rewrite length_replicate in Hi.
        right. exists i. split; [f_equal; lia|done].
    + intros [(op & Hop & Hi)|(i' & [= -> ->] & Hi)].
      * exists (setOperands (replaceUses v fork j' (opOperands op)) op).
        split; [|done]. apply lookup_app_l_Some. by rewrite Hk, Hop.
      * eexists. split.
        -- rewrite lookup_app_r by by rewrite length_replaceUsesIn.
           by rewrite length_replaceUsesIn, Nat.sub_diag.
        -- simpl. by rewrite length_replicate.
Qed.

Lemma valuesOf_insertFork_old w : w ∈ valuesOf f -> w ∈ valuesOf (insertFork v f).
Proof. intros Hw. apply elem_of_valuesOf_insertFork. by left. Qed.

Lemma well_formed_insertFork : well_formed f -> well_formed (insertFork v f).
Proof.
  intros Hwf op x Hop Hx.
  assert (x ∈ List.concat (map opOperands (funcBody (insertFork v f)))) as Hin.
  { apply elem_of_operands. eauto. }
  unfold insertFork in Hin. cbn [funcBody] in Hin.
  rewrite map_app, concat_app, operands_replaceUsesIn in Hin.
  apply elem_of_app in Hin as [Hin|Hin].
  - apply elem_of_replaceUses in Hin as [[Hin _]|(i & -> & Hi)].
    + apply valuesOf_insertFork_old.
      apply elem_of_operands in Hin as (op' & Hop' & Hx'). by eapply Hwf.
    + apply elem_of_valuesOf_insertFork. right. exists i. split; [done|].
      unfold numUses. lia.
  - cbn [map List.concat opOperands app] in Hin.
    apply list_elem_of_singleton in Hin as ->. by apply valuesOf_insertFork_old.
Qed.

Lemma insertFork_fork :
  ∃ op, op ∈ funcBody (insertFork v f) ∧ fork_of v (numUses f v) op.
Proof.
  eexists. split.
  - unfold insertFork. cbn [funcBody]. apply elem_of_app. right. by left.
  - repeat split. simpl. by rewrite length_replicate.
Qed.

Lemma insertFork_keeps op :
  op ∈ funcBody f -> v ∉ opOperands op -> op ∈ funcBody (insertFork v f).
Proof.
  intros Hop Hfree. apply list_elem_of_lookup in Hop as [p Hp].
  apply list_elem_of_lookup. exists p. cbn [insertFork funcBody].
  apply lookup_app_l_Some.
  destruct (lookup_replaceUsesIn v fork (funcBody f) 0 p) as [j' ->].
  rewrite Hp. simpl. by rewrite replaceUses_unused, setOperands_same.
Qed.

Lemma insertFork_lookup (p : nat) op :
  funcBody f !! p = Some op ->
  ∃ op', funcBody (insertFork v f) !! p = Some op'
         ∧ opKind op' = opKind op ∧ opResultTypes op' = opResultTypes op.
Proof.
  intros Hp. destruct (lookup_replaceUsesIn v fork (funcBody f) 0 p) as [j' Hj].
  eexists. split.
  - cbn [insertFork funcBody]. apply lookup_app_l_Some. by rewrite Hj, Hp.
  - done.
Qed.

End InsertFork.

Lemma forkIfNeeded_spec f v :
  well_formed f -> v ∈ valuesOf f -> fork_step v f (forkIfNeeded f v).
Proof.
  intros Hwf Hv. unfold forkIfNeeded, fork_step.
  destruct (Nat.leb_spec 2 (numUses f v)) as [Hmany|Hfew].
  - split; [by apply well_formed_insertFork|].
    split; [intros w; by apply valuesOf_insertFork_old|].
    split; [by rewrite numUses_insertFork_self|].
    split; [intros w; by apply numUses_insertFork_other|].
    split; [lia|].
    split.
    { intros w [Hold|(i & -> & Hi)]%elem_of_valuesOf_insertFork Hnew; [done|].
      by apply numUses_insertFork_result. }
    split; [intros _; by apply insertFork_fork|].
    split; [intros op; by apply insertFork_keeps|].
    split; [intros p op; by apply insertFork_lookup|].
    split; [|done].
    intros p op' Hp Hlen. cbn [insertFork funcBody] in Hp.
    apply lookup_app_Some in Hp as [Hp|[_ Hp]].
    + apply lookup_lt_Some in Hp. rewrite length_replaceUsesIn in Hp. lia.
    + by apply list_elem_of_lookup_2, list_elem_of_singleton in Hp as ->.
  - repeat split; try done; try lia.
    + intros p op Hp. by exists op.
    + intros p op' Hp%lookup_lt_Some Hlen. lia.
Qed.

Lemma addForkOps_fold : ∀ (pending : list Value) f,
  well_formed f -> NoDup pending -> (∀ v, v ∈ pending -> v ∈ valuesOf f) ->
  let f1 := fold_left forkIfNeeded pending f in
  well_formed f1
  ∧ (∀ w, w ∈ valuesOf f -> w ∈ valuesOf f1)
  ∧ (∀ w, w ∈ valuesOf f1 ->
       numUses f1 w ≤ 1
       ∨ (w ∈ valuesOf f ∧ (w ∉ pending) ∧ numUses f1 w = numUses f w))
  ∧ (∀ w, w ∈ valuesOf f -> numUses f w ≤ 1 -> numUses f1 w = numUses f w)
  ∧ (∀ v, v ∈ pending -> 2 ≤ numUses f v ->
       ∃ op, op ∈ funcBody f1 ∧ fork_of v (numUses f v) op)
  ∧ (∀ op, op ∈ funcBody f -> (∀ x, x ∈ opOperands op -> x ∉ pending) ->
       op ∈ funcBody f1)
  ∧ (∀ p op, funcBody f !! p = Some op ->
       ∃ op', funcBody f1 !! p = Some op'
              ∧ opKind op' = opKind op ∧ opResultTypes op' = opResultTypes op)
  ∧ (∀ p op', funcBody f1 !! p = Some op' -> length (funcBody f) ≤ p ->
       opKind op' = ForkOp)
  ∧ funcName f1 = funcName f
  ∧ funcArguments f1 = funcArguments f.
Proof.
  induction pending as [|v pending IH]; intros f Hwf Hnd Hsub; cbn [fold_left].
  - repeat split; try done.
    + intros w Hw. right. repeat split; [done|apply not_elem_of_nil].
    + by intros v ?%elem_of_nil.
    + intros p op Hp. by exists op.
    + intros p op' Hp%lookup_lt_Some Hlen. lia.
  - apply NoDup_cons in Hnd as [Hfresh Hnd].
    destruct (forkIfNeeded_spec f v Hwf (Hsub v ltac:(by left)))
      as (Hwf' & Hold & Hv1 & Hother & Hsame & Hnew & Hfork & Hkeep & Hlook & Hadded
          & Hname & Hargs).
    set (fv := forkIfNeeded f v) in *.
    destruct (IH fv Hwf' Hnd (λ x Hx, Hold x (Hsub x ltac:(by right))))
      as (Hwf1 & Hold1 & Hone1 & Hsame1 & Hfork1 & Hkeep1 & Hlook1 & Hadded1
          & Hname1 & Hargs1).
    split; [done|].
    split; [intros w Hw; by apply Hold1, Hold|].
    split.
    { intros w Hw. destruct (Hone1 w Hw) as [Hle|(Hwv & Htail & Heq)]; [by left|].
      destruct (decide (w ∈ valuesOf f)) as [Hwf0|Hwnew].
      - destruct (decide (w = v)) as [->|Hne].
        + left. lia.
        + right. split; [done|]. split; [|by rewrite Heq, Hother].
          by intros [->|?]%elem_of_cons.
      - left. rewrite Heq. by rewrite (Hnew w Hwv Hwnew). }
    split.
    { intros w Hw Hle.
      assert (numUses fv w = numUses f w) as Heq.
      { destruct (decide (w = v)) as [->|Hne]; [by apply Hsame|by apply Hother]. }
      rewrite <- Heq. apply Hsame1; [by apply Hold|lia]. }
    split.
    { intros v' [->|Hin]%elem_of_cons Hmany.
      - destruct (Hfork Hmany) as (op & Hop & Hfk).
        exists op. split; [|done]. apply Hkeep1; [done|].
        destruct Hfk as (_ & -> & _). by intros x ->%list_elem_of_singleton.
      - assert (v' ≠ v) as Hne by by intros ->.
        rewrite <- (Hother v' (Hsub v' ltac:(by right)) Hne).
        apply Hfork1; [done|]. rewrite Hother; [done| |done]. apply Hsub. by right. }
    split.
    { intros op Hop Hfree. apply Hkeep1.
      - apply Hkeep; [done|]. intros Hin. by apply (Hfree v Hin); left.
      - intros x Hx Hin. by apply (Hfree x Hx); right. }
    split.
    { intros p op Hp. destruct (Hlook p op Hp) as (op' & Hp' & Hk & Ht).
      destruct (Hlook1 p op' Hp') as (op'' & Hp'' & Hk' & Ht').
      exists op''. by rewrite Hk', Ht'. }
    split.
    { intros p op' Hp Hlen.
      destruct (decide (p < length (funcBody fv))) as [Hlt|Hge].
      - destruct (lookup_lt_is_Some_2 _ _ Hlt) as [o Ho].
        destruct (Hlook1 p o Ho) as (op'' & Hp'' & Hk & _).
        assert (op'' = op') as -> by congruence.
        rewrite Hk. by apply (Hadded p).
      - apply (Hadded1 p); [done|lia]. }
    split; congruence.
Qed.

Lemma operands_insertSink (l : list Value) :
  List.concat (map opOperands (map insertSink l)) = l.
Proof. induction l as [|x l IH]; simpl; [done|]. by rewrite IH. Qed.

Lemma count_occ_filter_NoDup (P : Value -> bool) (l : list Value) w :
  NoDup l -> w ∈ l ->
  count_occ Value_eq_dec (List.filter P l) w = if P w then 1 else 0.
Proof.
  intros Hnd Hw.
  assert (count_occ Value_eq_dec (List.filter P l) w ≤ 1) as Hle.
  { apply NoDup_count_occ, List.NoDup_filter. by apply NoDup_ListNoDup. }
  destruct (P w) eqn:HP.
  - assert (count_occ Value_eq_dec (List.filter P l) w > 0); [|lia].
    apply count_occ_In, filter_In. split; [by apply list_elem_of_In|done].
  - apply count_occ_not_In. rewrite filter_In. intros [_ ?]. congruence.
Qed.

Section Sinks.
Variable f : FuncOp.
Local Abbreviation unused :=
  (List.filter (fun v => numUses f v =? 0) (valuesOf f)).
Local Abbreviation f2 :=
  {| funcName := funcName f;
     funcArguments := funcArguments f;
     funcBody := funcBody f ++ map insertSink unused |}.

Lemma elem_of_valuesOf_addSinkOps w : w ∈ valuesOf f2 <-> w ∈ valuesOf f.
Proof.
  rewrite !elem_of_valuesOf. destruct w as [b i|k i]; cbn [funcArguments funcBody]; [done|].
  split.
  - intros (op & [Hop|[_ Hop]]%lookup_app_Some & Hi); [by exists op|].
    apply list_elem_of_lookup_2, list_elem_of_In, in_map_iff in Hop as (x & <- & _).
    simpl in Hi. lia.
  - intros (op & Hop & Hi). exists op. split; [|done]. by apply lookup_app_l_Some.
Qed.

Lemma numUses_addSinkOps w :
  w ∈ valuesOf f ->
  numUses f2 w = if numUses f w =? 0 then 1 else numUses f w.
Proof.
  intros Hw. unfold numUses at 1. cbn [funcBody].
  rewrite map_app, concat_app, count_occ_app, operands_insertSink.
  rewrite (count_occ_filter_NoDup _ _ w (NoDup_valuesOf f) Hw).
  fold (numUses f w). destruct (Nat.eqb_spec (numUses f w) 0); lia.
Qed.

Lemma addSinkOps_sink v :
  v ∈ valuesOf f -> numUses f v = 0 ->
  ∃ op, op ∈ funcBody f2 ∧ sink_of v op.
Proof.
  intros Hv Hnone. exists (insertSink v). split; [|done].
  cbn [funcBody]. apply elem_of_app. right.
  apply list_elem_of_In, in_map, filter_In. split; [by apply list_elem_of_In|].
  by apply Nat.eqb_eq.
Qed.
End Sinks.

Lemma fold_forkIfNeeded_same (pending : list Value) f :
  (∀ v, v ∈ pending -> numUses f v = 1) -> fold_left forkIfNeeded pending f = f.
Proof.
  induction pending as [|v pending IH]; intros Hone; cbn [fold_left]; [done|].
  unfold forkIfNeeded at 2. rewrite (Hone v) by by left. simpl.
  apply IH. intros x Hx. apply Hone. by right.
Qed.

Lemma filter_unused_nil f :
  AllValuesHaveOneUse f ->
  List.filter (fun v => numUses f v =? 0) (valuesOf f) = [].
Proof.
  intros Hone.
  assert (∀ l, (∀ v, v ∈ l -> v ∈ valuesOf f) ->
               List.filter (fun v => numUses f v =? 0) l = []) as Hgen; [|by apply Hgen].
  induction l as [|x l IH]; intros Hl; simpl; [done|].
  rewrite (Hone x) by (apply Hl; by left). simpl.
  apply IH. intros v Hv. apply Hl. by right.
Qed.

Lemma materializeFuncOp_spec f :
  well_formed f ->
  ∃ f', materializeFuncOp addForkOps addSinkOps f = Some f'
        ∧ AllValuesHaveOneUse f' ∧ materialized f f'.
Proof.
  intros Hwf.
  destruct (addForkOps_fold (valuesOf f) f Hwf (NoDup_valuesOf f) (λ v Hv, Hv))
    as (Hwf1 & Hold1 & Hone1 & Hsame1 & Hfork1 & _ & Hlook1 & Hadded1 & Hname1 & Hargs1).
  set (f1 := fold_left forkIfNeeded (valuesOf f) f) in *.
  set (f2 := {| funcName := funcName f1;
                funcArguments := funcArguments f1;
                funcBody := funcBody f1
                            ++ map insertSink
                                 (List.filter (fun v => numUses f1 v =? 0) (valuesOf f1)) |}).
  assert (AllValuesHaveOneUse f2) as Hall.
  { intros w Hw. apply (proj1 (elem_of_valuesOf_addSinkOps f1 w)) in Hw.
    unfold f2. rewrite numUses_addSinkOps by done.
    destruct (Hone1 w Hw) as [Hle|(Hin & Hout & _)]; [|by destruct Hout].
    destruct (Nat.eqb_spec (numUses f1 w) 0); lia. }
  exists f2. split.
  { unfold materializeFuncOp, addForkOps, addSinkOps. simpl. fold f1. fold f2.
    apply verifyAllValuesHasOneUse_spec in Hall. by rewrite Hall. }
  split; [done|].
  split; [done|]. split; [done|].
  split.
  { intros p op Hp. destruct (Hlook1 p op Hp) as (op' & Hp' & Hk & Ht).
    exists op'. split; [|done]. cbn [f2 funcBody]. by apply lookup_app_l_Some. }
  split.
  { intros v Hv Hmany. destruct (Hfork1 v Hv Hmany) as (op & Hop & Hfk).
    exists op. split; [|done]. cbn [f2 funcBody]. apply elem_of_app. by left. }
  split.
  { intros v Hv Hnone. apply addSinkOps_sink; [by apply Hold1|].
    rewrite Hsame1; [done|done|lia]. }
  split.
  { intros p op' Hp Hlen. cbn [f2 funcBody] in Hp.
    apply lookup_app_Some in Hp as [Hp|[_ Hp]].
    - left. by apply (Hadded1 p).
    - right. apply list_elem_of_lookup_2, list_elem_of_In, in_map_iff in Hp
        as (x & <- & _). done. }
  intros Hone. unfold f2, f1.
  rewrite fold_forkIfNeeded_same by done.
  rewrite filter_unused_nil by done. simpl. rewrite app_nil_r. by destruct f.
Qed.

Lemma materializeForksAndSinks_spec (m : list FuncOp) :
  Forall well_formed m ->
  ∃ m', materializeForksAndSinks addForkOps addSinkOps m = Some m'
        ∧ Forall AllValuesHaveOneUse m' ∧ Forall2 materialized m m'.
Proof.
  induction 1 as [|f m Hwf _ (m' & Hrun & Hone & Hmat)].
  - exists []. repeat split; constructor.
  - destruct (materializeFuncOp_spec f Hwf) as (f' & Hf & Honef & Hmatf).
    exists (f' :: m'). cbn [materializeForksAndSinks]. rewrite Hf, Hrun.
    repeat split; by constructor.
Qed.

(** C5. On a module whose functions use their own values only,
    [materializeForksAndSinks] succeeds; every value of every function of the
    result, argument or result, has exactly one consumer; every value that
    had several consumers has a fork with a result for each of them, every
    value that had none has a sink, the operations that were there are kept,
    and nothing but forks and sinks is added. The invariant is checked:
    whatever the two insertions do, when they leave a function with a value
    that has no consumer or several, [materializeForksAndSinks] fails. *)
Theorem materialize_one_consumer (m : list FuncOp) :
  Forall well_formed m ->
  (∃ m', materializeForksAndSinks addForkOps addSinkOps m = Some m'
         ∧ Forall AllValuesHaveOneUse m'
         ∧ Forall2 materialized m m')
  ∧ (∀ (forks sinks : FuncOp -> option FuncOp) (funcOp f2 : FuncOp) (v : Value),
       funcOp ∈ m -> inserted forks sinks funcOp f2 ->
       v ∈ valuesOf f2 -> numUses f2 v ≠ 1 ->
       materializeForksAndSinks forks sinks m = None).
Proof.
  intros Hwf. split; [by apply materializeForksAndSinks_spec|].
  intros forks sinks funcOp f2 v Hin Hins Hv Huses.
  eapply materializeForksAndSinks_None; [done..|].
  intros Hone. by apply Huses, Hone.
Qed.

Example materialize_sink_unit :
  ∃ m', materializeForksAndSinks no_forks sinks_on_unused [sink_unit] = Some m'.
Proof. eexists. vm_compute. reflexivity. Qed.

Example materialize_double_unit :
  materializeForksAndSinks no_forks sinks_on_unused [sink_unit; double_unit] = None.
Proof. vm_compute. reflexivity. Qed.

(** The units of the example: the sink gets a sink on each of its two unused
    arguments, the doubling [map] a fork on the data it uses twice. *)
Example materialize_units :
  materializeForksAndSinks addForkOps addSinkOps [sink_unit; double_unit]
  = Some
      [ {| funcName := "stream_sink";
           funcArguments := [TupleType [I64; I1]; NoneType; NoneType];
           funcBody :=
             [mkOperation (OtherOp "handshake.return") [BlockArgument 0 2] [] 0;
              mkOperation SinkOp [BlockArgument 0 0] [] 0;
              mkOperation SinkOp [BlockArgument 0 1] [] 0] |};
        {| funcName := "stream_map";
           funcArguments := [TupleType [I64; I1]; NoneType; NoneType];
           funcBody :=
             [mkOperation (OtherOp "handshake.unpack") [BlockArgument 0 0] [I64; I1] 0;
              mkOperation (OtherOp "arith.addi") [OpResult 4 0; OpResult 4 1] [I64] 0;
              mkOperation (OtherOp "handshake.pack") [OpResult 1 0; OpResult 0 1]
                [TupleType [I64; I1]] 0;
              mkOperation (OtherOp "handshake.return")
                [OpResult 2 0; BlockArgument 0 1; BlockArgument 0 2] [] 0;
              mkOperation ForkOp [OpResult 0 0] [I64; I64] 0] |} ].
Proof. vm_compute. reflexivity. Qed.

Lemma materialize_one_consumer_witness :
  (∃ m', materializeForksAndSinks addForkOps addSinkOps [sink_unit; double_unit] = Some m'
         ∧ Forall AllValuesHaveOneUse m'
         ∧ Forall2 materialized [sink_unit; double_unit] m')
  ∧ materializeForksAndSinks no_forks sinks_on_unused [sink_unit; double_unit] = None.
Proof.
  destruct (materialize_one_consumer [sink_unit; double_unit]) as [Hrun Hcheck].
  - repeat (apply List.Forall_cons; [|try apply List.Forall_nil]).
    all: intros op v Hop Hv.
    all: repeat (apply elem_of_cons in Hop as [->|Hop]); try by apply elem_of_nil in Hop.
    all: repeat (apply elem_of_cons in Hv as [->|Hv]); try by apply elem_of_nil in Hv.
    all: apply list_elem_of_In; vm_compute; tauto.
  - split; [exact Hrun|].
    apply (Hcheck no_forks sinks_on_unused double_unit double_unit (OpResult 0 0)).
    + apply list_elem_of_In. simpl. auto.
    + exists double_unit. split; reflexivity.
    + apply list_elem_of_In. simpl. auto.
    + vm_compute. lia.
Defined.

End MaterializeFacts.

(** ** Token histories *)

Module HandshakeFacts.
Import Handshake.
Local Open Scope nat_scope.

Section Operations.
Context {A : Type}.
Implicit Types (cond : chan bool) (data h : chan A).

Lemma feedback_S (fuel : nat) (body : chan A -> chan A) :
  feedback (S fuel) body = body (feedback fuel body).
Proof. reflexivity. Qed.

Lemma ConditionalBranchOp_nil_r cond :
  ConditionalBranchOp cond (@nil A) = {| trueResult := []; falseResult := [] |}.
Proof. by destruct cond. Qed.

(** A branch whose conditions are computed from the data it routes. *)
Lemma trueResult_fmap (g : A -> bool) data :
  trueResult (ConditionalBranchOp (g <$> data) data) = List.filter g data.
Proof.
  induction data as [|d data IH]; csimpl; [done|].
  destruct (g d); csimpl; by rewrite IH.
Qed.

(** The same conditions routing one control token per data token. *)
Lemma trueResult_fmap_ctrl {B} (g : B -> bool) (l : list B) :
  trueResult (ConditionalBranchOp (g <$> l) (replicate (length l) tt))
  = replicate (length (List.filter g l)) tt.
Proof.
  induction l as [|d l IH]; csimpl; [done|].
  destruct (g d); csimpl; by rewrite IH.
Qed.

(** Conditions that are all false send everything to the false result. *)
Lemma ConditionalBranchOp_false (k : nat) cond h1 h2 :
  length h1 = k ->
  ConditionalBranchOp (replicate k false ++ cond) (h1 ++ h2)
  = {| trueResult := trueResult (ConditionalBranchOp cond h2);
       falseResult := h1 ++ falseResult (ConditionalBranchOp cond h2) |}.
Proof.
  revert h1. induction k as [|k IH]; intros [|a h1] Hlen; simpl in *; try lia.
  - by destruct (ConditionalBranchOp cond h2).
  - rewrite IH by lia. done.
Qed.

Lemma trueResult_all_false (l : list unit) data :
  trueResult (ConditionalBranchOp ((fun _ => false) <$> l) data) = [].
Proof.
  revert data. induction l as [|u l IH]; intros [|d data]; csimpl; auto.
Qed.
End Operations.

Lemma trunc64_succ (j : nat) :
  trunc64 (trunc64 (Z.of_nat j) + 1) = trunc64 (Z.of_nat (S j)).
Proof.
  unfold trunc64. rewrite Zplus_mod_idemp_l. f_equal. lia.
Qed.

Lemma trunc64_small (z : Z) : (0 ≤ z < 2 ^ 64)%Z -> trunc64 z = z.
Proof. intros H. unfold trunc64. by apply Z.mod_small. Qed.

End HandshakeFacts.

(** ** The unit of [create] *)

Module CreateFacts.
Import Handshake Circuits Units HandshakeFacts.
Local Open Scope list_scope.
Local Open Scope nat_scope.

Lemma counter_S (i : nat) :
  counter (S i) = 0%Z :: ((fun x => trunc64 (x + 1)%Z) <$> counter i).
Proof.
  unfold counter. simpl. f_equal.
  rewrite <- fmap_S_seq, <- !list_fmap_compose.
  apply list_fmap_ext. intros _ j _. simpl. by rewrite trunc64_succ.
Qed.

(** The input control is used once, whatever comes after it. *)
Lemma useCtrl_once (more : chan unit) :
  trueResult (ConditionalBranchOp
                (BufferOp_seq [true] (ConstantOp false (tt :: more)))
                (tt :: more)) = [tt].
Proof.
  unfold BufferOp_seq, ConstantOp.
  change (rev [true] ++ ((fun _ : unit => false) <$> (tt :: more)))%list
    with (true :: ((fun _ : unit => false) <$> (tt :: more))).
  change (trueResult (ConditionalBranchOp
            (true :: ((fun _ : unit => false) <$> (tt :: more))) (tt :: more)))
    with (tt :: trueResult (ConditionalBranchOp
                              ((fun _ : unit => false) <$> (tt :: more)) more)).
  by rewrite trueResult_all_false.
Qed.

Lemma create_ctrl (fuel : nat) :
  feedback fuel (fun tmpCtrl => MergeOp [tt] (BufferOp_seq [] tmpCtrl))
  = replicate fuel tt.
Proof.
  induction fuel as [|fuel IH]; [done|].
  rewrite feedback_S, IH. done.
Qed.

Lemma create_cnt (fuel i : nat) :
  i ≤ fuel ->
  feedback i (fun cnt => BufferOp_seq [0%Z]
                           (AddIOp cnt (ConstantOp 1%Z (replicate fuel tt))))
  = counter i.
Proof.
  induction i as [|i IH]; intros Hle; [done|].
  rewrite feedback_S, IH by lia.
  rewrite counter_S. unfold BufferOp_seq, AddIOp, ConstantOp. simpl. f_equal.
  rewrite fmap_replicate, zip_with_replicate_r; [done|].
  unfold counter. rewrite length_fmap, length_seq. lia.
Qed.

(** The unit of [create], in closed form. *)
Lemma CreateOpLowering_region_eq (values : list Z) (fuel : nat) (more : chan unit) :
  CreateOpLowering_region values fuel (tt :: more)
  = (zip (values ++ replicate fuel 0%Z)
         ((fun j => (trunc64 (Z.of_nat j) =? trunc64 (Z.of_nat (length values)))%Z)
            <$> seq 0 fuel),
     replicate fuel tt).
Proof.
  unfold CreateOpLowering_region.
  rewrite useCtrl_once, create_ctrl, create_cnt by done.
  f_equal. unfold PackOp, BufferOp_seq, CmpIOp_eq, ConstantOp, counter.
  rewrite rev_involutive, !fmap_replicate.
  f_equal. rewrite zip_with_replicate_r by (rewrite length_fmap, length_seq; lia).
  by rewrite <- list_fmap_compose.
Qed.

(** Activation [j] of the unit: the [j]-th literal, or the bubble [0] once
    the literals are used up, and the comparison of the counter with the
    number of literals. *)
Lemma create_activation (values : list Z) (fuel : nat) (more : chan unit) (j : nat) :
  j < fuel ->
  activation (fst (CreateOpLowering_region values fuel (tt :: more))) j
  = Some (default 0%Z (values !! j),
          (trunc64 (Z.of_nat j) =? trunc64 (Z.of_nat (length values)))%Z).
Proof.
  intros Hj. rewrite CreateOpLowering_region_eq. unfold activation. cbn [fst].
  rewrite lookup_zip_with, list_lookup_fmap, lookup_seq_lt by done.
  destruct (decide (j < length values)) as [Hlt|Hge].
  - rewrite lookup_app_l by done.
    destruct (lookup_lt_is_Some_2 values j Hlt) as [v ->]. done.
  - rewrite lookup_app_r by lia.
    rewrite (lookup_ge_None_2 values j) by lia.
    rewrite lookup_replicate_2 by lia. done.
Qed.

Lemma eos_flag_spec (j n : nat) :
  (Z.of_nat n < 2 ^ 64)%Z -> (Z.of_nat j < 2 ^ 64)%Z ->
  (trunc64 (Z.of_nat j) =? trunc64 (Z.of_nat n))%Z = bool_decide (j = n).
Proof.
  intros Hn Hj. rewrite !trunc64_small by lia.
  case_bool_decide; [apply Z.eqb_eq|apply Z.eqb_neq]; lia.
Qed.

(** C1, as the specification has it, fails: whatever the number of
    activations observed, the first three payloads of [create([5,6,7])] are
    not [(5,false), (6,false), (7,true)]: the third carries [eos = false]. *)
Lemma create_567_third_is_not_eos :
  (¬ ∃ fuel : nat,
       take 3 (fst (CreateOpLowering_region [5; 6; 7]%Z fuel [tt]))
       = [(5, false); (6, false); (7, true)]%Z)
  ∧ take 3 (fst (CreateOpLowering_region [5; 6; 7]%Z 4 [tt]))
    = [(5, false); (6, false); (7, false)]%Z.
Proof.
  split; [|reflexivity].
  intros [fuel Heq]. apply (f_equal (fun l => l !! 2)) in Heq.
  destruct (decide (2 < fuel)) as [Hlt|Hge].
  - rewrite lookup_take_lt in Heq by lia.
    pose proof (create_activation [5; 6; 7]%Z fuel [] 2 Hlt) as Hact.
    unfold activation in Hact. rewrite Hact in Heq. discriminate Heq.
  - destruct fuel as [|[|[|fuel]]]; [discriminate Heq..|lia].
Qed.

(** C1, amended. For a literal list of length [n], driven by a control
    token, the unit of [create] emits the [n] literals in their order, each
    with [eos = false], and then, as activation [n + 1], the bubble [0] with
    [eos = true]: [create([5,6,7])] emits [(5,false), (6,false), (7,false),
    (0,true)]. Control tokens after the first change nothing. *)
Theorem create_emits_literals_then_eos
    (values : list Z) (more : chan unit) (fuel : nat) :
  (Z.of_nat (length values) < 2 ^ 64)%Z ->
  length values < fuel ->
  take (S (length values))
    (fst (CreateOpLowering_region values fuel (tt :: more)))
  = ((fun v => (v, false)) <$> values) ++ [(0%Z, true)].
Proof.
  intros Hn Hfuel. apply list_eq. intros j.
  destruct (decide (j < S (length values))) as [Hlt|Hge].
  - rewrite lookup_take_lt by done.
    pose proof (create_activation values fuel more j ltac:(lia)) as Hact.
    unfold activation in Hact. rewrite Hact, eos_flag_spec by lia.
    destruct (decide (j = length values)) as [->|Hne].
    + rewrite bool_decide_eq_true_2 by done.
      rewrite (lookup_ge_None_2 values) by done.
      rewrite lookup_app_r by (rewrite length_fmap; lia).
      by rewrite length_fmap, Nat.sub_diag.
    + rewrite bool_decide_eq_false_2 by done.
      rewrite lookup_app_l by (rewrite length_fmap; lia).
      rewrite list_lookup_fmap.
      destruct (lookup_lt_is_Some_2 values j ltac:(lia)) as [v ->]. done.
  - rewrite lookup_take_ge by lia. symmetry. apply lookup_ge_None_2.
    rewrite length_app, length_fmap. simpl. lia.
Qed.

Lemma create_emits_literals_then_eos_witness :
  take 4 (fst (CreateOpLowering_region [5; 6; 7]%Z 4 [tt]))
  = [(5, false); (6, false); (7, false); (0, true)]%Z.
Proof.
  apply (create_emits_literals_then_eos [5; 6; 7]%Z [] 4).
  - vm_compute. reflexivity.
  - simpl. lia.
Defined.

(** C2, as the specification has it, fails: the counter is an [i64] and
    wraps, so that [2^64] activations after the first [eos = true] the flag
    is true again. For [create([5,6,7])], activations [4] and [2^64 + 4]
    both carry [eos = true]. *)
Lemma create_eos_twice :
  let output := fst (CreateOpLowering_region [5; 6; 7]%Z
                       (Z.to_nat (2 ^ 64 + 4)) [tt]) in
  activation output 3 = Some (0%Z, true)
  ∧ activation output (Z.to_nat (2 ^ 64 + 3)) = Some (0%Z, true)
  ∧ 3 ≠ Z.to_nat (2 ^ 64 + 3).
Proof.
  cbv zeta. split; [|split].
  - rewrite create_activation by lia. reflexivity.
  - rewrite create_activation by lia.
    rewrite (lookup_ge_None_2 [5; 6; 7]%Z) by (simpl; lia).
    rewrite Z2Nat.id by lia.
    replace (2 ^ 64 + 3)%Z with (3 + 1 * 2 ^ 64)%Z by lia.
    unfold trunc64. rewrite Z.mod_add by lia. reflexivity.
  - lia.
Qed.

(** C2, amended. At every activation the unit of [create] compares its
    counter, which starts at [0] and is incremented by one, modulo [2^64],
    per activation, with the number [n] of literals. For [n < 2^64], among
    the first [2^64] activations exactly one carries [eos = true]: activation
    [n + 1], one past the last literal. *)
Theorem create_eos_singularity
    (values : list Z) (more : chan unit) (fuel : nat) (j : nat) :
  j < fuel ->
  ∃ d : Z,
    activation (fst (CreateOpLowering_region values fuel (tt :: more))) j
    = Some (d, (trunc64 (Z.of_nat j) =? trunc64 (Z.of_nat (length values)))%Z)
    ∧ ((Z.of_nat (length values) < 2 ^ 64)%Z -> (Z.of_nat j < 2 ^ 64)%Z ->
       ((trunc64 (Z.of_nat j) =? trunc64 (Z.of_nat (length values)))%Z = true
        <-> j = length values)).
Proof.
  intros Hj. eexists. split; [by apply create_activation|].
  intros Hn Hj64. rewrite eos_flag_spec by done. apply bool_decide_eq_true.
Qed.

Lemma create_eos_singularity_witness :
  ∃ d : Z,
    activation (fst (CreateOpLowering_region [5; 6; 7]%Z 5 [tt])) 3
    = Some (d, (trunc64 (Z.of_nat 3) =? trunc64 (Z.of_nat 3))%Z)
    ∧ ((Z.of_nat 3 < 2 ^ 64)%Z -> (Z.of_nat 3 < 2 ^ 64)%Z ->
       ((trunc64 (Z.of_nat 3) =? trunc64 (Z.of_nat 3))%Z = true <-> 3 = 3)).
Proof.
  apply (create_eos_singularity [5; 6; 7]%Z [] 5 3). lia.
Defined.

End CreateFacts.

(** ** The unit of [filter] *)

Module FilterFacts.
Import Handshake Circuits Units HandshakeFacts.
Local Open Scope list_scope.
Local Open Scope nat_scope.

Section Filter.
Context {T : Type}.
Variable p : T -> bool.
Local Abbreviation passes := (Units.passes p).
Local Abbreviation filter_unit := (Units.filter_unit p).

Lemma condOrEos_eq (tupleIn : chan (T * bool)) :
  OrIOp (p <$> UnpackOp_0 tupleIn) (UnpackOp_1 tupleIn) = passes <$> tupleIn.
Proof.
  unfold OrIOp, UnpackOp_0, UnpackOp_1.
  induction tupleIn as [|[d e] l IH]; csimpl; [done|]. by rewrite IH.
Qed.

Lemma filter_unit_eq (tupleIn : chan (T * bool)) (initCtrl : chan unit) :
  filter_unit tupleIn initCtrl
  = (List.filter passes tupleIn,
     replicate (length (List.filter passes tupleIn)) tt,
     initCtrl).
Proof.
  unfold filter_unit, FilterOpLowering_region, pure_lambda. cbn [fst snd].
  rewrite condOrEos_eq. unfold PackOp, UnpackOp_0, UnpackOp_1.
  rewrite zip_fst_snd, trueResult_fmap, trueResult_fmap_ctrl. done.
Qed.

Lemma filter_not_eos (ds : list T) :
  List.filter passes ((fun x => (x, false)) <$> ds)
  = (fun x => (x, false)) <$> List.filter p ds.
Proof.
  induction ds as [|x ds IH]; csimpl; [done|].
  unfold passes at 1. cbn [fst snd]. rewrite orb_false_r.
  destruct (p x); csimpl; by rewrite IH.
Qed.

(** C4. The unit of a [filter] with predicate [p] emits the payloads for
    which [p(data) OR eos] holds, in their order, and one control token
    for each of them. An activation [(d, e)] more adds its payload and one
    control token to the outputs when [p d || e] holds and adds nothing to
    either otherwise. For elements [ds] followed by the EOS activation the
    payload output is the elements that satisfy [p], followed by the EOS
    activation. *)
Theorem filter_gates_payload_and_ctrl
    (tupleIn : chan (T * bool)) (initCtrl : chan unit) :
  filter_unit tupleIn initCtrl
  = (List.filter passes tupleIn,
     replicate (length (List.filter passes tupleIn)) tt,
     initCtrl)
  ∧ (∀ (d : T) (e : bool),
       filter_unit (tupleIn ++ [(d, e)]) initCtrl
       = let '(tupleOut, ctrlOut, init) := filter_unit tupleIn initCtrl in
         if p d || e
         then (tupleOut ++ [(d, e)], ctrlOut ++ [tt], init)
         else (tupleOut, ctrlOut, init))
  ∧ (∀ (ds : list T) (d : T),
       tupleIn = ((fun x => (x, false)) <$> ds) ++ [(d, true)] ->
       fst (fst (filter_unit tupleIn initCtrl))
       = ((fun x => (x, false)) <$> List.filter p ds) ++ [(d, true)]).
Proof.
  split; [apply filter_unit_eq|split].
  - intros d e. rewrite !filter_unit_eq, List.filter_app.
    change (p d || e) with (passes (d, e)). cbn [List.filter].
    destruct (passes (d, e)).
    + rewrite length_app. cbn [length].
      by rewrite Nat.add_1_r, replicate_S_end.
    + by rewrite app_nil_r.
  - intros ds d ->. rewrite filter_unit_eq. cbn [fst].
    rewrite List.filter_app, filter_not_eos. simpl.
    unfold passes. cbn [fst snd]. by rewrite orb_true_r.
Qed.
End Filter.

Lemma filter_gates_payload_and_ctrl_witness :
  fst (fst (filter_unit (fun x => 2 <? x)%Z
              [(1, false); (3, false); (2, false); (5, false); (0, true)]%Z [tt]))
  = [(3, false); (5, false); (0, true)]%Z.
Proof.
  apply (proj2 (proj2 (filter_gates_payload_and_ctrl (fun x => 2 <? x)%Z
                         [(1, false); (3, false); (2, false); (5, false); (0, true)]%Z
                         [tt])) [1; 3; 2; 5]%Z 0%Z).
  reflexivity.
Defined.

Example filter_suppresses_ctrl :
  filter_unit (fun x => 2 <? x)%Z [(1, false); (3, false); (2, false)]%Z [tt]
  = ([(3, false)]%Z, [tt], [tt]).
Proof. reflexivity. Qed.

End FilterFacts.

(** ** The unit of [reduce] *)

Module ReduceFacts.
Import Handshake Circuits Units HandshakeFacts.
Local Open Scope list_scope.
Local Open Scope nat_scope.

Section Reduce.
Context {T : Type}.
Variable f : Z -> T -> Z.
Variable initValue : Z.
Local Abbreviation accumulators := (Units.accumulators f).

Lemma length_accumulators (xs : list T) : ∀ a : Z,
  length (accumulators a xs) = S (length xs).
Proof. induction xs as [|x xs IH]; intros a; simpl; [done|]. by rewrite IH. Qed.

Lemma accumulators_unfold (xs : list T) : ∀ a : Z,
  accumulators a xs = a :: zip_with f (accumulators a xs) xs.
Proof.
  induction xs as [|x xs IH]; intros a; simpl; [done|].
  f_equal. f_equal. apply IH.
Qed.

Lemma accumulators_last (xs : list T) : ∀ a : Z,
  accumulators a xs
  = take (length xs) (accumulators a xs) ++ [fold_left f xs a].
Proof.
  induction xs as [|x xs IH]; intros a; simpl; [done|].
  f_equal. apply IH.
Qed.

(** The input: the elements [xs], none of them the EOS, then nothing or the
    EOS activation and whatever follows it. *)
Variable xs : list T.
Variable rest : chan (T * bool).
Hypothesis rest_starts_with_eos :
  match rest with
  | [] => True
  | (_, e) :: _ => e = true
  end.
Local Abbreviation tupleIn := (Units.tupleIn xs rest).
Local Abbreviation streamCtrl := (Units.streamCtrl xs rest).
Local Abbreviation cycle := (Units.cycle f initValue xs rest).
Local Abbreviation reduce_unit := (Units.reduce_unit f initValue xs rest).

Lemma data_eq : UnpackOp_0 tupleIn = xs ++ UnpackOp_0 rest.
Proof.
  unfold UnpackOp_0, tupleIn. rewrite fmap_app, <- list_fmap_compose.
  f_equal. by rewrite <- (list_fmap_id xs) at 2.
Qed.

Lemma eos_eq : UnpackOp_1 tupleIn = replicate (length xs) false ++ UnpackOp_1 rest.
Proof.
  unfold UnpackOp_1, tupleIn. rewrite fmap_app, <- list_fmap_compose.
  f_equal. induction xs as [|x l IH]; csimpl; [done|]. by rewrite IH.
Qed.

Lemma streamCtrl_eq :
  streamCtrl = replicate (length xs) tt ++ replicate (length rest) tt.
Proof.
  unfold streamCtrl, tupleIn.
  by rewrite length_app, length_fmap, replicate_add.
Qed.

Lemma falseResult_short (k : nat) (cond : chan bool) (h : chan Z) :
  length h ≤ k ->
  ConditionalBranchOp (replicate k false ++ cond) h
  = {| trueResult := []; falseResult := h |}.
Proof.
  revert h. induction k as [|k IH]; intros [|a h] Hlen; simpl in *; try lia.
  - by destruct cond.
  - done.
  - rewrite IH by lia. done.
Qed.

(** Up to the first EOS the register feeds the body, and the EOS takes the
    last accumulator out of the cycle. *)
Lemma dataBr_full :
  ConditionalBranchOp (UnpackOp_1 tupleIn) (accumulators initValue xs)
  = {| trueResult := match rest with
                     | [] => []
                     | _ :: _ => [fold_left f xs initValue]
                     end;
       falseResult := take (length xs) (accumulators initValue xs) |}.
Proof.
  rewrite eos_eq, (accumulators_last xs initValue) at 1.
  rewrite ConditionalBranchOp_false.
  2: { rewrite length_take, length_accumulators. lia. }
  destruct rest as [|[d e] more]; csimpl.
  - by rewrite app_nil_r.
  - simpl in rest_starts_with_eos. subst e.
    rewrite ConditionalBranchOp_nil_r. simpl. by rewrite app_nil_r.
Qed.

Lemma zip_with_accumulators (i : nat) (tail : list T) :
  i ≤ length xs ->
  zip_with f (take i (accumulators initValue xs)) (xs ++ tail)
  = take i (zip_with f (accumulators initValue xs) xs).
Proof.
  intros Hi. rewrite zip_with_take.
  rewrite <- (zip_with_take_r' _ i (take i _) (xs ++ tail)).
  2: { rewrite length_take. lia. }
  by rewrite take_app_le.
Qed.

Lemma cycle_take (i : nat) :
  cycle (take i (accumulators initValue xs))
  = take (S i) (accumulators initValue xs).
Proof.
  unfold cycle, pure_lambda2, BufferOp_seq. cbn [fst rev app].
  rewrite (accumulators_unfold xs initValue) at 2. cbn [take]. f_equal.
  destruct (decide (i ≤ length xs)) as [Hle|Hgt].
  - rewrite eos_eq, falseResult_short.
    2: { rewrite length_take, length_accumulators. lia. }
    cbn [falseResult]. rewrite data_eq. by apply zip_with_accumulators.
  - rewrite !take_ge.
    2: { rewrite length_zip_with, length_accumulators. lia. }
    2: { rewrite length_accumulators. lia. }
    rewrite dataBr_full. cbn [falseResult].
    rewrite data_eq, zip_with_accumulators by done.
    apply take_ge. rewrite length_zip_with, length_accumulators. lia.
Qed.

Lemma buffer_eq (fuel : nat) :
  feedback fuel cycle = take fuel (accumulators initValue xs).
Proof.
  induction fuel as [|fuel IH]; [done|].
  by rewrite feedback_S, IH, cycle_take.
Qed.

Lemma ReduceOpLowering_region_unfold (fuel : nat) (initCtrl : chan unit) :
  reduce_unit fuel initCtrl
  = let eos := UnpackOp_1 tupleIn in
    let buffer := take fuel (accumulators initValue xs) in
    let dataBr := ConditionalBranchOp eos buffer in
    let eosBr := ConditionalBranchOp eos eos in
    let ctrlBr := ConditionalBranchOp eos streamCtrl in
    let eosFalse := ConstantOp false (trueResult ctrlBr) in
    let tupleOutVal := PackOp (trueResult dataBr) eosFalse in
    let tupleOutEOS := PackOp (trueResult dataBr) (trueResult eosBr) in
    let bubble := ConstantOp 0%Z (trueResult ctrlBr) in
    let select := BufferOp_seq [1%Z; 0%Z] bubble in
    (MuxOp select [tupleOutVal; tupleOutEOS],
     MuxOp select [trueResult ctrlBr; trueResult ctrlBr],
     initCtrl).
Proof.
  unfold reduce_unit, ReduceOpLowering_region.
  change (feedback fuel _) with (feedback fuel cycle).
  by rewrite buffer_eq.
Qed.

End Reduce.

Lemma trueResult_quiet {A} (k : nat) (h : chan A) :
  trueResult (ConditionalBranchOp (replicate k false) h) = [].
Proof.
  revert h. induction k as [|k IH]; intros [|a h]; simpl; auto.
Qed.

(** While no EOS has arrived the unit is silent, whatever the fuel. *)
Lemma reduce_unit_quiet {T} (f : Z -> T -> Z) (initValue : Z) (xs : list T)
    (fuel : nat) (initCtrl : chan unit) :
  reduce_unit f initValue xs [] fuel initCtrl = ([], [], initCtrl).
Proof.
  rewrite (ReduceOpLowering_region_unfold f initValue xs [] I). cbv zeta.
  rewrite eos_eq. unfold UnpackOp_1. csimpl. rewrite app_nil_r.
  rewrite !trueResult_quiet. reflexivity.
Qed.

(** The outputs once the EOS has arrived: [cs] are the control tokens of
    the EOS activations after the first. *)
Lemma reduce_unit_eos {T} (f : Z -> T -> Z) (initValue : Z) (xs : list T)
    (d : T) (more : chan (T * bool)) (fuel : nat) (initCtrl : chan unit) :
  length xs < fuel ->
  ∃ cs : chan unit,
    (more = [] -> cs = [])
    ∧ reduce_unit f initValue xs ((d, true) :: more) fuel initCtrl
      = ([(fold_left f xs initValue, false); (fold_left f xs initValue, true)],
         tt :: tt :: MuxOp (ConstantOp 0%Z (tt :: cs)) [cs; cs],
         initCtrl).
Proof.
  intros Hfuel.
  rewrite (ReduceOpLowering_region_unfold f initValue xs ((d, true) :: more) eq_refl).
  cbv zeta.
  rewrite take_ge by (rewrite length_accumulators; lia).
  rewrite (dataBr_full f initValue xs ((d, true) :: more) eq_refl).
  cbn [trueResult].
  rewrite eos_eq, streamCtrl_eq.
  rewrite !ConditionalBranchOp_false by (by rewrite length_replicate).
  unfold UnpackOp_1. csimpl.
  exists (trueResult (ConditionalBranchOp (snd <$> more) (replicate (length more) ()))).
  split; [by intros ->|]. reflexivity.
Qed.

(** C3. With the lowered body of an accumulator function [f]: as long as the
    input carries no EOS, the unit of [reduce] emits no payload and no
    control token. At the first EOS it emits the accumulated value with
    [eos = false] and, as its next activation, the same value with
    [eos = true], and a control token with each; whatever follows the first
    EOS on the input adds no payload. *)
Theorem reduce_emits_value_then_eos {T} (f : Z -> T -> Z) (initValue : Z)
    (xs : list T) (d : T) (more : chan (T * bool))
    (fuel : nat) (initCtrl : chan unit) :
  length xs < fuel ->
  let acc := fold_left f xs initValue in
  reduce_unit f initValue xs [] fuel initCtrl = ([], [], initCtrl)
  ∧ reduce_unit f initValue xs [(d, true)] fuel initCtrl
    = ([(acc, false); (acc, true)], [tt; tt], initCtrl)
  ∧ fst (fst (reduce_unit f initValue xs ((d, true) :: more) fuel initCtrl))
    = [(acc, false); (acc, true)]
  ∧ take 2 (snd (fst (reduce_unit f initValue xs ((d, true) :: more) fuel initCtrl)))
    = [tt; tt].
Proof.
  intros Hfuel acc. split; [apply reduce_unit_quiet|].
  destruct (reduce_unit_eos f initValue xs d [] fuel initCtrl Hfuel)
    as (cs0 & Hcs0 & Heq0).
  destruct (reduce_unit_eos f initValue xs d more fuel initCtrl Hfuel)
    as (cs & _ & Heq).
  rewrite Heq0, Heq, (Hcs0 eq_refl). done.
Qed.

Lemma reduce_emits_value_then_eos_witness :
  reduce_unit Z.add 0 [1; 2; 3; 4]%Z [] 5 [tt] = ([], [], [tt])
  ∧ reduce_unit Z.add 0 [1; 2; 3; 4]%Z [(0%Z, true)] 5 [tt]
    = ([(10, false); (10, true)]%Z, [tt; tt], [tt])
  ∧ fst (fst (reduce_unit Z.add 0 [1; 2; 3; 4]%Z
                [(0, true); (8, false); (9, true)]%Z 5 [tt]))
    = [(10, false); (10, true)]%Z
  ∧ take 2 (snd (fst (reduce_unit Z.add 0 [1; 2; 3; 4]%Z
                        [(0, true); (8, false); (9, true)]%Z 5 [tt])))
    = [tt; tt].
Proof.
  apply (reduce_emits_value_then_eos Z.add 0 [1; 2; 3; 4]%Z 0%Z
           [(8, false); (9, true)]%Z 5 [tt]).
  simpl. lia.
Defined.

(** The unit of [create] feeding the unit of [reduce]: the sum of the
    literals, then the EOS. *)
Example create_then_reduce :
  let '(tuples, ctrl) := CreateOpLowering_region [1; 2; 3; 4]%Z 5 [tt] in
  ReduceOpLowering_region (pure_lambda2 Z.add) 0 6 tuples ctrl [tt]
  = ([(10, false); (10, true)]%Z, [tt; tt], [tt]).
Proof. vm_compute. reflexivity. Qed.

End ReduceFacts.

(** ** The unit of [combine] *)

Module CombineFacts.
Import Types Handshake Circuits Units HandshakeFacts.
Local Open Scope list_scope.
Local Open Scope nat_scope.

Lemma joint_cons {A} (c : chan A) (channels : list (chan A)) (j : nat) :
  joint (c :: channels) j
  = match c !! j, joint channels j with
    | Some x, Some l => Some (x :: l)
    | _, _ => None
    end.
Proof.
  unfold joint. csimpl. destruct (c !! j); csimpl; [|done].
  by destruct (mapM _ channels).
Qed.

Lemma lookup_fold_zip_with {A} (op : A -> A -> A) (channels : list (chan A)) :
  ∀ (c : chan A) (j : nat),
    fold_left (zip_with op) channels c !! j
    = match c !! j, joint channels j with
      | Some x, Some l => Some (fold_left op l x)
      | _, _ => None
      end.
Proof.
  induction channels as [|c' channels IH]; intros c j.
  - simpl. by destruct (c !! j).
  - cbn [fold_left]. rewrite IH, lookup_zip_with, joint_cons.
    destruct (c !! j); csimpl; [|done].
    destruct (c' !! j); csimpl; [|done].
    by destruct (joint channels j).
Qed.

Lemma lookup_zip_all {A} (channels : list (chan A)) (j : nat) :
  channels ≠ [] -> zip_all channels !! j = joint channels j.
Proof.
  induction channels as [|c channels IH]; intros Hne; [done|].
  rewrite joint_cons. destruct channels as [|c' channels].
  - cbn [zip_all]. rewrite list_lookup_fmap. by destruct (c !! j).
  - change (zip_all (c :: c' :: channels))
      with (zip_with cons c (zip_all (c' :: channels))).
    rewrite lookup_zip_with, IH by done.
    destruct (c !! j); csimpl; [|done].
    by destruct (joint (c' :: channels) j).
Qed.

Lemma joint_unpack {T X} (h : T * bool -> X)
    (args : list (chan (T * bool) * chan unit)) (j : nat) :
  joint ((fun a : chan (T * bool) * chan unit => h <$> fst a) <$> args) j
  = (fun toks : list (T * bool) => h <$> toks) <$> joint (fst <$> args) j.
Proof.
  induction args as [|[c ctrl] args IH]; [done|].
  rewrite !fmap_cons, !joint_cons, IH, list_lookup_fmap. cbn [fst].
  destruct (c !! j); csimpl; [|done].
  by destruct (joint (fst <$> args) j).
Qed.

Lemma fold_left_orb (l : list bool) : ∀ b : bool,
  fold_left orb l b = b || existsb id l.
Proof.
  induction l as [|x l IH]; intros b; simpl.
  - by rewrite orb_false_r.
  - rewrite IH. by rewrite orb_assoc.
Qed.

Lemma existsb_snd {T} (toks : list (T * bool)) :
  existsb id (snd <$> toks) = existsb snd toks.
Proof. induction toks as [|[d e] toks IH]; csimpl; [done|]. by rewrite IH. Qed.

(** The OR tree of [buildReduceTree]: token [j] is the OR of the tokens [j]
    of all the flags. *)
Lemma lookup_or_tree (c : chan bool) (channels : list (chan bool)) (j : nat) :
  fold_left OrIOp channels c !! j = existsb id <$> joint (c :: channels) j.
Proof.
  unfold OrIOp. rewrite lookup_fold_zip_with, joint_cons.
  destruct (c !! j); [|done].
  destruct (joint channels j); [|done].
  csimpl. by rewrite fold_left_orb.
Qed.

(** The join: control token [j] is there when every operand has one. *)
Lemma lookup_JoinOp (c : chan unit) (channels : list (chan unit)) (j : nat) :
  JoinOp (c :: channels) !! j = (fun _ => tt) <$> joint (c :: channels) j.
Proof.
  unfold JoinOp. rewrite lookup_fold_zip_with, joint_cons.
  destruct (c !! j) as [[]|]; [|done].
  destruct (joint channels j) as [l|]; [|done].
  csimpl. f_equal. by destruct (fold_left _ l ()).
Qed.

Section Combine.
Context {T R : Type}.
Variable g : list T -> R.

(** C7. The unit of a [combine] of [k >= 1] streams, with the lowered body
    of a function [g] of the [k] elements, has one payload and one control
    result. Payload [j] is there when all [k] inputs have a payload [j]; its
    EOS flag is the OR of the [k] input flags. The control of the body is
    the join of the [k] stream controls: control token [j] is there when all
    [k] inputs have a control token [j]. *)
Theorem combine_eos_is_or_of_inputs
    (arg : chan (T * bool) * chan unit)
    (args : list (chan (T * bool) * chan unit)) (initCtrl : chan unit) :
  ∃ (tupleOut : chan (R * bool)) (ctrlOut : chan unit),
    CombineOpLowering_region (pure_lambdaN g) (arg :: args) initCtrl
    = Success ([(tupleOut, ctrlOut)], initCtrl)
    ∧ (∀ j : nat,
         tupleOut !! j
         = (fun toks : list (T * bool) => (g (fst <$> toks), existsb snd toks))
             <$> joint (fst <$> arg :: args) j)
    ∧ (∀ j : nat,
         ctrlOut !! j = (fun _ => tt) <$> joint (snd <$> arg :: args) j).
Proof.
  exists (PackOp (g <$> zip_all ((fun a : chan (T * bool) * chan unit =>
                                    UnpackOp_0 (fst a)) <$> arg :: args))
            (fold_left OrIOp ((fun a : chan (T * bool) * chan unit =>
                                 UnpackOp_1 (fst a)) <$> args)
               (UnpackOp_1 (fst arg)))),
         (JoinOp (snd <$> arg :: args)).
  split; [reflexivity|]. split; intros j.
  - unfold PackOp. rewrite lookup_zip_with, list_lookup_fmap.
    rewrite lookup_zip_all by done.
    rewrite (joint_unpack fst (arg :: args)).
    pose proof (lookup_or_tree (UnpackOp_1 (fst arg))
                  ((fun a => UnpackOp_1 (fst a)) <$> args) j) as Hor.
    change (UnpackOp_1 (fst arg) :: ((fun a => UnpackOp_1 (fst a)) <$> args))
      with ((fun a : chan (T * bool) * chan unit => snd <$> fst a) <$> arg :: args)
      in Hor.
    rewrite (joint_unpack snd (arg :: args)) in Hor.
    rewrite Hor.
    destruct (joint (fst <$> arg :: args) j) as [toks|]; csimpl; [|done].
    by rewrite existsb_snd.
  - rewrite fmap_cons. apply lookup_JoinOp.
Qed.
End Combine.

Example combine_two_streams :
  CombineOpLowering_region (pure_lambdaN (fun l => foldr Z.add 0%Z l))
    [([(1, false); (2, false); (0, true)]%Z, [tt; tt; tt]);
     ([(10, false); (20, true)]%Z, [tt; tt])] [tt]
  = Success ([([(11, false); (22, true)]%Z, [tt; tt])], [tt]).
Proof. reflexivity. Qed.

Example combine_no_stream :
  CombineOpLowering_region (pure_lambdaN (fun l => foldr Z.add 0%Z l)) [] [tt]
  = AssertionFailure "values.size() > 0".
Proof. reflexivity. Qed.

End CombineFacts.

(** * Further properties *)

(** ** The form and the order of the synthesized names *)

Module UniquerMore.
Import Uniquer Vocabulary UniquerFacts.
Local Open Scope nat_scope.

Lemma contains_char_append (c : ascii) (s1 s2 : string) :
  contains_char c (s1 +:+ s2) = contains_char c s1 || contains_char c s2.
Proof.
  induction s1 as [|c' s1 IH]; simpl; [done|]. by rewrite IH, orb_assoc.
Qed.

Lemma getBareOpName_no_dot (op : string) :
  contains_char "."%char (getBareOpName op) = false.
Proof.
  unfold getBareOpName. induction op as [|c op IH]; simpl; [done|].
  rewrite IH, orb_false_r.
  destruct (Ascii.eqb c ".") eqn:Hc; [done|exact Hc].
Qed.

Lemma pretty_N_char_no_dot (x : N) : Ascii.eqb (pretty_N_char x) "." = false.
Proof. unfold pretty_N_char. by repeat case_match. Qed.

Lemma pretty_N_go_no_dot (x : N) : ∀ s : string,
  contains_char "."%char s = false ->
  contains_char "."%char (pretty_N_go x s) = false.
Proof.
  induction (N.lt_wf_0 x) as [x _ IH]; intros s Hs.
  destruct (decide (x = 0)%N) as [->|Hx].
  - by rewrite pretty_N_go_0.
  - rewrite pretty_N_go_step by lia. apply IH.
    + apply N.div_lt; lia.
    + simpl. by rewrite pretty_N_char_no_dot, Hs.
Qed.

Lemma formatv_no_dot (opName : string) (cnt : N) :
  contains_char "."%char opName = false ->
  contains_char "."%char (formatv opName cnt) = false.
Proof.
  intros Hop. unfold formatv. rewrite !contains_char_append, Hop. simpl.
  unfold pretty, pretty_N. case_decide; [done|].
  by apply pretty_N_go_no_dot.
Qed.

Lemma getUniqueSymName_loop_no_dot (used : gset string) (opName : string) :
  contains_char "."%char opName = false ->
  ∀ (fuel : nat) (name : string) (cnt : N) (result : string),
    contains_char "."%char name = false ->
    getUniqueSymName_loop fuel used opName name cnt = Some result ->
    contains_char "."%char result = false.
Proof.
  intros Hop fuel. induction fuel as [|fuel IH]; intros name cnt result Hname;
    simpl; [discriminate|].
  case_decide.
  - apply IH. by apply formatv_no_dot.
  - by intros [= <-].
Qed.

(** X1. Whatever the name of the operation and the names in use, a name the
    uniquer returns contains no dot: the dots of the operation name are
    replaced by underscores and the suffix is an underscore and digits. *)
Theorem unique_name_has_no_dot
    (fuel : nat) (u u' : SymbolUniquer) (op name : string) :
  getUniqueSymName fuel u op = Some (name, u') ->
  contains_char "."%char name = false.
Proof.
  unfold getUniqueSymName.
  destruct (getUniqueSymName_loop _ _ _ _ _) as [result|] eqn:Hloop; [|discriminate].
  intros [= <- _].
  eapply getUniqueSymName_loop_no_dot; [| |exact Hloop];
    apply getBareOpName_no_dot.
Qed.

Lemma unique_name_has_no_dot_witness :
  contains_char "."%char "stream_map_1" = false.
Proof.
  apply (unique_name_has_no_dot 3 (mk ["stream_map"; "main"]%string)
           (addSymbol "stream_map_1" (mk ["stream_map"; "main"]%string))
           "stream.map" "stream_map_1").
  vm_compute. reflexivity.
Defined.

(** With the candidates below [k] in use and the others free, the next name
    is candidate [k]. *)
Lemma getUniqueSymName_next (fuel : nat) (u : SymbolUniquer) (op : string) (k : nat) :
  (N.of_nat (size (usedNames u)) + 1 < unsigned_modulus)%N ->
  size (usedNames u) < fuel ->
  (∀ j : N, candidate (getBareOpName op) j ∈ usedNames u <-> (j < N.of_nat k)%N) ->
  getUniqueSymName fuel u op
  = Some (candidate (getBareOpName op) (N.of_nat k),
          addSymbol (candidate (getBareOpName op) (N.of_nat k)) u).
Proof.
  intros Hsize Hfuel Hused.
  destruct (getUniqueSymName_spec fuel u op Hsize Hfuel)
    as (name & -> & j & -> & Hout & Hbelow).
  assert (j = N.of_nat k) as ->; [|done].
  destruct (N.lt_trichotomy j (N.of_nat k)) as [Hlt|[->|Hgt]]; [|done|].
  - exfalso. apply Hout. by apply Hused.
  - exfalso. specialize (Hbelow _ Hgt). apply Hused in Hbelow. lia.
Qed.

Lemma getUniqueSymNames_same_kind (fuel : nat) (op : string) (n : nat) :
  ∀ (u : SymbolUniquer) (k : nat),
    (N.of_nat (size (usedNames u) + n) < unsigned_modulus)%N ->
    size (usedNames u) + n ≤ fuel ->
    (∀ j : N, candidate (getBareOpName op) j ∈ usedNames u <-> (j < N.of_nat k)%N) ->
    fst <$> getUniqueSymNames fuel u (replicate n op)
    = Some ((fun j => candidate (getBareOpName op) (N.of_nat j)) <$> seq k n).
Proof.
  induction n as [|n IH]; intros u k Hsize Hfuel Hused; [done|].
  simpl. rewrite (getUniqueSymName_next fuel u op k) by (done || lia).
  assert (candidate (getBareOpName op) (N.of_nat k) ∉ usedNames u) as Hout.
  { intros Hin. apply Hused in Hin. lia. }
  specialize (IH (addSymbol (candidate (getBareOpName op) (N.of_nat k)) u) (S k)).
  rewrite size_addSymbol in IH by done.
  destruct (getUniqueSymNames fuel _ (replicate n op)) as [[names u']|].
  - simpl in *. f_equal. f_equal.
    assert (Some names = Some ((fun j => candidate (getBareOpName op) (N.of_nat j))
                                 <$> seq (S k) n)) as [= ->]; [|done].
    apply IH; [lia|lia|].
    intros j. rewrite elem_of_union, elem_of_singleton, Hused. split.
    + intros [Heq|Hlt]; [apply candidate_inj in Heq|]; lia.
    + intros Hlt. destruct (decide (j = N.of_nat k)) as [->|]; [by left|right; lia].
  - exfalso. simpl in IH.
    assert (None = Some ((fun j => candidate (getBareOpName op) (N.of_nat j))
                           <$> seq (S k) n)) as Hnone; [|discriminate].
    apply IH; [lia|lia|].
    intros j. rewrite elem_of_union, elem_of_singleton, Hused. split.
    + intros [Heq|Hlt]; [apply candidate_inj in Heq|]; lia.
    + intros Hlt. destruct (decide (j = N.of_nat k)) as [->|]; [by left|right; lia].
Qed.

(** X2. The class on its own: when no name of the form [op], [op_1],
    [op_2], ... is in use, [n] successive calls of [getUniqueSymName] for the
    operation name [op] on one uniquer that stays alive between the calls
    return [op], [op_1], ..., [op_(n-1)], in this order. *)
Theorem same_kind_names_are_numbered
    (fuel : nat) (u : SymbolUniquer) (op : string) (n : nat) :
  (N.of_nat (size (usedNames u) + n) < unsigned_modulus)%N ->
  size (usedNames u) + n ≤ fuel ->
  (∀ j : N, candidate (getBareOpName op) j ∉ usedNames u) ->
  fst <$> getUniqueSymNames fuel u (replicate n op)
  = Some ((fun j => candidate (getBareOpName op) (N.of_nat j)) <$> seq 0 n).
Proof.
  intros Hsize Hfuel Hfree. apply getUniqueSymNames_same_kind; [done..|].
  intros j. split; [intros Hin; by apply Hfree in Hin|lia].
Qed.

Lemma same_kind_names_are_numbered_witness :
  fst <$> getUniqueSymNames 5 (mk ["main"; "stream_filter"]%string)
            (replicate 3 "stream.map"%string)
  = Some ["stream_map"; "stream_map_1"; "stream_map_2"]%string.
Proof.
  apply (same_kind_names_are_numbered 5 (mk ["main"; "stream_filter"]%string)
           "stream.map" 3).
  - vm_compute. reflexivity.
  - vm_compute. lia.
  - intros j. rewrite usedNames_mk.
    unfold candidate, formatv. case_decide; simpl; set_solver.
Defined.

End UniquerMore.

(** ** Converted signatures *)

Module FunctionsFacts.
Import Types IR Patterns Functions MaterializeFacts.
Local Open Scope list_scope.
Local Open Scope nat_scope.

Lemma convertTypes_spec (ts : list Ty) :
  ∃ ts', convertTypes ts = Success ts'
         ∧ length ts' = length ts + count_streams ts
         ∧ Forall (fun t => isa_StreamType t = false) ts'
         ∧ (count_streams ts = 0 -> ts' = ts).
Proof.
  unfold count_streams. induction ts as [|t ts (ts' & Heq & Hlen & Hall & Hsame)].
  - exists []. repeat split; by constructor.
  - destruct t as [w s| |l|e|n]; simpl; rewrite Heq; simpl;
      eexists; (split; [reflexivity|]); simpl;
      (split; [lia|]); (split; [repeat constructor; done|]);
      try (intros Hz; f_equal; by apply Hsame); lia.
Qed.

(** X3. The type conversion never fails. A list of types is converted to
    one type per type and one more per stream among them, none of the
    converted types is a stream, and a list without streams is left as it
    is. *)
Theorem convertTypes_flattens_streams (ts : list Ty) :
  ∃ ts', convertTypes ts = Success ts'
         ∧ length ts' = length ts + count_streams ts
         ∧ Forall (fun t => isa_StreamType t = false) ts'
         ∧ (count_streams ts = 0 -> ts' = ts).
Proof. apply convertTypes_spec. Qed.

Lemma convertTypes_flattens_streams_witness :
  ∃ ts', convertTypes [StreamType I64; I32; StreamType I1] = Success ts'
         ∧ length ts' = 3 + 2
         ∧ Forall (fun t => isa_StreamType t = false) ts'
         ∧ (count_streams [StreamType I64; I32; StreamType I1] = 0 ->
            ts' = [StreamType I64; I32; StreamType I1]).
Proof. apply (convertTypes_flattens_streams [StreamType I64; I32; StreamType I1]). Defined.

Lemma getArguments_back_app (ir : Context) (block : nat) (ts : list Ty) :
  blockArguments (blocks ir block) = ts ++ [NoneType] ->
  getBlockCtrlSignal ir block = Success (BlockArgument block (length ts)).
Proof.
  intros Hargs. unfold getBlockCtrlSignal, getArguments_back.
  rewrite Hargs, length_app. simpl. rewrite Nat.add_1_r. simpl.
  unfold has_type, getType. rewrite Hargs.
  rewrite lookup_app_r by lia. by rewrite Nat.sub_diag.
Qed.

(** X4. The function pattern never fails. The new function takes the
    converted inputs and then the init control, and returns the converted
    results and then a control; on its entry block [getBlockCtrlSignal]
    returns that last argument, and its assertion does not fire. *)
Theorem FuncOpLowering_adds_ctrl
    (oldFuncType : FunctionType) (ir : Context) (block : nat) :
  ∃ (sig newResults : list Ty),
    convertTypes (getInputs oldFuncType) = Success sig
    ∧ convertTypes (getResults oldFuncType) = Success newResults
    ∧ FuncOpLowering_matchAndRewrite oldFuncType
      = Success {| getInputs := sig ++ [NoneType];
                   getResults := newResults ++ [NoneType] |}
    ∧ length (sig ++ [NoneType])
      = length (getInputs oldFuncType) + count_streams (getInputs oldFuncType) + 1
    ∧ (blockArguments (blocks ir block) = sig ++ [NoneType] ->
       getBlockCtrlSignal ir block = Success (BlockArgument block (length sig))).
Proof.
  destruct (convertTypes_spec (getInputs oldFuncType)) as (sig & Hsig & Hlen & _).
  destruct (convertTypes_spec (getResults oldFuncType)) as (res & Hres & _).
  exists sig, res. unfold FuncOpLowering_matchAndRewrite.
  rewrite Hsig, Hres. repeat split.
  - rewrite length_app. simpl. lia.
  - apply getArguments_back_app.
Qed.

Lemma FuncOpLowering_adds_ctrl_witness :
  ∃ (sig newResults : list Ty),
    convertTypes [StreamType I64] = Success sig
    ∧ convertTypes [StreamType I64] = Success newResults
    ∧ FuncOpLowering_matchAndRewrite
        {| getInputs := [StreamType I64]; getResults := [StreamType I64] |}
      = Success {| getInputs := sig ++ [NoneType];
                   getResults := newResults ++ [NoneType] |}
    ∧ length (sig ++ [NoneType]) = 1 + 1 + 1
    ∧ (blockArguments (blocks example_ir 0) = sig ++ [NoneType] ->
       getBlockCtrlSignal example_ir 0 = Success (BlockArgument 0 (length sig))).
Proof.
  apply (FuncOpLowering_adds_ctrl
           {| getInputs := [StreamType I64]; getResults := [StreamType I64] |}
           example_ir 0).
Defined.

(** Uses in the function of the sink. *)
Lemma SinkOpLowering_func_eq (name : string) (operandTypes : list Ty) :
  ∃ inputTypes,
    convertTypes operandTypes = Success inputTypes
    ∧ SinkOpLowering_func name operandTypes
      = Success {| funcName := name;
                   funcArguments := inputTypes ++ [NoneType];
                   funcBody := [mkOperation (OtherOp "handshake.return")
                                  [BlockArgument 0 (length inputTypes)] [] 0] |}.
Proof.
  destruct (convertTypes_spec operandTypes) as (inputTypes & Heq & _).
  exists inputTypes. split; [done|]. unfold SinkOpLowering_func. rewrite Heq. simpl.
  rewrite length_app. simpl. by rewrite Nat.add_1_r.
Qed.

(** X5. The function the sink pattern creates uses its init control once
    and no other argument: with at least one operand it is left with values
    without a consumer and does not pass [verifyAllValuesHasOneUse] as it
    is; without operands it does. *)
Theorem sink_unit_leaves_arguments_unused (name : string) (operandTypes : list Ty) :
  ∃ f, SinkOpLowering_func name operandTypes = Success f
       ∧ numUses f (BlockArgument 0 (length (funcArguments f) - 1)) = 1
       ∧ (∀ i, i < length (funcArguments f) - 1 -> numUses f (BlockArgument 0 i) = 0)
       ∧ (verifyAllValuesHasOneUse f = Some tt <-> operandTypes = []).
Proof.
  destruct (SinkOpLowering_func_eq name operandTypes) as (inputTypes & Hconv & ->).
  eexists. split; [reflexivity|].
  assert (∀ i, numUses
             {| funcName := name; funcArguments := inputTypes ++ [NoneType];
                funcBody := [mkOperation (OtherOp "handshake.return")
                               [BlockArgument 0 (length inputTypes)] [] 0] |}
             (BlockArgument 0 i)
           = if decide (i = length inputTypes) then 1 else 0) as Huses.
  { intros i. unfold numUses.
    cbn [funcBody map List.concat opOperands app count_occ].
    destruct (Value_eq_dec (BlockArgument 0 (length inputTypes)) (BlockArgument 0 i))
      as [Heq|Hne]; case_decide as Hi; try done.
    - congruence.
    - congruence. }
  cbn [funcArguments]. rewrite length_app. simpl.
  replace (length inputTypes + 1 - 1) with (length inputTypes) by lia.
  repeat split.
  - rewrite Huses. by case_decide.
  - intros i Hi. rewrite Huses. case_decide; [lia|done].
  - intros Hverify. apply verifyAllValuesHasOneUse_spec in Hverify.
    destruct operandTypes as [|t ts]; [done|]. exfalso.
    assert (0 < length inputTypes) as Hpos.
    { destruct (convertTypes_spec (t :: ts)) as (ts' & Heq & Hlen & _).
      rewrite Hconv in Heq. injection Heq as ->. simpl in Hlen. lia. }
    specialize (Hverify (BlockArgument 0 0)). rewrite Huses in Hverify.
    case_decide; [lia|].
    assert (0 = 1) as Habs; [|lia]. apply Hverify.
    unfold valuesOf. simpl. apply list_elem_of_fmap. exists 0. split; [done|].
    apply elem_of_seq. rewrite length_app. simpl. lia.
  - intros ->. simpl in Hconv. injection Hconv as <-.
    apply verifyAllValuesHasOneUse_spec. intros v Hv.
    unfold valuesOf in Hv. simpl in Hv.
    apply list_elem_of_singleton in Hv as ->. by rewrite Huses.
Qed.

End FunctionsFacts.

(** ** Instances and their operands *)

Module OperandsFacts.
Import Types IR Patterns Vocabulary.
Local Open Scope list_scope.
Local Open Scope nat_scope.



Lemma resolveStreamOperand_cast (ir : Context) (v : Value) (newOperands : list Value) :
  is_stream_cast_result ir v = true ->
  resolveStreamOperand ir v newOperands = Success (newOperands ++ cast_inputs ir v).
Proof.
  unfold is_stream_cast_result, resolveStreamOperand.
  intros [Hty Hcast]%andb_true_iff. rewrite Hty. simpl.
  destruct v as [b i|o i]; [discriminate|]. by rewrite Hcast.
Qed.

Lemma resolveStreamOperand_Success (ir : Context) (v : Value)
    (newOperands l : list Value) :
  resolveStreamOperand ir v newOperands = Success l ->
  is_stream_cast_result ir v = true.
Proof.
  unfold is_stream_cast_result, resolveStreamOperand.
  destruct (has_type isa_StreamType ir v); simpl; [|discriminate].
  destruct v as [b i|o i]; [discriminate|].
  by destruct (isa_UnrealizedConversionCastOp _).
Qed.

Lemma resolveStreamOperands_casts (ir : Context) (zipped : list (Value * Value)) :
  ∀ newOperands : list Value,
    Forall (fun p => is_stream_cast_result ir (snd p) = true) zipped ->
    resolveStreamOperands ir zipped newOperands
    = Success (newOperands ++ List.concat (cast_inputs ir <$> (snd <$> zipped))).
Proof.
  induction zipped as [|[old v] zipped IH]; intros newOperands Hall; simpl.
  - by rewrite app_nil_r.
  - apply Forall_cons in Hall as [Hv Hall]. simpl in Hv.
    rewrite resolveStreamOperand_cast by done. simpl.
    rewrite IH by done. by rewrite <- app_assoc.
Qed.

Lemma resolveStreamOperands_Success (ir : Context) (zipped : list (Value * Value)) :
  ∀ newOperands l : list Value,
    resolveStreamOperands ir zipped newOperands = Success l ->
    Forall (fun p => is_stream_cast_result ir (snd p) = true) zipped.
Proof.
  induction zipped as [|[old v] zipped IH]; intros newOperands l; simpl.
  - constructor.
  - destruct (resolveStreamOperand ir v newOperands) as [l'| |] eqn:Hv; simpl;
      try discriminate.
    intros Hrest. constructor.
    + by eapply resolveStreamOperand_Success.
    + by eapply IH.
Qed.

(** X7. An operation whose operands are streams produced by instances: when
    every remapped operand is the stream result of a cast and the first
    input of the first cast is a result of an [InstanceOp], the new operands
    are the inputs of the casts, in order, and then the last result of that
    instance. The producers of the other operands are not looked at. *)
Theorem resolveNewOperands_of_instances
    (fuel : nat) (ir : Context) (oldOperation : nat)
    (first : Value) (rest : list Value)
    (inst k : nat) (others : list Value) (n : nat) :
  length (opOperands (operations ir oldOperation)) = S (length rest) ->
  Forall (fun v => is_stream_cast_result ir v = true) (first :: rest) ->
  cast_inputs ir first = OpResult inst k :: others ->
  isa_InstanceOp (operations ir inst) = true ->
  length (opResultTypes (operations ir inst)) = S n ->
  2 ≤ fuel ->
  resolveNewOperands fuel ir oldOperation (first :: rest) []
  = Some (Success (List.concat (cast_inputs ir <$> first :: rest)
                   ++ [OpResult inst n])).
Proof.
  intros Hlen Hall Hin Hinst Hres Hfuel. unfold resolveNewOperands.
  rewrite resolveStreamOperands_casts.
  2: { apply Forall_forall. intros [old v] Hp. simpl.
       apply elem_of_zip_r in Hp. by eapply Forall_forall in Hall. }
  rewrite snd_zip by (simpl; lia). simpl.
  destruct fuel as [|[|fuel]]; [lia..|].
  apply Forall_cons in Hall as [Hfirst _].
  unfold is_stream_cast_result in Hfirst.
  apply andb_true_iff in Hfirst as [_ Hcast].
  destruct first as [b i|c i]; [discriminate|].
  simpl in Hin. simpl.
  assert (isa_InstanceOp (operations ir c) = false) as ->.
  { unfold isa_InstanceOp. unfold isa_UnrealizedConversionCastOp in Hcast.
    by destruct (opKind (operations ir c)). }
  rewrite Hin, Hinst. unfold getResults_back. rewrite Hres. done.
Qed.

Lemma resolveNewOperands_of_instances_witness :
  resolveNewOperands 2 example_ir 4 [OpResult 2 0; OpResult 2 0] []
  = Some (Success [OpResult 1 0; OpResult 1 1; OpResult 1 0; OpResult 1 1;
                   OpResult 1 2]).
Proof.
  apply (resolveNewOperands_of_instances 2 example_ir 4 (OpResult 2 0)
           [OpResult 2 0] 1 0 [OpResult 1 1] 2).
  - reflexivity.
  - repeat constructor.
  - reflexivity.
  - reflexivity.
  - reflexivity.
  - lia.
Defined.

(** X8. [resolveNewOperands] returns new operands only when every remapped
    operand that is paired with an operand of the operation is the stream
    result of an [UnrealizedConversionCastOp]. *)
Theorem resolveNewOperands_needs_casts
    (fuel : nat) (ir : Context) (oldOperation : nat)
    (remappedOperands newOperands l : list Value) :
  resolveNewOperands fuel ir oldOperation remappedOperands newOperands
  = Some (Success l) ->
  Forall (fun p => is_stream_cast_result ir (snd p) = true)
    (zip (opOperands (operations ir oldOperation)) remappedOperands).
Proof.
  unfold resolveNewOperands.
  destruct (resolveStreamOperands _ _ _) as [l'| |] eqn:Hres; try discriminate.
  intros _. by eapply resolveStreamOperands_Success.
Qed.

Lemma resolveNewOperands_needs_casts_witness :
  Forall (fun p => is_stream_cast_result example_ir (snd p) = true)
    (zip (opOperands (operations example_ir 4)) [OpResult 2 0; OpResult 2 0]).
Proof.
  apply (resolveNewOperands_needs_casts 2 example_ir 4
           [OpResult 2 0; OpResult 2 0] []
           [OpResult 1 0; OpResult 1 1; OpResult 1 0; OpResult 1 1; OpResult 1 2]).
  reflexivity.
Defined.

(** A stream that is a block argument is not resolved. *)
Example resolveNewOperands_block_argument :
  resolveNewOperands 2
    {| operations := operations example_ir;
       blocks := fun _ => mkBlock [StreamType I64; NoneType] |}
    4 [BlockArgument 0 0] []
  = Some (AssertionFailure "dyn_cast on a non-existent value").
Proof. reflexivity. Qed.

End OperandsFacts.

(** ** Units in a row *)

Module UnitsFacts.
Import Types Handshake Circuits MoreCircuits Units Vocabulary.
Import HandshakeFacts CreateFacts FilterFacts ReduceFacts CombineFacts.
Local Open Scope list_scope.
Local Open Scope nat_scope.

Lemma map_unit_eq {T R} (f : T -> R) (tupleIn : chan (T * bool)) (initCtrl : chan unit) :
  map_unit f tupleIn initCtrl
  = ((fun x => (f (fst x), snd x)) <$> tupleIn,
     replicate (length tupleIn) tt,
     initCtrl).
Proof.
  unfold map_unit, MapOpLowering_region, pure_lambda, PackOp, UnpackOp_0, UnpackOp_1.
  cbn [fst snd]. do 2 f_equal.
  induction tupleIn as [|[d e] l IH]; csimpl; [done|]. by rewrite IH.
Qed.

(** X9. The unit of a [map] with the lowered body of [f] applies [f] to
    the data of every activation and leaves its EOS flag as it is; it emits
    one control token per payload. The unit of a [map] of [g], fed the
    payloads and the controls of the unit of a [map] of [f], is the unit of
    a [map] of [g] after [f]. *)
Theorem map_keeps_eos_and_composes {T R S} (f : T -> R) (g : R -> S)
    (tupleIn : chan (T * bool)) (initCtrl : chan unit) :
  map_unit f tupleIn initCtrl
  = ((fun x => (f (fst x), snd x)) <$> tupleIn,
     replicate (length tupleIn) tt,
     initCtrl)
  ∧ UnpackOp_1 (fst (fst (map_unit f tupleIn initCtrl))) = UnpackOp_1 tupleIn
  ∧ (let '(tupleOut, ctrlOut, init) := map_unit f tupleIn initCtrl in
     MapOpLowering_region (pure_lambda g) tupleOut ctrlOut init)
    = map_unit (fun x => g (f x)) tupleIn initCtrl.
Proof.
  rewrite map_unit_eq. split; [done|]. split.
  - cbn [fst]. unfold UnpackOp_1. rewrite <- list_fmap_compose.
    by apply list_fmap_ext.
  - rewrite map_unit_eq.
    rewrite <- (length_fmap (fun x : T * bool => (f (fst x), snd x)) tupleIn) at 1.
    change (MapOpLowering_region (pure_lambda g) ?t (replicate (length ?t) tt) ?i)
      with (map_unit g t i).
    rewrite map_unit_eq, length_fmap, <- list_fmap_compose. done.
Qed.

(** X10. The unit of a [split] with the lowered bodies [fs] has one output
    stream per body: the image of the data under that body with the EOS flag
    of the input, and one control token per payload. *)
Theorem split_shares_eos_and_ctrl {T R} (fs : list (T -> R))
    (tupleIn : chan (T * bool)) (initCtrl : chan unit) :
  split_unit fs tupleIn initCtrl
  = ((fun f => ((fun x => (f (fst x), snd x)) <$> tupleIn,
                replicate (length tupleIn) tt)) <$> fs,
     initCtrl).
Proof.
  unfold split_unit, SplitOpLowering_region, pure_lambda_split. cbn [fst snd].
  f_equal. rewrite <- list_fmap_compose. apply list_fmap_ext. intros _ f _.
  simpl. f_equal. unfold PackOp, UnpackOp_0, UnpackOp_1.
  induction tupleIn as [|[d e] l IH]; csimpl; [done|]. by rewrite IH.
Qed.

Lemma filter_twice {A} (f g : A -> bool) (l : list A) :
  List.filter g (List.filter f l) = List.filter (fun x => f x && g x) l.
Proof.
  induction l as [|x l IH]; simpl; [done|].
  destruct (f x); simpl; [|done]. destruct (g x); by rewrite IH.
Qed.

(** X11. The unit of a [filter] keeps one control token per payload, and
    the unit of a [filter] by [q], fed the payloads and the controls of the
    unit of a [filter] by [p], is the unit of a [filter] by [p] and [q]. *)
Theorem filter_composes {T} (p q : T -> bool)
    (tupleIn : chan (T * bool)) (initCtrl : chan unit) :
  well_paced (fst (filter_unit p tupleIn initCtrl))
  ∧ (let '(tupleOut, ctrlOut, init) := filter_unit p tupleIn initCtrl in
     FilterOpLowering_region (pure_lambda q) tupleOut ctrlOut init)
    = filter_unit (fun x => p x && q x) tupleIn initCtrl.
Proof.
  rewrite !filter_unit_eq. split.
  - unfold well_paced. simpl. by rewrite length_replicate.
  - change (FilterOpLowering_region (pure_lambda q) ?t (replicate (length ?t) tt) ?i)
      with (filter_unit q t i).
    rewrite filter_unit_eq, filter_twice.
    assert (∀ x : T * bool,
               passes p x && passes q x = passes (fun y => p y && q y) x) as Hpass.
    { intros [d e]. unfold passes. simpl.
      destruct (p d), (q d), e; done. }
    rewrite (List.filter_ext _ _ Hpass). done.
Qed.

Lemma create_no_ctrl (values : list Z) (fuel : nat) :
  CreateOpLowering_region values fuel [] = ([], []).
Proof.
  unfold CreateOpLowering_region.
  assert (feedback fuel (fun tmpCtrl : chan unit =>
                           MergeOp (trueResult (ConditionalBranchOp
                                      (BufferOp_seq [true] (ConstantOp false []))
                                      []))
                             (BufferOp_seq [] tmpCtrl)) = []) as ->.
  { induction fuel as [|fuel IH]; [done|]. by rewrite feedback_S, IH. }
  unfold ConstantOp, CmpIOp_eq, PackOp. csimpl.
  by rewrite !zip_with_nil_r.
Qed.

(** X12. Without a control token the unit of [create] emits nothing. With
    one, it emits an activation per unrolling of its control loop, payload
    and control token alike, whatever control tokens follow the first, and a
    longer run starts with the shorter one. *)
Theorem create_runs_on_one_token
    (values : list Z) (more more' : chan unit) (fuel k : nat) :
  CreateOpLowering_region values fuel [] = ([], [])
  ∧ CreateOpLowering_region values fuel (tt :: more)
    = CreateOpLowering_region values fuel (tt :: more')
  ∧ length (fst (CreateOpLowering_region values fuel (tt :: more))) = fuel
  ∧ snd (CreateOpLowering_region values fuel (tt :: more)) = replicate fuel tt
  ∧ take fuel (fst (CreateOpLowering_region values (fuel + k) (tt :: more)))
    = fst (CreateOpLowering_region values fuel (tt :: more)).
Proof.
  split; [apply create_no_ctrl|].
  split; [by rewrite !CreateOpLowering_region_eq|].
  split; [|split].
  - rewrite CreateOpLowering_region_eq. cbn [fst].
    rewrite length_zip_with, length_app, length_replicate, length_fmap, length_seq.
    lia.
  - by rewrite CreateOpLowering_region_eq.
  - apply list_eq. intros j.
    destruct (decide (j < fuel)) as [Hlt|Hge].
    + rewrite lookup_take_lt by done.
      pose proof (create_activation values (fuel + k) more j ltac:(lia)) as H1.
      pose proof (create_activation values fuel more j Hlt) as H2.
      unfold activation in H1, H2. by rewrite H1, H2.
    + rewrite lookup_take_ge by lia. symmetry. apply lookup_ge_None_2.
      rewrite CreateOpLowering_region_eq. cbn [fst].
      rewrite length_zip_with, length_app, length_replicate, length_fmap, length_seq.
      lia.
Qed.

Lemma create_runs_on_one_token_aux (values : list Z) (more : chan unit) (fuel : nat) :
  length (fst (CreateOpLowering_region values fuel (tt :: more))) = fuel
  ∧ snd (CreateOpLowering_region values fuel (tt :: more)) = replicate fuel tt.
Proof.
  rewrite CreateOpLowering_region_eq. cbn [fst snd]. split; [|done].
  rewrite length_zip_with, length_app, length_replicate, length_fmap, length_seq.
  lia.
Qed.

(** The output of [create] up to and after its first EOS. *)
Lemma create_output_split (values : list Z) (more : chan unit) (fuel : nat) :
  (Z.of_nat (length values) < 2 ^ 64)%Z ->
  length values < fuel ->
  fst (CreateOpLowering_region values fuel (tt :: more))
  = ((fun v => (v, false)) <$> values)
    ++ (0%Z, true)
       :: drop (S (length values))
            (fst (CreateOpLowering_region values fuel (tt :: more))).
Proof.
  intros Hn Hfuel.
  rewrite <- (take_drop (S (length values))
                (fst (CreateOpLowering_region values fuel (tt :: more)))) at 1.
  rewrite cons_middle, app_assoc. f_equal.
  apply list_eq. intros j.
  destruct (decide (j < S (length values))) as [Hlt|Hge].
  - rewrite lookup_take_lt by done.
    pose proof (create_activation values fuel more j ltac:(lia)) as Hact.
    unfold activation in Hact. rewrite Hact, eos_flag_spec by lia.
    destruct (decide (j = length values)) as [->|Hne].
    + rewrite bool_decide_eq_true_2 by done.
      rewrite (lookup_ge_None_2 values) by done.
      rewrite lookup_app_r by (rewrite length_fmap; lia).
      by rewrite length_fmap, Nat.sub_diag.
    + rewrite bool_decide_eq_false_2 by done.
      rewrite lookup_app_l by (rewrite length_fmap; lia).
      rewrite list_lookup_fmap.
      destruct (lookup_lt_is_Some_2 values j ltac:(lia)) as [v ->]. done.
  - rewrite lookup_take_ge by lia. symmetry. apply lookup_ge_None_2.
    rewrite length_app, length_fmap. simpl. lia.
Qed.

(** X13. The unit of [reduce] with the lowered body of [f], fed the
    payloads and the controls of the unit of [create], emits the fold of [f]
    over the literals, with [eos = false] and then with [eos = true], and
    no other payload, however long the unit of [create] runs on. *)
Theorem create_then_reduce_folds
    (f : Z -> Z -> Z) (initValue : Z) (values : list Z) (more : chan unit)
    (fuel_create fuel_reduce : nat) (initCtrl : chan unit) :
  (Z.of_nat (length values) < 2 ^ 64)%Z ->
  length values < fuel_create ->
  length values < fuel_reduce ->
  (let '(tuples, ctrl) := CreateOpLowering_region values fuel_create (tt :: more) in
   fst (fst (ReduceOpLowering_region (pure_lambda2 f) initValue fuel_reduce
               tuples ctrl initCtrl)))
  = [(fold_left f values initValue, false); (fold_left f values initValue, true)].
Proof.
  intros Hn Hc Hr.
  pose proof (create_output_split values more fuel_create Hn Hc) as Hsplit.
  pose proof (create_runs_on_one_token_aux values more fuel_create) as [Hlen Hctrl].
  destruct (CreateOpLowering_region values fuel_create (tt :: more))
    as [tuples ctrl] eqn:Hout.
  cbn [fst snd] in Hsplit, Hlen, Hctrl. subst ctrl.
  set (rest := drop (S (length values)) tuples) in Hsplit.
  destruct (reduce_unit_eos f initValue values 0%Z rest fuel_reduce initCtrl Hr)
    as (cs & _ & Heq).
  unfold reduce_unit, Units.streamCtrl, Units.tupleIn in Heq.
  rewrite <- Hsplit, Hlen in Heq. by rewrite Heq.
Qed.

Lemma create_then_reduce_folds_witness :
  (let '(tuples, ctrl) := CreateOpLowering_region [1; 2; 3; 4]%Z 7 [tt] in
   fst (fst (ReduceOpLowering_region (pure_lambda2 Z.add) 0 5 tuples ctrl [tt])))
  = [(10, false); (10, true)]%Z.
Proof.
  apply (create_then_reduce_folds Z.add 0 [1; 2; 3; 4]%Z [] 7 5 [tt]).
  - vm_compute. reflexivity.
  - simpl. lia.
  - simpl. lia.
Defined.

Lemma MuxOp_zeros (k : nat) (other : chan unit) :
  MuxOp (replicate (S k) 0%Z) [replicate k tt; other] = replicate k tt.
Proof.
  induction k as [|k IH]; [done|].
  change (MuxOp (replicate (S (S k)) 0%Z) [replicate (S k) (); other])
    with (tt :: MuxOp (replicate (S k) 0%Z) [replicate k tt; other]).
  by rewrite IH.
Qed.

Lemma MuxOp_later_ctrl (k : nat) :
  match replicate k tt with
  | [] => []
  | x :: rest =>
      x :: MuxOp (ConstantOp 0%Z (replicate k tt)) [rest; replicate k tt]
  end = replicate k tt.
Proof.
  destruct k as [|k]; [done|].
  change (tt :: MuxOp (ConstantOp 0%Z (replicate (S k) tt))
                  [replicate k tt; replicate (S k) tt]
          = tt :: replicate k tt).
  unfold ConstantOp. by rewrite fmap_replicate, MuxOp_zeros.
Qed.

(** X14. Every EOS activation that reaches the unit of [reduce] after the
    first adds a control token to its output and no payload: with the first
    EOS after the elements [xs] and [more] after it, the unit emits two
    payloads and two control tokens more than there are EOS activations in
    [more]. *)
Theorem reduce_later_eos_adds_ctrl_only {T} (f : Z -> T -> Z) (initValue : Z)
    (xs : list T) (d : T) (more : chan (T * bool))
    (fuel : nat) (initCtrl : chan unit) :
  length xs < fuel ->
  reduce_unit f initValue xs ((d, true) :: more) fuel initCtrl
  = ([(fold_left f xs initValue, false); (fold_left f xs initValue, true)],
     replicate (2 + count_eos more) tt,
     initCtrl).
Proof.
  intros Hfuel.
  rewrite (ReduceOpLowering_region_unfold f initValue xs ((d, true) :: more) eq_refl).
  cbv zeta.
  rewrite take_ge by (rewrite length_accumulators; lia).
  rewrite (dataBr_full f initValue xs ((d, true) :: more) eq_refl).
  cbn [trueResult].
  rewrite eos_eq, streamCtrl_eq.
  rewrite !ConditionalBranchOp_false by (by rewrite length_replicate).
  unfold UnpackOp_1. csimpl.
  rewrite (trueResult_fmap_ctrl snd more).
  fold (count_eos more).
  by rewrite MuxOp_later_ctrl.
Qed.

Lemma reduce_later_eos_adds_ctrl_only_witness :
  reduce_unit Z.add 0 [1; 2; 3; 4]%Z [(0, true); (8, false); (9, true)]%Z 5 [tt]
  = ([(10, false); (10, true)]%Z, [tt; tt; tt], [tt]).
Proof.
  apply (reduce_later_eos_adds_ctrl_only Z.add 0 [1; 2; 3; 4]%Z 0%Z
           [(8, false); (9, true)]%Z 5 [tt]).
  simpl. lia.
Defined.

Lemma length_zip_all {A} (c : chan A) (channels : list (chan A)) :
  length (zip_all (c :: channels))
  = foldr Nat.min (length c) (length <$> channels).
Proof.
  revert c. induction channels as [|c' channels IH]; intros c.
  - simpl. by rewrite length_fmap.
  - change (zip_all (c :: c' :: channels))
      with (zip_with cons c (zip_all (c' :: channels))).
    rewrite length_zip_with, IH. csimpl.
    generalize (length <$> channels) as ls. intros ls.
    induction ls as [|x ls IHls]; simpl in *; lia.
Qed.

Lemma length_fold_zip_with {A} (op : A -> A -> A) (channels : list (chan A)) :
  ∀ c : chan A,
    length (fold_left (zip_with op) channels c)
    = foldr Nat.min (length c) (length <$> channels).
Proof.
  induction channels as [|c' channels IH]; intros c; [done|].
  cbn [fold_left]. rewrite IH, length_zip_with. csimpl.
  generalize (length <$> channels) as ls. intros ls.
  induction ls as [|x ls IHls]; simpl in *; lia.
Qed.

(** X15. The unit of a [combine] emits as many payloads as its shortest
    input has, and as many control tokens as the shortest of the stream
    controls: what the longer inputs have beyond that stays in the unit. *)
Theorem combine_runs_to_shortest {T R} (g : list T -> R)
    (arg : chan (T * bool) * chan unit)
    (args : list (chan (T * bool) * chan unit)) (initCtrl : chan unit) :
  ∃ (tupleOut : chan (R * bool)) (ctrlOut : chan unit),
    CombineOpLowering_region (pure_lambdaN g) (arg :: args) initCtrl
    = Success ([(tupleOut, ctrlOut)], initCtrl)
    ∧ length tupleOut
      = foldr Nat.min (length (fst arg)) ((fun a => length (fst a)) <$> args)
    ∧ length ctrlOut
      = foldr Nat.min (length (snd arg)) ((fun a => length (snd a)) <$> args).
Proof.
  exists (PackOp (g <$> zip_all ((fun a : chan (T * bool) * chan unit =>
                                    UnpackOp_0 (fst a)) <$> arg :: args))
            (fold_left OrIOp ((fun a : chan (T * bool) * chan unit =>
                                 UnpackOp_1 (fst a)) <$> args)
               (UnpackOp_1 (fst arg)))),
         (JoinOp (snd <$> arg :: args)).
  split; [reflexivity|].
  assert (∀ (X : Type) (h : T * bool -> X),
             length <$> ((fun a : chan (T * bool) * chan unit => h <$> fst a) <$> args)
             = (fun a => length (fst a)) <$> args) as Hlens.
  { intros X h. rewrite <- list_fmap_compose. apply list_fmap_ext.
    intros _ a _. simpl. by rewrite length_fmap. }
  split.
  - unfold PackOp. rewrite length_zip_with, length_fmap.
    rewrite fmap_cons, length_zip_all.
    unfold OrIOp. rewrite length_fold_zip_with.
    unfold UnpackOp_0, UnpackOp_1. rewrite !length_fmap, !Hlens. lia.
  - rewrite fmap_cons. unfold JoinOp.
    rewrite length_fold_zip_with, <- list_fmap_compose. done.
Qed.

End UnitsFacts.

(** ** The removal of forks and sinks *)

Module CleanupFacts.
Import Types IR Patterns Cleanup.
Local Open Scope list_scope.
Local Open Scope nat_scope.

Implicit Types (r : list (nat * Operation)) (v : Value).

Lemma getOp_elem_of r (a : nat) (op : Operation) :
  NoDup (fst <$> r) -> (a, op) ∈ r -> getOp a r = Some op.
Proof.
  induction r as [|[a' op'] r IH]; intros Hnd Hin.
  - by apply elem_of_nil in Hin.
  - rewrite fmap_cons in Hnd. apply NoDup_cons in Hnd as [Hfresh Hnd].
    apply elem_of_cons in Hin as [[= <- <-]|Hin]; simpl.
    + by rewrite Nat.eqb_refl.
    + destruct (Nat.eqb_spec a' a) as [->|_]; [|by apply IH].
      exfalso. apply Hfresh. apply list_elem_of_fmap. by exists (a, op).
Qed.

Lemma getOp_fmap r (a : nat) (g : Operation -> Operation) :
  getOp a ((fun p => (fst p, g (snd p))) <$> r) = g <$> getOp a r.
Proof.
  induction r as [|[a' op'] r IH]; csimpl; [done|].
  by destruct (Nat.eqb a' a).
Qed.

Lemma getOp_erase_ne r (a b : nat) : b ≠ a -> getOp b (erase a r) = getOp b r.
Proof.
  intros Hne. unfold erase. induction r as [|[a' op'] r IH]; simpl; [done|].
  destruct (Nat.eqb_spec a' a) as [->|Hne']; simpl.
  - destruct (Nat.eqb_spec a b) as [->|_]; [done|apply IH].
  - by rewrite IH.
Qed.

Lemma is_fork_result_among r v :
  is_fork_result r v = among (fork_results_of r) v.
Proof.
  unfold is_fork_result, among, fork_results_of.
  induction r as [|[a op] r IH]; simpl; [done|].
  destruct (isa_ForkOp op); csimpl; by rewrite IH.
Qed.

Lemma shape_replaceAllUsesWith r (a n : nat) (x : Value) :
  shape <$> ((fun p => (fst p, replaceAllUsesWith a n x (snd p))) <$> r)
  = shape <$> r.
Proof. rewrite <- list_fmap_compose. by apply list_fmap_ext. Qed.

Lemma shape_erase r (a : nat) :
  shape <$> erase a r
  = List.filter (fun s => negb (Nat.eqb (fst (fst (fst s))) a)) (shape <$> r).
Proof.
  unfold erase. induction r as [|[a' op] r IH]; csimpl; [done|].
  destruct (Nat.eqb a' a); csimpl; by rewrite IH.
Qed.

Lemma eraseForkOps_shape (forkOps : list nat) : ∀ r r',
  eraseForkOps forkOps r = Success r' ->
  shape <$> r'
  = List.filter (fun s => negb (existsb (Nat.eqb (fst (fst (fst s)))) forkOps))
      (shape <$> r).
Proof.
  induction forkOps as [|a forkOps IH]; intros r r'; simpl.
  - intros [= <-]. induction (shape <$> r) as [|s l IHl]; simpl; [done|].
    by rewrite <- IHl.
  - destruct (getOp a r) as [op|]; [|discriminate].
    destruct (at_index (opOperands op) 0) as [x| |]; simpl; try discriminate.
    destruct (negb (is_result_of a (length (opResultTypes op)) x)); simpl;
      [|discriminate].
    intros Hrest. apply IH in Hrest. rewrite Hrest.
    rewrite shape_erase, shape_replaceAllUsesWith.
    generalize (shape <$> r) as l. intros l.
    induction l as [|s l IHl]; simpl; [done|].
    destruct (Nat.eqb (fst (fst (fst s))) a); simpl; [exact IHl|].
    destruct (existsb _ forkOps); simpl; by rewrite IHl.
Qed.

Lemma existsb_getOps r (p : nat * Operation) :
  NoDup (fst <$> r) -> p ∈ r ->
  existsb (Nat.eqb (fst p)) (getOps isa_ForkOp r) = isa_ForkOp (snd p).
Proof.
  intros Hnd Hp. unfold getOps.
  destruct (isa_ForkOp (snd p)) eqn:Hfork.
  - apply existsb_exists. exists (fst p). split; [|apply Nat.eqb_refl].
    apply list_elem_of_In, list_elem_of_fmap. exists p. split; [done|].
    apply list_elem_of_In, filter_In. split; [by apply list_elem_of_In|done].
  - destruct (existsb _ _) eqn:Hex; [|done]. exfalso.
    apply existsb_exists in Hex as (a & Ha & Heq%Nat.eqb_eq). subst a.
    apply list_elem_of_In, list_elem_of_fmap in Ha as (q & Hq1 & Hq).
    apply list_elem_of_In, filter_In in Hq as [Hq Hforkq].
    apply list_elem_of_In in Hq.
    assert (getOp (fst p) r = Some (snd p)) as Hgp.
    { apply getOp_elem_of; [done|]. by destruct p. }
    assert (getOp (fst p) r = Some (snd q)) as Hgq.
    { rewrite Hq1. apply getOp_elem_of; [done|]. by destruct q. }
    congruence.
Qed.

Lemma NoDup_filter_fst r (f : nat * Operation -> bool) :
  NoDup (fst <$> r) -> NoDup (fst <$> List.filter f r).
Proof.
  induction r as [|p r IH]; csimpl; [done|].
  intros [Hfresh Hnd]%NoDup_cons. destruct (f p); csimpl; [|by apply IH].
  apply NoDup_cons. split; [|by apply IH].
  intros Hin. apply Hfresh.
  apply list_elem_of_fmap in Hin as (q & -> & Hq).
  apply list_elem_of_fmap. exists q. split; [done|].
  apply list_elem_of_In, filter_In in Hq as [Hq _]. by apply list_elem_of_In.
Qed.

(** X16. When [dematerializeForksAndSinks] returns, no fork and no sink is
    left in the region, and the other operations are there in their order,
    each with its address, kind, result types and block; on the region it
    returns it changes nothing. *)
Theorem dematerialize_removes_forks_and_sinks r r' :
  NoDup (fst <$> r) ->
  dematerializeForksAndSinks r = Success r' ->
  shape <$> r' = shape <$> List.filter is_kept r
  ∧ Forall (fun p => isa_ForkOp (snd p) = false ∧ isa_SinkOp (snd p) = false) r'
  ∧ dematerializeForksAndSinks r' = Success r'.
Proof.
  intros Hnd Hrun. unfold dematerializeForksAndSinks in Hrun.
  set (r0 := List.filter (fun p => negb (isa_SinkOp (snd p))) r) in Hrun.
  assert (NoDup (fst <$> r0)) as Hnd0 by by apply NoDup_filter_fst.
  apply eraseForkOps_shape in Hrun.
  assert (shape <$> r' = shape <$> List.filter is_kept r) as Hshape.
  { rewrite Hrun. unfold r0, is_kept.
    clear Hrun. fold r0.
    assert (∀ l, (∀ p, p ∈ l -> p ∈ r0) ->
              List.filter (fun s => negb (existsb (Nat.eqb (fst (fst (fst s))))
                                            (getOps isa_ForkOp r0))) (shape <$> l)
              = shape <$> List.filter (fun p => negb (isa_ForkOp (snd p))) l) as Hgen.
    { induction l as [|p l IHl]; intros Hl; csimpl; [done|].
      rewrite (existsb_getOps r0 p Hnd0) by (apply Hl; by left).
      rewrite IHl by (intros q Hq; apply Hl; by right).
      by destruct (isa_ForkOp (snd p)). }
    rewrite Hgen by done. f_equal. unfold r0.
    clear. induction r as [|p r IH]; simpl; [done|].
    destruct (isa_SinkOp (snd p)); simpl;
      destruct (isa_ForkOp (snd p)); simpl; by rewrite IH. }
  split; [done|].
  cut (Forall (fun p => isa_ForkOp (snd p) = false ∧ isa_SinkOp (snd p) = false) r').
  { intros Hnone. split; [done|]. unfold dematerializeForksAndSinks, getOps.
    assert (List.filter (fun p => negb (isa_SinkOp (snd p))) r' = r') as ->.
    { clear -Hnone. induction Hnone as [|p l [_ Hs] _ IH]; simpl; [done|].
      rewrite Hs. simpl. by rewrite IH. }
    assert (List.filter (fun p => isa_ForkOp (snd p)) r' = []) as ->.
    { clear -Hnone. induction Hnone as [|p l [Hf _] _ IH]; simpl; [done|].
      by rewrite Hf. }
    done. }
  assert (Forall (fun s : nat * OpKind * list Ty * nat =>
                    match snd (fst (fst s)) with
                    | ForkOp | SinkOp => False
                    | _ => True
                    end) (shape <$> r')) as Hall.
  { rewrite Hshape. apply Forall_fmap, Forall_forall. intros p Hp.
    apply list_elem_of_In, filter_In in Hp as [_ Hkept].
    unfold is_kept, isa_ForkOp, isa_SinkOp in Hkept. simpl.
    by destruct (opKind (snd p)). }
  apply Forall_fmap in Hall. eapply Forall_impl; [exact Hall|].
  intros p Hp. simpl in Hp. unfold isa_ForkOp, isa_SinkOp.
  by destruct (opKind (snd p)).
Qed.

Lemma among_cons (s : nat * nat) (forks : list (nat * nat)) v :
  among (s :: forks) v = false ->
  is_result_of (fst s) (snd s) v = false ∧ among forks v = false.
Proof. unfold among. simpl. by intros [? ?]%orb_false_iff. Qed.

Lemma replace_all_fixed (pending : list (nat * nat * Value)) v :
  among (fst <$> pending) v = false -> replace_all pending v = v.
Proof.
  unfold replace_all. induction pending as [|s pending IH]; csimpl; [done|].
  intros [Hs Hrest]%among_cons. unfold replace_uses at 2. simpl in Hs.
  rewrite Hs. by apply IH.
Qed.

Lemma replace_all_first (pending : list (nat * nat * Value)) v :
  (∀ s, s ∈ pending -> among (fst <$> pending) (snd s) = false) ->
  replace_all pending v
  = match List.find (fun s => is_result_of (fst (fst s)) (snd (fst s)) v) pending with
    | Some s => snd s
    | None => v
    end.
Proof.
  induction pending as [|s pending IH]; intros Hout; [done|].
  assert (∀ s', s' ∈ pending -> among (fst <$> pending) (snd s') = false) as Hout'.
  { intros s' Hs'. specialize (Hout s' ltac:(by right)).
    rewrite fmap_cons in Hout. by apply among_cons in Hout as [_ ?]. }
  change (replace_all (s :: pending) v) with (replace_all pending (replace_uses s v)).
  simpl. unfold replace_uses.
  destruct (is_result_of (fst (fst s)) (snd (fst s)) v); [|by apply IH].
  apply replace_all_fixed. specialize (Hout s ltac:(by left)).
  rewrite fmap_cons in Hout. by apply among_cons in Hout as [_ ?].
Qed.

Lemma map_operands_compose (g h : Value -> Value) (op : Operation) :
  map_operands g (map_operands h op) = map_operands (g ∘ h) op.
Proof. unfold map_operands. simpl. f_equal. by rewrite <- list_fmap_compose. Qed.

Lemma map_operands_ext (g h : Value -> Value) (op : Operation) :
  (∀ v, v ∈ opOperands op -> g v = h v) -> map_operands g op = map_operands h op.
Proof.
  intros Hgh. unfold map_operands. f_equal.
  apply list_eq. intros i. rewrite !list_lookup_fmap.
  destruct (opOperands op !! i) as [v|] eqn:Hv; [|done]. simpl. f_equal.
  apply Hgh. by eapply list_elem_of_lookup_2.
Qed.

Lemma eraseForkOps_bypass : ∀ (pending : list (nat * nat * Value)) r,
  NoDup (fst ∘ fst <$> pending) ->
  (∀ a n x, (a, n, x) ∈ pending ->
     ∃ op rest, getOp a r = Some op
                ∧ length (opResultTypes op) = n
                ∧ opOperands op = x :: rest
                ∧ among (fst <$> pending) x = false) ->
  eraseForkOps (fst ∘ fst <$> pending) r
  = Success ((fun p => (fst p, map_operands (replace_all pending) (snd p)))
               <$> List.filter (fun p => negb (existsb (Nat.eqb (fst p))
                                                 (fst ∘ fst <$> pending))) r).
Proof.
  induction pending as [|[[a n] x] pending IH]; intros r Hnd Hforks.
  - csimpl. f_equal. clear. induction r as [|[b op] r IHr]; csimpl; [done|].
    rewrite <- IHr. f_equal. f_equal. destruct op. unfold map_operands. simpl.
    f_equal. symmetry. apply list_fmap_id.
  - rewrite fmap_cons in Hnd. apply NoDup_cons in Hnd as [Hfresh Hnd].
    destruct (Hforks a n x ltac:(by left)) as (op & rest & Hget & Hn & Hops & Hx).
    rewrite fmap_cons in Hx. apply among_cons in Hx as [Hself Hx]. simpl in Hself.
    cbn [fmap list_fmap eraseForkOps fst compose]. rewrite Hget, Hops. simpl.
    rewrite Hn, Hself. simpl.
    change (list_fmap _ _ (λ x0, (x0.1).1) pending) with (fst ∘ fst <$> pending).
    rewrite IH; [|done|].
    + f_equal. clear. induction r as [|[b op] r IHr]; csimpl; [done|].
      unfold erase in IHr |- *. simpl.
      destruct (Nat.eqb b a); simpl; [exact IHr|].
      destruct (existsb _ _); simpl; [exact IHr|].
      csimpl. f_equal; [|exact IHr]. f_equal.
      change (replaceAllUsesWith a n x op)
        with (map_operands (replace_uses (a, n, x)) op).
      by rewrite map_operands_compose.
    + intros b m y Hb.
      assert (b ≠ a) as Hne.
      { intros ->. apply Hfresh. apply list_elem_of_fmap. by exists (a, m, y). }
      destruct (Hforks b m y ltac:(by right)) as (opb & restb & Hgetb & Hm & Hopsb & Hy).
      rewrite fmap_cons in Hy. apply among_cons in Hy as [Hya Hy]. simpl in Hya.
      eexists _, _. rewrite getOp_erase_ne, getOp_fmap, Hgetb by done.
      split; [reflexivity|]. simpl. rewrite Hopsb. csimpl. rewrite Hya.
      repeat split; done.
Qed.

Lemma fork_table_results r :
  (∀ p, p ∈ r -> isa_ForkOp (snd p) = true -> opOperands (snd p) ≠ []) ->
  fst <$> fork_table r = fork_results_of r.
Proof.
  unfold fork_table, fork_results_of.
  induction r as [|p r IH]; intros Hfed; csimpl; [done|].
  specialize (IH (λ q Hq, Hfed q ltac:(by right))).
  pose proof (Hfed p ltac:(by left)) as Hp.
  destruct (isa_ForkOp (snd p)); csimpl; [|done].
  destruct (opOperands (snd p)); [by destruct Hp|]. csimpl. by rewrite IH.
Qed.

Lemma fork_results_addresses r :
  fst <$> fork_results_of r = getOps isa_ForkOp r.
Proof. unfold fork_results_of, getOps. by rewrite <- list_fmap_compose. Qed.

Lemma fork_results_without_sinks r :
  fork_results_of (List.filter (fun p => negb (isa_SinkOp (snd p))) r)
  = fork_results_of r.
Proof.
  unfold fork_results_of. f_equal.
  induction r as [|p r IH]; simpl; [done|].
  destruct (isa_SinkOp (snd p)) eqn:Hsink; simpl.
  - unfold isa_SinkOp, isa_ForkOp in *. by destruct (opKind (snd p)).
  - by rewrite IH.
Qed.

Lemma bypass_without_sinks r v :
  bypass (List.filter (fun p => negb (isa_SinkOp (snd p))) r) v = bypass r v.
Proof.
  unfold bypass.
  assert (∀ f : nat * Operation -> bool,
            (∀ p, f p = true -> isa_SinkOp (snd p) = false) ->
            List.find f (List.filter (fun p => negb (isa_SinkOp (snd p))) r)
            = List.find f r) as ->; [|done|].
  - intros f Hf. induction r as [|p r IH]; simpl; [done|].
    destruct (f p) eqn:Hp.
    + rewrite (Hf p Hp). simpl. by rewrite Hp.
    + destruct (isa_SinkOp (snd p)); simpl; [done|]. by rewrite Hp.
  - intros p [Hfork _]%andb_true_iff. unfold isa_ForkOp, isa_SinkOp in *.
    by destruct (opKind (snd p)).
Qed.

Lemma find_fork_table r v :
  (∀ p, p ∈ r -> isa_ForkOp (snd p) = true -> opOperands (snd p) ≠ []) ->
  match List.find (fun s => is_result_of (fst (fst s)) (snd (fst s)) v) (fork_table r) with
  | Some s => snd s
  | None => v
  end = bypass r v.
Proof.
  unfold bypass, fork_table.
  induction r as [|p r IH]; intros Hfed; csimpl; [done|].
  specialize (IH (λ q Hq, Hfed q ltac:(by right))).
  pose proof (Hfed p ltac:(by left)) as Hp.
  destruct (isa_ForkOp (snd p)); csimpl; [|done].
  destruct (opOperands (snd p)) eqn:Hops; [by destruct Hp|]. csimpl.
  destruct (is_result_of _ _ v); [|done]. simpl. by rewrite Hops.
Qed.

Lemma filter_getOps r :
  NoDup (fst <$> r) ->
  List.filter (fun p => negb (existsb (Nat.eqb (fst p)) (getOps isa_ForkOp r))) r
  = List.filter (fun p => negb (isa_ForkOp (snd p))) r.
Proof.
  intros Hnd.
  assert (∀ l, (∀ p, p ∈ l -> p ∈ r) ->
            List.filter (fun p => negb (existsb (Nat.eqb (fst p)) (getOps isa_ForkOp r))) l
            = List.filter (fun p => negb (isa_ForkOp (snd p))) l) as Hgen; [|by apply Hgen].
  induction l as [|p l IHl]; intros Hl; simpl; [done|].
  rewrite (existsb_getOps r p Hnd) by (apply Hl; by left).
  by rewrite IHl by (intros q Hq; apply Hl; by right).
Qed.

Lemma filter_is_kept r :
  List.filter (fun p => negb (isa_ForkOp (snd p)))
    (List.filter (fun p => negb (isa_SinkOp (snd p))) r)
  = List.filter is_kept r.
Proof.
  unfold is_kept. induction r as [|p r IH]; simpl; [done|].
  destruct (isa_SinkOp (snd p)); simpl;
    destruct (isa_ForkOp (snd p)); simpl; by rewrite IH.
Qed.

Lemma bypass_not_fork_result r v :
  forks_fed_from_outside r -> is_fork_result r (bypass r v) = false.
Proof.
  intros Hfed. unfold bypass.
  destruct (List.find _ r) as [p|] eqn:Hfind.
  - apply find_some in Hfind as [Hp [Hfork _]%andb_true_iff].
    apply list_elem_of_In in Hp.
    by destruct (Hfed p Hp Hfork) as (x & rest & -> & Hx).
  - unfold is_fork_result. destruct (existsb _ r) eqn:Hex; [|done].
    apply existsb_exists in Hex as (p & Hp & Hres).
    by rewrite (find_none _ _ Hfind p Hp) in Hres.
Qed.

Lemma dematerialize_removes_forks_and_sinks_witness :
  shape <$> bypassed_region = shape <$> List.filter is_kept forked_region
  ∧ Forall (fun p => isa_ForkOp (snd p) = false ∧ isa_SinkOp (snd p) = false)
      bypassed_region
  ∧ dematerializeForksAndSinks bypassed_region = Success bypassed_region.
Proof.
  apply (dematerialize_removes_forks_and_sinks forked_region bypassed_region).
  - apply (bool_decide_unpack _). vm_compute. exact I.
  - reflexivity.
Defined.

(** X17. In a region whose operations have distinct addresses and whose
    forks each take a value that no fork gives, [dematerializeForksAndSinks]
    returns: what is left are the operations that are neither a fork nor a
    sink, in their order, and each operand that was a result of a fork is
    now the operand of that fork; no operand is a result of a fork. *)
Theorem dematerialize_bypasses_forks r :
  NoDup (fst <$> r) ->
  forks_fed_from_outside r ->
  dematerializeForksAndSinks r
  = Success ((fun p => (fst p, map_operands (bypass r) (snd p))) <$> List.filter is_kept r)
  ∧ ∀ p v,
      p ∈ (fun p => (fst p, map_operands (bypass r) (snd p))) <$> List.filter is_kept r ->
      v ∈ opOperands (snd p) -> is_fork_result r v = false.
Proof.
  intros Hnd Hfed. split.
  - unfold dematerializeForksAndSinks.
    set (r0 := List.filter (fun p => negb (isa_SinkOp (snd p))) r).
    assert (NoDup (fst <$> r0)) as Hnd0 by by apply NoDup_filter_fst.
    assert (∀ p, p ∈ r0 -> p ∈ r) as Hsub.
    { intros p Hp. apply list_elem_of_In, filter_In in Hp as [Hp _].
      by apply list_elem_of_In. }
    assert (∀ p, p ∈ r0 -> isa_ForkOp (snd p) = true -> opOperands (snd p) ≠ []) as Hops.
    { intros p Hp Hfork. by destruct (Hfed p (Hsub p Hp) Hfork) as (x & rest & -> & _). }
    assert (fst ∘ fst <$> fork_table r0 = getOps isa_ForkOp r0) as Haddr.
    { rewrite list_fmap_compose, fork_table_results by done.
      apply fork_results_addresses. }
    assert (∀ x, among (fst <$> fork_table r0) x = is_fork_result r x) as Hamong.
    { intros x. rewrite fork_table_results by done. unfold r0.
      by rewrite fork_results_without_sinks, is_fork_result_among. }
    assert (∀ a n x, (a, n, x) ∈ fork_table r0 ->
              ∃ op rest, getOp a r0 = Some op ∧ length (opResultTypes op) = n
                         ∧ opOperands op = x :: rest
                         ∧ is_fork_result r x = false) as Hentries.
    { intros a n x Hin. unfold fork_table in Hin.
      apply list_elem_of_omap in Hin as ([b op] & Hp & Hentry). simpl in Hentry.
      destruct (isa_ForkOp op) eqn:Hfork; [|done].
      destruct (Hfed (b, op) (Hsub _ Hp) Hfork) as (y & rest & Hy & Hout).
      simpl in Hy, Hout. rewrite Hy in Hentry. injection Hentry as <- <- <-.
      exists op, rest. by rewrite (getOp_elem_of r0 b op Hnd0 Hp). }
    rewrite <- Haddr, eraseForkOps_bypass.
    + rewrite Haddr, filter_getOps by done. unfold r0. rewrite filter_is_kept.
      f_equal. apply list_fmap_ext. intros _ p _. f_equal.
      apply map_operands_ext. intros v _.
      rewrite replace_all_first.
      * fold r0. rewrite find_fork_table by done. apply bypass_without_sinks.
      * intros [[a n] x] Hs. rewrite Hamong.
        by destruct (Hentries a n x Hs) as (? & ? & _ & _ & _ & ?).
    + by rewrite Haddr; apply NoDup_filter_fst.
    + intros a n x Hin. destruct (Hentries a n x Hin) as (op & rest & ? & ? & ? & ?).
      exists op, rest. by rewrite Hamong.
  - intros p v Hp Hv.
    apply list_elem_of_fmap in Hp as (q & -> & _). simpl in Hv.
    apply list_elem_of_fmap in Hv as (v0 & -> & _).
    by apply bypass_not_fork_result.
Qed.

Lemma dematerialize_bypasses_forks_witness :
  dematerializeForksAndSinks forked_region
  = Success ((fun p => (fst p, map_operands (bypass forked_region) (snd p)))
               <$> List.filter is_kept forked_region)
  ∧ ∀ p v,
      p ∈ (fun p => (fst p, map_operands (bypass forked_region) (snd p)))
            <$> List.filter is_kept forked_region ->
      v ∈ opOperands (snd p) -> is_fork_result forked_region v = false.
Proof.
  apply (dematerialize_bypasses_forks forked_region).
  - apply (bool_decide_unpack _). vm_compute. exact I.
  - intros p Hp Hfork.
    repeat (apply elem_of_cons in Hp as [->|Hp]); try discriminate.
    + exists (OpResult 1 0), []. split; reflexivity.
    + by apply elem_of_nil in Hp.
Defined.

End CleanupFacts.
